(** * jcodemunch-mcp: the symbol extractor and the hierarchy builder

    A shallow embedding of [jcodemunch_mcp/parser] ([symbols.py],
    [languages.py], [extractor.py], [hierarchy.py]) and the properties of the
    extraction engine stated in the specification; then of the functions
    around it: the summarizer ([batch_summarize.py]), the index
    ([index_store.py]) and the pure parts of the tools, with further
    properties of the code.

    Conventions of the embedding:
    - a Python [str] is the list of its code points, [bytes] is a list of
      bytes; string literals of the source are written [py "..."];
    - a Python exception is a [Raise] result: [UnicodeDecodeError] from the
      strict [bytes.decode("utf-8")], [KeyError] from a dict subscript;
    - the syntax tree of the external parser (tree-sitter) is a finite tree of
      [Node.t] records; [prev_named_sibling] is answered from the list of the
      preceding siblings, which the walker threads along;
    - the [symbols] list that [_walk_tree] appends to is passed in and
      returned;
    - the [SymbolNode] objects of [build_symbol_tree] live in a store indexed
      by the key under which [node_map] holds them, and a [children] list
      holds such references. *)

From Stdlib Require Import String Ascii ZArith NArith Lia List Sorted.
From stdpp Require Import gmap list.
Import ListNotations.

Local Open Scope N_scope.

(** ** Python values *)

Abbreviation codepoint := N (only parsing).
Abbreviation str := (list N) (only parsing).
Abbreviation bytes := (list Byte.byte) (only parsing).

(** An ASCII literal of the source as a [str]. *)
Definition py (s : string) : str := map Byte.to_N (list_byte_of_string s).

(** ** Exceptions *)

Inductive exn := UnicodeDecodeError | KeyError.

Inductive result (A : Type) : Type :=
| Ok (a : A)
| Raise (e : exn).
Arguments Ok {A} a.
Arguments Raise {A} e.

#[global] Instance result_bind : MBind result := fun A B k r =>
  match r with
  | Ok a => k a
  | Raise e => Raise e
  end.

(** ** [bytes.decode("utf-8")], strict

    Well-formed sequences are those of the Unicode standard (table 3-7):
    no overlong form, no surrogate, nothing above U+10FFFF. *)

Definition is_cont (b : N) : bool := (128 <=? b) && (b <=? 191).

Definition in_range (lo hi b : N) : bool := (lo <=? b) && (b <=? hi).

Fixpoint decode_utf8 (bs : bytes) : result str :=
  match bs with
  | [] => Ok []
  | b0 :: r0 =>
    let x0 := Byte.to_N b0 in
    if x0 <? 128 then
      s ← decode_utf8 r0; Ok (x0 :: s)
    else if in_range 194 223 x0 then
      match r0 with
      | b1 :: r1 =>
        let x1 := Byte.to_N b1 in
        if is_cont x1 then
          s ← decode_utf8 r1; Ok (((x0 - 192) * 64 + (x1 - 128)) :: s)
        else Raise UnicodeDecodeError
      | _ => Raise UnicodeDecodeError
      end
    else if in_range 224 239 x0 then
      match r0 with
      | b1 :: b2 :: r2 =>
        let x1 := Byte.to_N b1 in
        let x2 := Byte.to_N b2 in
        let lo := if x0 =? 224 then 160 else 128 in
        let hi := if x0 =? 237 then 159 else 191 in
        if in_range lo hi x1 && is_cont x2 then
          s ← decode_utf8 r2;
          Ok (((x0 - 224) * 4096 + (x1 - 128) * 64 + (x2 - 128)) :: s)
        else Raise UnicodeDecodeError
      | _ => Raise UnicodeDecodeError
      end
    else if in_range 240 244 x0 then
      match r0 with
      | b1 :: b2 :: b3 :: r3 =>
        let x1 := Byte.to_N b1 in
        let x2 := Byte.to_N b2 in
        let x3 := Byte.to_N b3 in
        let lo := if x0 =? 240 then 144 else 128 in
        let hi := if x0 =? 244 then 143 else 191 in
        if in_range lo hi x1 && is_cont x2 && is_cont x3 then
          s ← decode_utf8 r3;
          Ok (((x0 - 240) * 262144 + (x1 - 128) * 4096
               + (x2 - 128) * 64 + (x3 - 128)) :: s)
        else Raise UnicodeDecodeError
      | _ => Raise UnicodeDecodeError
      end
    else Raise UnicodeDecodeError
  end.

(** [source_bytes[a:b]] for offsets [0 <= a], [0 <= b]; Python clamps both
    to the length and gives the empty slice when [b <= a]. *)
Definition slice_bytes (source_bytes : bytes) (a b : nat) : bytes :=
  take (b - a)%nat (drop a source_bytes).

(** [source_bytes[a:b].decode("utf-8")] *)
Definition decode_range (source_bytes : bytes) (a b : nat) : result str :=
  decode_utf8 (slice_bytes source_bytes a b).

(** ** [str] methods *)

(** [Py_UNICODE_ISSPACE], the characters [str.strip()] removes. *)
Definition Py_UNICODE_ISSPACE (c : codepoint) : bool :=
  in_range 9 13 c || in_range 28 32 c || (c =? 133) || (c =? 160)
  || (c =? 5760) || in_range 8192 8202 c || (c =? 8232) || (c =? 8233)
  || (c =? 8239) || (c =? 8287) || (c =? 12288).

Fixpoint drop_while {A} (p : A -> bool) (l : list A) : list A :=
  match l with
  | [] => []
  | x :: l' => if p x then drop_while p l' else l
  end.

Definition lstrip_with (p : codepoint -> bool) (s : str) : str := drop_while p s.
Definition rstrip_with (p : codepoint -> bool) (s : str) : str :=
  rev (drop_while p (rev s)).

(** [s.strip()] *)
Definition strip (s : str) : str :=
  rstrip_with Py_UNICODE_ISSPACE (lstrip_with Py_UNICODE_ISSPACE s).

Definition mem_cp (c : codepoint) (chars : str) : bool := existsb (N.eqb c) chars.

(** [s.rstrip(chars)] *)
Definition rstrip_chars (chars s : str) : str :=
  rstrip_with (fun c => mem_cp c chars) s.

Fixpoint startswith (s p : str) : bool :=
  match p, s with
  | [], _ => true
  | _ :: _, [] => false
  | c :: p', d :: s' => (c =? d) && startswith s' p'
  end.

Definition endswith (s p : str) : bool := startswith (rev s) (rev p).

Definition str_eqb (a b : str) : bool := bool_decide (a = b).

(** [s[a:]], [s[:b]], [s[a:-b]] and [s[:-b]] for literal [a], [b] *)
Definition slice_from (a : nat) (s : str) : str := drop a s.
Definition slice_to (b : nat) (s : str) : str := take b s.
Definition slice_mid (a b : nat) (s : str) : str :=
  drop a (take (length s - b)%nat s).
Definition slice_to_neg (b : nat) (s : str) : str := take (length s - b)%nat s.

(** [text.split("\n")] and [sep.join(parts)] *)
Fixpoint split_on (sep : codepoint) (s : str) : list str :=
  match s with
  | [] => [[]]
  | c :: s' =>
    if c =? sep then [] :: split_on sep s'
    else match split_on sep s' with
         | [] => [[c]]
         | w :: ws => (c :: w) :: ws
         end
  end.

Fixpoint join (sep : str) (parts : list str) : str :=
  match parts with
  | [] => []
  | [p] => p
  | p :: ps => p ++ sep ++ join sep ps
  end.

(** [text.replace(a, b)] for one-character [a] and [b] *)
Definition replace_char (a b : codepoint) (s : str) : str :=
  map (fun c => if c =? a then b else c) s.

(** *** Letter case

    [str.isupper] reads the case of each character from the Unicode
    database.  The ASCII part is fixed here; the case of the other code
    points is the table [ucd_case]. *)

Inductive Case := Upper | Lower | Title | Uncased.

Definition case_eqb (a b : Case) : bool :=
  match a, b with
  | Upper, Upper | Lower, Lower | Title, Title | Uncased, Uncased => true
  | _, _ => false
  end.

Definition char_case (ucd_case : codepoint -> Case) (c : codepoint) : Case :=
  if c <? 128 then
    if in_range 65 90 c then Upper
    else if in_range 97 122 c then Lower
    else Uncased
  else ucd_case c.

(** A database with no cased character outside ASCII; it agrees with every
    database on ASCII text. *)
Definition ascii_only : codepoint -> Case := fun _ => Uncased.

Definition Py_UNICODE_ISUPPER (ucd_case : codepoint -> Case) (c : codepoint) : bool :=
  case_eqb (char_case ucd_case c) Upper.
Definition Py_UNICODE_ISLOWER (ucd_case : codepoint -> Case) (c : codepoint) : bool :=
  case_eqb (char_case ucd_case c) Lower.
Definition Py_UNICODE_ISTITLE (ucd_case : codepoint -> Case) (c : codepoint) : bool :=
  case_eqb (char_case ucd_case c) Title.

(** The loop of [str.isupper]: [false] at the first lower-case or title-case
    character, else whether an upper-case character was seen. *)
Fixpoint isupper_loop (ucd_case : codepoint -> Case) (cased : bool) (s : str) : bool :=
  match s with
  | [] => cased
  | c :: s' =>
    if Py_UNICODE_ISLOWER ucd_case c || Py_UNICODE_ISTITLE ucd_case c then false
    else isupper_loop ucd_case (cased || Py_UNICODE_ISUPPER ucd_case c) s'
  end.

(** [s.isupper()] *)
Definition isupper (ucd_case : codepoint -> Case) (s : str) : bool :=
  match s with
  | [c] => Py_UNICODE_ISUPPER ucd_case c
  | [] => false
  | _ => isupper_loop ucd_case false s
  end.

(** ** symbols.py *)

Module Symbol.
Record t := mk {
  id : str;
  file : str;
  name : str;
  qualified_name : str;
  kind : str;
  language : str;
  signature : str;
  docstring : str;
  summary : str;
  decorators : list str;
  keywords : list str;
  parent : option str;
  line : Z;
  end_line : Z;
  byte_offset : Z;
  byte_length : Z
}.
End Symbol.

(** [slugify(text)]: [text.replace("/", "-").replace(".", "-")] *)
Definition slugify (text : str) : str :=
  replace_char 46 45 (replace_char 47 45 text).

(** [make_symbol_id(file_path, qualified_name)] *)
Definition make_symbol_id (file_path qualified_name : str) : str :=
  slugify file_path ++ py "::" ++ qualified_name.

(** ** languages.py *)

(** A [dict] with [str] keys, in insertion order. *)
Abbreviation dict V := (list (str * V)) (only parsing).

Fixpoint dict_get {V} (d : dict V) (k : str) : option V :=
  match d with
  | [] => None
  | (k', v) :: d' => if str_eqb k k' then Some v else dict_get d' k
  end.

(** [k in d] for a dict, [x in l] for a list of strings *)
Definition dict_mem {V} (d : dict V) (k : str) : bool :=
  match dict_get d k with Some _ => true | None => false end.
Definition list_mem (l : list str) (x : str) : bool := existsb (str_eqb x) l.

Record LanguageSpec := {
  ts_language : str;
  symbol_node_types : dict str;
  name_fields : dict str;
  param_fields : dict str;
  return_type_fields : dict str;
  docstring_strategy : str;
  decorator_node_type : option str;
  container_node_types : list str;
  constant_patterns : list str;
  type_patterns : list str
}.

Definition PYTHON_SPEC : LanguageSpec := {|
  ts_language := py "python";
  symbol_node_types :=
    [ (py "function_definition", py "function");
      (py "class_definition", py "class") ];
  name_fields :=
    [ (py "function_definition", py "name");
      (py "class_definition", py "name") ];
  param_fields := [ (py "function_definition", py "parameters") ];
  return_type_fields := [ (py "function_definition", py "return_type") ];
  docstring_strategy := py "next_sibling_string";
  decorator_node_type := Some (py "decorator");
  container_node_types := [ py "class_definition" ];
  constant_patterns := [ py "assignment" ];
  type_patterns := [ py "type_alias_statement" ]
|}.

Definition JAVASCRIPT_SPEC : LanguageSpec := {|
  ts_language := py "javascript";
  symbol_node_types :=
    [ (py "function_declaration", py "function");
      (py "class_declaration", py "class");
      (py "method_definition", py "method");
      (py "arrow_function", py "function");
      (py "generator_function_declaration", py "function") ];
  name_fields :=
    [ (py "function_declaration", py "name");
      (py "class_declaration", py "name");
      (py "method_definition", py "name") ];
  param_fields :=
    [ (py "function_declaration", py "parameters");
      (py "method_definition", py "parameters");
      (py "arrow_function", py "parameters") ];
  return_type_fields := [];
  docstring_strategy := py "preceding_comment";
  decorator_node_type := None;
  container_node_types := [ py "class_declaration"; py "class" ];
  constant_patterns := [ py "lexical_declaration" ];
  type_patterns := []
|}.

Definition TYPESCRIPT_SPEC : LanguageSpec := {|
  ts_language := py "typescript";
  symbol_node_types :=
    [ (py "function_declaration", py "function");
      (py "class_declaration", py "class");
      (py "method_definition", py "method");
      (py "arrow_function", py "function");
      (py "interface_declaration", py "type");
      (py "type_alias_declaration", py "type");
      (py "enum_declaration", py "type") ];
  name_fields :=
    [ (py "function_declaration", py "name");
      (py "class_declaration", py "name");
      (py "method_definition", py "name");
      (py "interface_declaration", py "name");
      (py "type_alias_declaration", py "name");
      (py "enum_declaration", py "name") ];
  param_fields :=
    [ (py "function_declaration", py "parameters");
      (py "method_definition", py "parameters");
      (py "arrow_function", py "parameters") ];
  return_type_fields :=
    [ (py "function_declaration", py "return_type");
      (py "method_definition", py "return_type");
      (py "arrow_function", py "return_type") ];
  docstring_strategy := py "preceding_comment";
  decorator_node_type := Some (py "decorator");
  container_node_types := [ py "class_declaration"; py "class" ];
  constant_patterns := [ py "lexical_declaration" ];
  type_patterns :=
    [ py "interface_declaration"; py "type_alias_declaration";
      py "enum_declaration" ]
|}.

Definition GO_SPEC : LanguageSpec := {|
  ts_language := py "go";
  symbol_node_types :=
    [ (py "function_declaration", py "function");
      (py "method_declaration", py "method");
      (py "type_declaration", py "type") ];
  name_fields :=
    [ (py "function_declaration", py "name");
      (py "method_declaration", py "name");
      (py "type_declaration", py "name") ];
  param_fields :=
    [ (py "function_declaration", py "parameters");
      (py "method_declaration", py "parameters") ];
  return_type_fields :=
    [ (py "function_declaration", py "result");
      (py "method_declaration", py "result") ];
  docstring_strategy := py "preceding_comment";
  decorator_node_type := None;
  container_node_types := [];
  constant_patterns := [ py "const_declaration" ];
  type_patterns := [ py "type_declaration" ]
|}.

Definition RUST_SPEC : LanguageSpec := {|
  ts_language := py "rust";
  symbol_node_types :=
    [ (py "function_item", py "function");
      (py "struct_item", py "type");
      (py "enum_item", py "type");
      (py "trait_item", py "type");
      (py "impl_item", py "class");
      (py "type_item", py "type") ];
  name_fields :=
    [ (py "function_item", py "name");
      (py "struct_item", py "name");
      (py "enum_item", py "name");
      (py "trait_item", py "name");
      (py "type_item", py "name") ];
  param_fields := [ (py "function_item", py "parameters") ];
  return_type_fields := [ (py "function_item", py "return_type") ];
  docstring_strategy := py "preceding_comment";
  decorator_node_type := Some (py "attribute_item");
  container_node_types := [ py "impl_item"; py "trait_item" ];
  constant_patterns := [ py "const_item"; py "static_item" ];
  type_patterns :=
    [ py "struct_item"; py "enum_item"; py "trait_item"; py "type_item" ]
|}.

Definition JAVA_SPEC : LanguageSpec := {|
  ts_language := py "java";
  symbol_node_types :=
    [ (py "method_declaration", py "method");
      (py "constructor_declaration", py "method");
      (py "class_declaration", py "class");
      (py "interface_declaration", py "type");
      (py "enum_declaration", py "type") ];
  name_fields :=
    [ (py "method_declaration", py "name");
      (py "constructor_declaration", py "name");
      (py "class_declaration", py "name");
      (py "interface_declaration", py "name");
      (py "enum_declaration", py "name") ];
  param_fields :=
    [ (py "method_declaration", py "parameters");
      (py "constructor_declaration", py "parameters") ];
  return_type_fields := [ (py "method_declaration", py "type") ];
  docstring_strategy := py "preceding_comment";
  decorator_node_type := Some (py "marker_annotation");
  container_node_types :=
    [ py "class_declaration"; py "interface_declaration";
      py "enum_declaration" ];
  constant_patterns := [ py "field_declaration" ];
  type_patterns := [ py "interface_declaration"; py "enum_declaration" ]
|}.

Definition LANGUAGE_REGISTRY : dict LanguageSpec :=
  [ (py "python", PYTHON_SPEC);
    (py "javascript", JAVASCRIPT_SPEC);
    (py "typescript", TYPESCRIPT_SPEC);
    (py "go", GO_SPEC);
    (py "rust", RUST_SPEC);
    (py "java", JAVA_SPEC) ].

(** ** The syntax tree of the external parser

    What the extractor reads of a tree-sitter node: its type tag, whether it
    is a named node, the error flag of its subtree, its byte range, the rows
    of its start and end points, the field of its parent it sits in (if
    any), and its children in document order. *)

Module Node.
#[local] Unset Elimination Schemes.
Inductive t := mk {
  type : str;
  is_named : bool;
  has_error : bool;
  start_byte : nat;
  end_byte : nat;
  start_row : nat;
  end_row : nat;
  field : option str;
  children : list t
}.

(** [node.child_by_field_name(f)]: the first child in field [f] *)
Definition child_by_field_name (n : t) (f : str) : option t :=
  List.find (fun c => match field c with
                      | Some g => str_eqb g f
                      | None => false
                      end) (children n).

Definition child_count (n : t) : nat := length (children n).

(** The named siblings before a node, nearest first, given all the
    siblings before it, nearest first: the chain
    [n.prev_named_sibling], [n.prev_named_sibling.prev_named_sibling], ... *)
Definition prev_named_siblings (prevs : list t) : list t :=
  List.filter is_named prevs.

Section Induction.
Variable P : t -> Prop.
Hypothesis step : forall ty nm he sb eb sr er fl cs,
  Forall P cs -> P (mk ty nm he sb eb sr er fl cs).

Fixpoint t_ind (n : t) : P n :=
  match n with
  | mk ty nm he sb eb sr er fl cs =>
    step ty nm he sb eb sr er fl cs
      ((fix all (l : list t) : Forall P l :=
          match l with
          | [] => @List.Forall_nil t P
          | c :: l' => @List.Forall_cons t P c l' (t_ind c) (all l')
          end) cs)
  end.
End Induction.
End Node.

(** ** extractor.py *)

(** The quote characters and the characters of [rstrip("{: \n\t")] *)
Definition dquote : codepoint := 34.
Definition squote : codepoint := 39.
Definition newline : codepoint := 10.
Definition tab : codepoint := 9.

Section Extractor.
Variable ucd_case : codepoint -> Case.

(** [source_bytes[n.start_byte:n.end_byte].decode("utf-8")] *)
Definition node_text (source_bytes : bytes) (n : Node.t) : result str :=
  decode_range source_bytes (Node.start_byte n) (Node.end_byte n).

(** The loop of [_extract_name] over the children of a [type_declaration] *)
Fixpoint type_spec_name (source_bytes : bytes) (cs : list Node.t)
  : result (option str) :=
  match cs with
  | [] => Ok None
  | child :: cs' =>
    if str_eqb (Node.type child) (py "type_spec") then
      match Node.child_by_field_name child (py "name") with
      | Some name_node =>
        name ← node_text source_bytes name_node; Ok (Some name)
      | None => type_spec_name source_bytes cs'
      end
    else type_spec_name source_bytes cs'
  end.

Definition _extract_name (node : Node.t) (spec : LanguageSpec)
    (source_bytes : bytes) : result (option str) :=
  if str_eqb (Node.type node) (py "arrow_function") then Ok None
  else if str_eqb (Node.type node) (py "type_declaration") then
    type_spec_name source_bytes (Node.children node)
  else
    match dict_get (name_fields spec) (Node.type node) with
    | None => Ok None
    | Some field_name =>
      match Node.child_by_field_name node field_name with
      | Some name_node =>
        name ← node_text source_bytes name_node; Ok (Some name)
      | None => Ok None
      end
    end.

(** The byte at which the signature ends: the start of the [body] child,
    or the end of the node *)
Definition signature_end (node : Node.t) : nat :=
  match Node.child_by_field_name node (py "body") with
  | Some body => Node.start_byte body
  | None => Node.end_byte node
  end.

Definition _build_signature (node : Node.t) (spec : LanguageSpec)
    (source_bytes : bytes) : result str :=
  sig_text ← decode_range source_bytes (Node.start_byte node) (signature_end node);
  Ok (rstrip_chars (py "{: " ++ [newline; tab]) (strip sig_text)).

Definition _strip_quotes (text : str) : str :=
  let text := strip text in
  let d3 := [dquote; dquote; dquote] in
  let s3 := [squote; squote; squote] in
  if startswith text d3 && endswith text d3 then strip (slice_mid 3 3 text)
  else if startswith text s3 && endswith text s3 then strip (slice_mid 3 3 text)
  else if startswith text [dquote] && endswith text [dquote] then
    strip (slice_mid 1 1 text)
  else if startswith text [squote] && endswith text [squote] then
    strip (slice_mid 1 1 text)
  else text.

(** The loop of [_extract_python_docstring] over [body.children]; [None]
    when it runs to its end without a [return] *)
Fixpoint python_docstring_loop (source_bytes : bytes) (cs : list Node.t)
  : result (option str) :=
  match cs with
  | [] => Ok None
  | child :: cs' =>
    if str_eqb (Node.type child) (py "expression_statement") then
      let via_field :=
        match Node.child_by_field_name child (py "expression") with
        | Some expr =>
          if str_eqb (Node.type expr) (py "string") then Some expr else None
        | None => None
        end in
      match via_field with
      | Some expr =>
        doc ← node_text source_bytes expr; Ok (Some (_strip_quotes doc))
      | None =>
        match Node.children child with
        | first :: _ =>
          if list_mem [py "string"; py "concatenated_string"] (Node.type first)
          then doc ← node_text source_bytes first; Ok (Some (_strip_quotes doc))
          else python_docstring_loop source_bytes cs'
        | [] => python_docstring_loop source_bytes cs'
        end
      end
    else if str_eqb (Node.type child) (py "string") then
      doc ← node_text source_bytes child; Ok (Some (_strip_quotes doc))
    else python_docstring_loop source_bytes cs'
  end.

Definition _extract_python_docstring (node : Node.t) (source_bytes : bytes)
  : result str :=
  match Node.child_by_field_name node (py "body") with
  | None => Ok []
  | Some body =>
    if Nat.eqb (Node.child_count body) 0 then Ok []
    else
      r ← python_docstring_loop source_bytes (Node.children body);
      Ok (match r with Some doc => doc | None => [] end)
  end.

(** One line of [_clean_comment_markers], in the order of the source's
    [if]/[elif] chain *)
Definition clean_line (line : str) : str :=
  let line := strip line in
  let line :=
    if startswith line (py "/**") then slice_from 3 line
    else if startswith line (py "/*") then slice_from 2 line
    else if startswith line (py "///") then slice_from 3 line
    else if startswith line (py "//") then slice_from 2 line
    else if startswith line (py "//!") then slice_from 3 line
    else if startswith line (py "*") then slice_from 1 line
    else line in
  let line :=
    if endswith line (py "*/") then slice_to_neg 2 line else line in
  strip line.

Definition _clean_comment_markers (text : str) : str :=
  let lines := split_on newline text in
  let cleaned := map clean_line lines in
  strip (join [newline] cleaned).

(** The [while] loop of [_extract_preceding_comments] along the chain of
    previous named siblings; [comments.insert(0, x)] is a cons *)
Fixpoint preceding_comments_loop (source_bytes : bytes) (chain : list Node.t)
    (comments : list str) : result (list str) :=
  match chain with
  | [] => Ok comments
  | prev :: chain' =>
    if list_mem [py "comment"; py "line_comment"; py "block_comment"]
                (Node.type prev)
    then
      comment_text ← node_text source_bytes prev;
      preceding_comments_loop source_bytes chain' (comment_text :: comments)
    else Ok comments
  end.

Definition _extract_preceding_comments (prevs : list Node.t)
    (source_bytes : bytes) : result str :=
  comments ← preceding_comments_loop source_bytes
               (Node.prev_named_siblings prevs) [];
  match comments with
  | [] => Ok []
  | _ => Ok (_clean_comment_markers (join [newline] comments))
  end.

Definition _extract_docstring (prevs : list Node.t) (node : Node.t)
    (spec : LanguageSpec) (source_bytes : bytes) : result str :=
  if str_eqb (docstring_strategy spec) (py "next_sibling_string") then
    _extract_python_docstring node source_bytes
  else if str_eqb (docstring_strategy spec) (py "preceding_comment") then
    _extract_preceding_comments prevs source_bytes
  else Ok [].

Fixpoint decorators_loop (source_bytes : bytes) (decorator_type : str)
    (chain : list Node.t) (decorators : list str) : result (list str) :=
  match chain with
  | [] => Ok decorators
  | prev :: chain' =>
    if str_eqb (Node.type prev) decorator_type then
      decorator_text ← node_text source_bytes prev;
      decorators_loop source_bytes decorator_type chain'
        (strip decorator_text :: decorators)
    else Ok decorators
  end.

Definition _extract_decorators (prevs : list Node.t) (spec : LanguageSpec)
    (source_bytes : bytes) : result (list str) :=
  match decorator_node_type spec with
  | None | Some [] => Ok []
  | Some decorator_type =>
    decorators_loop source_bytes decorator_type
      (Node.prev_named_siblings prevs) []
  end.

(** [name.isupper() or (len(name) > 1 and name[0].isupper() and "_" in name)] *)
Definition constant_name (name : str) : bool :=
  isupper ucd_case name
  || (Nat.ltb 1 (length name)
      && match name with
         | c :: _ => isupper ucd_case [c]
         | [] => false
         end
      && mem_cp 95 name).

Definition _extract_constant (node : Node.t) (spec : LanguageSpec)
    (source_bytes : bytes) (filename language : str)
  : result (option Symbol.t) :=
  if str_eqb (Node.type node) (py "assignment") then
    match Node.child_by_field_name node (py "left") with
    | Some left_ =>
      if str_eqb (Node.type left_) (py "identifier") then
        name ← node_text source_bytes left_;
        if constant_name name then
          text ← node_text source_bytes node;
          let sig := strip text in
          Ok (Some {|
            Symbol.id := make_symbol_id filename name;
            Symbol.file := filename;
            Symbol.name := name;
            Symbol.qualified_name := name;
            Symbol.kind := py "constant";
            Symbol.language := language;
            Symbol.signature := slice_to 100 sig;
            Symbol.docstring := [];
            Symbol.summary := [];
            Symbol.decorators := [];
            Symbol.keywords := [];
            Symbol.parent := None;
            Symbol.line := Z.of_nat (Node.start_row node) + 1;
            Symbol.end_line := Z.of_nat (Node.end_row node) + 1;
            Symbol.byte_offset := Z.of_nat (Node.start_byte node);
            Symbol.byte_length :=
              Z.of_nat (Node.end_byte node) - Z.of_nat (Node.start_byte node)
          |})
        else Ok None
      else Ok None
    | None => Ok None
    end
  else Ok None.

Definition _extract_symbol (prevs : list Node.t) (node : Node.t)
    (spec : LanguageSpec) (source_bytes : bytes) (filename language : str)
    (parent_symbol : option Symbol.t) : result (option Symbol.t) :=
  match dict_get (symbol_node_types spec) (Node.type node) with
  | None => Raise KeyError
  | Some kind =>
    if Node.has_error node then Ok None
    else
      oname ← _extract_name node spec source_bytes;
      match oname with
      | None | Some [] => Ok None
      | Some name =>
        let '(qualified_name, kind) :=
          match parent_symbol with
          | Some p =>
            (Symbol.name p ++ py "." ++ name,
             if str_eqb kind (py "function") then py "method" else kind)
          | None => (name, kind)
          end in
        signature ← _build_signature node spec source_bytes;
        docstring ← _extract_docstring prevs node spec source_bytes;
        decorators ← _extract_decorators prevs spec source_bytes;
        Ok (Some {|
          Symbol.id := make_symbol_id filename qualified_name;
          Symbol.file := filename;
          Symbol.name := name;
          Symbol.qualified_name := qualified_name;
          Symbol.kind := kind;
          Symbol.language := language;
          Symbol.signature := signature;
          Symbol.docstring := docstring;
          Symbol.summary := [];
          Symbol.decorators := decorators;
          Symbol.keywords := [];
          Symbol.parent :=
            match parent_symbol with
            | Some p => Some (Symbol.id p)
            | None => None
            end;
          Symbol.line := Z.of_nat (Node.start_row node) + 1;
          Symbol.end_line := Z.of_nat (Node.end_row node) + 1;
          Symbol.byte_offset := Z.of_nat (Node.start_byte node);
          Symbol.byte_length :=
            Z.of_nat (Node.end_byte node) - Z.of_nat (Node.start_byte node)
        |})
      end
  end.

(** The first [if] of [_walk_tree]: the symbols list and the enclosing
    symbol after it *)
Definition walk_symbol (prevs : list Node.t) (node : Node.t)
    (spec : LanguageSpec) (source_bytes : bytes) (filename language : str)
    (symbols : list Symbol.t) (parent_symbol : option Symbol.t)
  : result (list Symbol.t * option Symbol.t) :=
  if dict_mem (symbol_node_types spec) (Node.type node) then
    symbol ← _extract_symbol prevs node spec source_bytes filename language
               parent_symbol;
    match symbol with
    | Some symbol => Ok (symbols ++ [symbol], Some symbol)
    | None => Ok (symbols, parent_symbol)
    end
  else Ok (symbols, parent_symbol).

(** The second [if] of [_walk_tree] *)
Definition walk_constant (node : Node.t) (spec : LanguageSpec)
    (source_bytes : bytes) (filename language : str)
    (symbols : list Symbol.t) (parent_symbol : option Symbol.t)
  : result (list Symbol.t) :=
  match parent_symbol with
  | None =>
    if list_mem (constant_patterns spec) (Node.type node) then
      const_symbol ← _extract_constant node spec source_bytes filename language;
      match const_symbol with
      | Some const_symbol => Ok (symbols ++ [const_symbol])
      | None => Ok symbols
      end
    else Ok symbols
  | Some _ => Ok symbols
  end.

(** [_walk_tree]; [prevs] are the siblings before [node], nearest first.
    The result is the [symbols] list after the call. *)
Fixpoint _walk_tree (prevs : list Node.t) (node : Node.t)
    (spec : LanguageSpec) (source_bytes : bytes) (filename language : str)
    (symbols : list Symbol.t) (parent_symbol : option Symbol.t)
    {struct node} : result (list Symbol.t) :=
  '(symbols, parent_symbol) ←
    walk_symbol prevs node spec source_bytes filename language symbols
      parent_symbol;
  symbols ←
    walk_constant node spec source_bytes filename language symbols
      parent_symbol;
  match node with
  | Node.mk _ _ _ _ _ _ _ _ cs =>
    (fix walk_children (prevs : list Node.t) (cs : list Node.t)
         (symbols : list Symbol.t) {struct cs} : result (list Symbol.t) :=
       match cs with
       | [] => Ok symbols
       | child :: cs' =>
         symbols ← _walk_tree prevs child spec source_bytes filename language
                     symbols parent_symbol;
         walk_children (child :: prevs) cs' symbols
       end) [] cs symbols
  end.

(** [parse_file], from the point where the external parser has produced
    [tree.root_node] for [source_bytes] *)
Definition parse_file (root_node : Node.t) (source_bytes : bytes)
    (filename language : str) : result (list Symbol.t) :=
  match dict_get LANGUAGE_REGISTRY language with
  | None => Ok []
  | Some spec =>
    _walk_tree [] root_node spec source_bytes filename language [] None
  end.

End Extractor.

(** ** The walk, node by node *)

Section WalkerDefinitions.
Variable ucd_case : codepoint -> Case.
Variable spec : LanguageSpec.
Variable source_bytes : bytes.
Variables filename language : str.

(** The [for child in node.children] loop of [_walk_tree] *)
Fixpoint walk_children (prevs : list Node.t) (cs : list Node.t)
    (symbols : list Symbol.t) (parent_symbol : option Symbol.t)
  : result (list Symbol.t) :=
  match cs with
  | [] => Ok symbols
  | child :: cs' =>
    symbols ← _walk_tree ucd_case prevs child spec source_bytes filename
                language symbols parent_symbol;
    walk_children (child :: prevs) cs' symbols parent_symbol
  end.

(** What a node itself appends, and the enclosing symbol its children
    see; neither depends on the list appended to. *)
Definition own_symbols (prevs : list Node.t) (node : Node.t)
    (parent_symbol : option Symbol.t)
  : result (list Symbol.t * option Symbol.t) :=
  '(symbols, parent_symbol) ←
    walk_symbol prevs node spec source_bytes filename language []
      parent_symbol;
  symbols ←
    walk_constant ucd_case node spec source_bytes filename language symbols
      parent_symbol;
  Ok (symbols, parent_symbol).

(** ** The nodes the walk reaches, each with its context

    [visited root prevs p n]: walking from [root] (no sibling, no enclosing
    symbol) calls [_walk_tree] on [n] with the preceding siblings [prevs]
    and the enclosing symbol [p], unless an exception stops the walk
    before. *)
Inductive visited (root : Node.t)
  : list Node.t -> option Symbol.t -> Node.t -> Prop :=
| visited_root : visited root [] None root
| visited_child prevs p n own p' before c after :
    visited root prevs p n ->
    own_symbols prevs n p = Ok (own, p') ->
    Node.children n = before ++ c :: after ->
    visited root (rev before) p' c.

(** [emitted root n s]: [s] is the Symbol the walk from [root] appends for
    the node [n] *)
Inductive emitted (root : Node.t) : Node.t -> Symbol.t -> Prop :=
| emitted_symbol prevs p n s :
    visited root prevs p n ->
    dict_mem (symbol_node_types spec) (Node.type n) = true ->
    _extract_symbol prevs n spec source_bytes filename language p
      = Ok (Some s) ->
    emitted root n s
| emitted_constant prevs n s :
    visited root prevs None n ->
    list_mem (constant_patterns spec) (Node.type n) = true ->
    _extract_constant ucd_case n spec source_bytes filename language
      = Ok (Some s) ->
    emitted root n s.

End WalkerDefinitions.

(** ** The only exception is [UnicodeDecodeError] *)

Definition decode_error_only {A} (r : result A) : Prop :=
  forall e, r = Raise e -> e = UnicodeDecodeError.


(** The kinds in the tables of the registry, and the types that are both a
    symbol and an assignment *)
Definition table_ok (spec : LanguageSpec) : bool :=
  forallb (fun kv => negb (str_eqb (snd kv) (py "constant")))
    (symbol_node_types spec)
  && negb (dict_mem (symbol_node_types spec) (py "assignment")).


(** ** The byte ranges an extraction decodes *)

Fixpoint take_while {A} (f : A -> bool) (l : list A) : list A :=
  match l with
  | [] => []
  | x :: l' => if f x then x :: take_while f l' else []
  end.

(** The node whose text [_extract_name] decodes *)
Fixpoint type_spec_name_node (cs : list Node.t) : option Node.t :=
  match cs with
  | [] => None
  | child :: cs' =>
    if str_eqb (Node.type child) (py "type_spec") then
      match Node.child_by_field_name child (py "name") with
      | Some name_node => Some name_node
      | None => type_spec_name_node cs'
      end
    else type_spec_name_node cs'
  end.

Definition name_node (node : Node.t) (spec : LanguageSpec) : option Node.t :=
  if str_eqb (Node.type node) (py "arrow_function") then None
  else if str_eqb (Node.type node) (py "type_declaration") then
    type_spec_name_node (Node.children node)
  else
    match dict_get (name_fields spec) (Node.type node) with
    | None => None
    | Some field_name => Node.child_by_field_name node field_name
    end.



(** The nodes whose text [_extract_decorators] decodes *)
Definition decorator_nodes (prevs : list Node.t) (spec : LanguageSpec)
  : list Node.t :=
  match decorator_node_type spec with
  | None | Some [] => []
  | Some decorator_type =>
    take_while (fun c => str_eqb (Node.type c) decorator_type)
      (Node.prev_named_siblings prevs)
  end.


(** ** The naming rule of constants, in the words of the specification

    "A name is accepted as a constant only if it is either entirely
    upper-case, or mixed case beginning with an upper-case letter and
    containing an underscore." *)

Section ConstantNames.
Variable ucd_case : codepoint -> Case.

Definition upper_case_letter (c : codepoint) : bool :=
  case_eqb (char_case ucd_case c) Upper.

(** A cased character that is not upper-case *)
Definition other_case_letter (c : codepoint) : bool :=
  case_eqb (char_case ucd_case c) Lower || case_eqb (char_case ucd_case c) Title.

(** It has a letter, and every cased character of it is upper-case. *)
Definition entirely_upper_case (name : str) : bool :=
  existsb upper_case_letter name && forallb (fun c => negb (other_case_letter c)) name.

(** It has an upper-case letter and a cased character of another case. *)
Definition mixed_case (name : str) : bool :=
  existsb upper_case_letter name && existsb other_case_letter name.

Definition begins_with_upper_case (name : str) : bool :=
  match name with
  | c :: _ => upper_case_letter c
  | [] => false
  end.

Definition contains_underscore (name : str) : bool := existsb (N.eqb 95) name.

Definition accepted_as_constant (name : str) : bool :=
  entirely_upper_case name
  || (mixed_case name && begins_with_upper_case name && contains_underscore name).

End ConstantNames.

(** The Symbol that [_extract_constant] builds for the node [node], from the
    text [name] of its left-hand side and its own text [text] *)
Definition constant_symbol (node : Node.t) (filename language name text : str)
  : Symbol.t :=
  {| Symbol.id := make_symbol_id filename name;
     Symbol.file := filename;
     Symbol.name := name;
     Symbol.qualified_name := name;
     Symbol.kind := py "constant";
     Symbol.language := language;
     Symbol.signature := slice_to 100 (strip text);
     Symbol.docstring := [];
     Symbol.summary := [];
     Symbol.decorators := [];
     Symbol.keywords := [];
     Symbol.parent := None;
     Symbol.line := Z.of_nat (Node.start_row node) + 1;
     Symbol.end_line := Z.of_nat (Node.end_row node) + 1;
     Symbol.byte_offset := Z.of_nat (Node.start_byte node);
     Symbol.byte_length :=
       Z.of_nat (Node.end_byte node) - Z.of_nat (Node.start_byte node) |}.

(** ** hierarchy.py

    A [SymbolNode] is an object that [build_symbol_tree] mutates after it
    has put it in [node_map], and that the [children] lists and [roots]
    refer to.  The store of these objects is [node_map] itself: an object is
    referred to by its key. *)

Module SymbolNode.
Record t := mk {
  symbol : Symbol.t;
  children : list str
}.
End SymbolNode.

(** [{s.id: SymbolNode(symbol=s) for s in symbols}]: a later Symbol with the
    same id takes the place of an earlier one. *)
Definition node_map_of (symbols : list Symbol.t) : gmap (list N) SymbolNode.t :=
  foldl (fun m s => <[Symbol.id s := SymbolNode.mk s []]> m) ∅ symbols.

(** One round of the loop of [build_symbol_tree]; [symbol.parent] counts as
    set when it is neither [None] nor the empty string. *)
Definition link (state : gmap (list N) SymbolNode.t * list str)
    (symbol : Symbol.t) : gmap (list N) SymbolNode.t * list str :=
  let '(node_map, roots) := state in
  let node := Symbol.id symbol in
  match Symbol.parent symbol with
  | Some (c :: parent') =>
    let parent := c :: parent' in
    match node_map !! parent with
    | Some parent_node =>
      (<[parent := SymbolNode.mk (SymbolNode.symbol parent_node)
                     (SymbolNode.children parent_node ++ [node])]> node_map,
       roots)
    | None => (node_map, roots ++ [node])
    end
  | _ => (node_map, roots ++ [node])
  end.

(** [build_symbol_tree(symbols)]: the store and the list of roots *)
Definition build_symbol_tree (symbols : list Symbol.t)
  : gmap (list N) SymbolNode.t * list str :=
  foldl link (node_map_of symbols, []) symbols.

(** The [for] loop of [flatten_tree], [result] being the list built so far
    and [recurse] the recursive call on a list of children *)
Fixpoint flatten_loop (recurse : list str -> option (list (Symbol.t * nat)))
    (heap : gmap (list N) SymbolNode.t) (depth : nat) (nodes : list str)
    (result : list (Symbol.t * nat)) : option (list (Symbol.t * nat)) :=
  match nodes with
  | [] => Some result
  | r :: nodes' =>
    node ← heap !! r;
    sub ← recurse (SymbolNode.children node);
    flatten_loop recurse heap depth nodes'
      ((result ++ [(SymbolNode.symbol node, depth)]) ++ sub)
  end.

(** [flatten_tree(nodes, depth)] on the store [heap]; [fuel] bounds the
    depth of the recursion, and the result is [None] when it is used up. *)
Fixpoint flatten_tree (fuel : nat) (heap : gmap (list N) SymbolNode.t)
    (nodes : list str) (depth : nat) : option (list (Symbol.t * nat)) :=
  match fuel with
  | O => None
  | S fuel' =>
    flatten_loop (fun cs => flatten_tree fuel' heap cs (S depth)) heap depth
      nodes []
  end.

(** [flatten_tree(build_symbol_tree(symbols))] *)
Definition outline (fuel : nat) (symbols : list Symbol.t)
  : option (list (Symbol.t * nat)) :=
  let '(heap, roots) := build_symbol_tree symbols in
  flatten_tree fuel heap roots 0.

(** *** The words of the claims about the hierarchy *)

(** [a] is an ancestor of [s]: a chain of parent fields, each the
    (non-empty) id of the next Symbol, leads from [s] up to [a]. *)
Inductive ancestor (symbols : list Symbol.t) : Symbol.t -> Symbol.t -> Prop :=
| ancestor_parent a s :
    In a symbols -> In s symbols ->
    Symbol.parent s = Some (Symbol.id a) -> Symbol.id a <> [] ->
    ancestor symbols a s
| ancestor_step a m s :
    ancestor symbols a m -> In s symbols ->
    Symbol.parent s = Some (Symbol.id m) -> Symbol.id m <> [] ->
    ancestor symbols a s.

(** Every parent field that is set is the id of a Symbol strictly earlier
    in the list. *)
Definition parents_earlier (symbols : list Symbol.t) : Prop :=
  forall i s p,
    symbols !! i = Some s -> Symbol.parent s = Some p ->
    exists j q, (j < i)%nat /\ symbols !! j = Some q /\ Symbol.id q = p.

(** [a] comes before [s] in the flattened list. *)
Definition emitted_before (out : list (Symbol.t * nat)) (a s : Symbol.t) : Prop :=
  exists l1 l2 l3 da ds, out = l1 ++ (a, da) :: l2 ++ (s, ds) :: l3.

(** The Symbols of [symbols] whose parent field is the non-empty id [k] *)
Definition children_of (symbols : list Symbol.t) (k : str) : list Symbol.t :=
  List.filter (fun s => bool_decide (Symbol.parent s = Some k)
                        && negb (bool_decide (k = []))) symbols.

(** The Symbols whose parent field is [None] or the empty string *)
Definition parentless (s : Symbol.t) : bool :=
  match Symbol.parent s with
  | Some (_ :: _) => false
  | _ => true
  end.

(** The ids along a flattened list *)
Definition ids_of (out : list (Symbol.t * nat)) : list str :=
  map (fun x => Symbol.id (fst x)) out.

(** The store after a new object [sid] has become the last child of [p] *)
Definition with_last_child (p sid : str) (k : str) (n : SymbolNode.t)
  : SymbolNode.t :=
  if bool_decide (k = p)
  then SymbolNode.mk (SymbolNode.symbol n) (SymbolNode.children n ++ [sid])
  else n.

(** What the claims say of the flattened list [out] of [symbols] *)
Definition outline_ok (symbols : list Symbol.t) (out : list (Symbol.t * nat))
  : Prop :=
  Permutation (map fst out) symbols
  /\ (forall s q d,
        In s symbols -> In (q, d) out ->
        Symbol.parent s = Some (Symbol.id q) -> Symbol.id q <> [] ->
        In (s, S d) out)
  /\ (forall s, In s symbols -> parentless s = true -> In (s, 0%nat) out)
  /\ (forall a s, ancestor symbols a s -> emitted_before out a s).

(** * Further definitions *)

(** The enclosing symbol is one of the Symbols appended so far. *)
Definition enclosing_in (p : option Symbol.t) (symbols : list Symbol.t) : Prop :=
  forall q, p = Some q -> In q symbols.

(** The texts of a list of nodes, decoded in the order of the list *)
Fixpoint node_texts (source_bytes : bytes) (ns : list Node.t)
  : result (list str) :=
  match ns with
  | [] => Ok []
  | n :: ns' =>
    t ← node_text source_bytes n;
    ts ← node_texts source_bytes ns';
    Ok (t :: ts)
  end.

(** The node types [_extract_preceding_comments] takes for comments *)
Definition is_comment (n : Node.t) : bool :=
  list_mem [py "comment"; py "line_comment"; py "block_comment"] (Node.type n).

(** Two specifications with the same entries in the five fields that
    [_walk_tree] and the functions it calls read *)
Definition same_walk_fields (spec spec' : LanguageSpec) : Prop :=
  symbol_node_types spec = symbol_node_types spec'
  /\ name_fields spec = name_fields spec'
  /\ docstring_strategy spec = docstring_strategy spec'
  /\ decorator_node_type spec = decorator_node_type spec'
  /\ constant_patterns spec = constant_patterns spec'.

(** ** batch_summarize.py *)

(** [c in s] for a character, and [s.index(c)] where it is *)
Fixpoint str_index (c : codepoint) (s : str) : nat :=
  match s with
  | [] => 0
  | d :: s' => if d =? c then 0%nat else S (str_index c s')
  end.

Definition full_stop : codepoint := 46.

(** [extract_summary_from_docstring(docstring)]; [split] gives at least one
    part, so that [[0]] never fails. *)
Definition extract_summary_from_docstring (docstring : str) : str :=
  match docstring with
  | [] => []
  | _ =>
    let first_line := strip (hd [] (split_on newline (strip docstring))) in
    let first_line :=
      if mem_cp full_stop first_line
      then slice_to (str_index full_stop first_line + 1) first_line
      else first_line in
    slice_to 120 first_line
  end.

(** [signature_fallback(symbol)] *)
Definition signature_fallback (symbol : Symbol.t) : str :=
  let kind := Symbol.kind symbol in
  let name := Symbol.name symbol in
  let sig := Symbol.signature symbol in
  if str_eqb kind (py "class") then py "Class " ++ name
  else if str_eqb kind (py "constant") then py "Constant " ++ name
  else if str_eqb kind (py "type") then py "Type definition " ++ name
  else
    match sig with
    | [] => kind ++ py " " ++ name
    | _ => slice_to 120 sig
    end.

(** [sym.summary = summary]: the Symbol after the assignment *)
Definition set_summary (sym : Symbol.t) (summary : str) : Symbol.t :=
  {| Symbol.id := Symbol.id sym;
     Symbol.file := Symbol.file sym;
     Symbol.name := Symbol.name sym;
     Symbol.qualified_name := Symbol.qualified_name sym;
     Symbol.kind := Symbol.kind sym;
     Symbol.language := Symbol.language sym;
     Symbol.signature := Symbol.signature sym;
     Symbol.docstring := Symbol.docstring sym;
     Symbol.summary := summary;
     Symbol.decorators := Symbol.decorators sym;
     Symbol.keywords := Symbol.keywords sym;
     Symbol.parent := Symbol.parent sym;
     Symbol.line := Symbol.line sym;
     Symbol.end_line := Symbol.end_line sym;
     Symbol.byte_offset := Symbol.byte_offset sym;
     Symbol.byte_length := Symbol.byte_length sym |}.

(** The loops below assign to the [summary] of the Symbols of the list and
    return the list; each is modelled by the list of the Symbols after the
    loop.  A loop body that has run on a Symbol changes nothing when it runs
    on it again, so a Symbol object that the list holds twice has the same
    value at both places. *)

(** The body of the loop of [summarize_symbols_simple] *)
Definition summarize_simple_step (sym : Symbol.t) : Symbol.t :=
  match Symbol.summary sym with
  | _ :: _ => sym
  | [] =>
    let sym :=
      match Symbol.docstring sym with
      | _ :: _ =>
        set_summary sym (extract_summary_from_docstring (Symbol.docstring sym))
      | [] => sym
      end in
    match Symbol.summary sym with
    | [] => set_summary sym (signature_fallback sym)
    | _ => sym
    end
  end.

Definition summarize_symbols_simple (symbols : list Symbol.t)
  : list Symbol.t :=
  map summarize_simple_step symbols.

(** The bodies of the first and of the last loop of [summarize_symbols] *)
Definition docstring_step (sym : Symbol.t) : Symbol.t :=
  match Symbol.docstring sym, Symbol.summary sym with
  | _ :: _, [] =>
    set_summary sym (extract_summary_from_docstring (Symbol.docstring sym))
  | _, _ => sym
  end.

Definition fallback_step (sym : Symbol.t) : Symbol.t :=
  match Symbol.summary sym with
  | [] => set_summary sym (signature_fallback sym)
  | _ => sym
  end.

(** [summarize_batch] of a [BatchSummarizer] that has no client *)
Definition summarize_batch_no_client (symbols : list Symbol.t)
  : list Symbol.t :=
  map fallback_step symbols.

Section Summarizer.
(** [BatchSummarizer().summarize_batch]: with a client it depends on the
    answers of the service. *)
Variable summarize_batch : list Symbol.t -> list Symbol.t.

Definition summarize_symbols (symbols : list Symbol.t) (use_ai : bool)
  : list Symbol.t :=
  let symbols := map docstring_step symbols in
  let symbols := if use_ai then summarize_batch symbols else symbols in
  map fallback_step symbols.

End Summarizer.

Section ParseResponse.
(** [int(s)], [None] standing for [ValueError] *)
Variable int : str -> option Z.

(** [line.split(".", 1)] for a line that holds a [.] *)
Fixpoint split_once (sep : codepoint) (s : str) : str * str :=
  match s with
  | [] => ([], [])
  | c :: s' =>
    if c =? sep then ([], s')
    else let '(a, b) := split_once sep s' in (c :: a, b)
  end.

(** The loop of [_parse_response] over the lines of the answer *)
Fixpoint _parse_response_loop (lines : list str) (expected_count : nat)
    (summaries : list str) : list str :=
  match lines with
  | [] => summaries
  | line :: lines' =>
    let line := strip line in
    match line with
    | [] => _parse_response_loop lines' expected_count summaries
    | _ =>
      if mem_cp full_stop line then
        let '(part0, part1) := split_once full_stop line in
        match int (strip part0) with
        | Some num =>
          if ((1 <=? num) && (num <=? Z.of_nat expected_count))%Z then
            _parse_response_loop lines' expected_count
              (<[Z.to_nat (num - 1) := strip part1]> summaries)
          else _parse_response_loop lines' expected_count summaries
        | None => _parse_response_loop lines' expected_count summaries
        end
      else _parse_response_loop lines' expected_count summaries
    end
  end.

Definition _parse_response (text : str) (expected_count : nat) : list str :=
  _parse_response_loop (split_on newline text) expected_count
    (replicate expected_count []).

End ParseResponse.

(** ** languages.py: file extensions *)

Definition LANGUAGE_EXTENSIONS : list (str * str) :=
  [ (py ".py", py "python");
    (py ".js", py "javascript");
    (py ".jsx", py "javascript");
    (py ".ts", py "typescript");
    (py ".tsx", py "typescript");
    (py ".go", py "go");
    (py ".rs", py "rust");
    (py ".java", py "java") ].

(** ** Further exceptions

    What a function of the tools returns or raises: besides the exceptions
    of the parser, [OSError], [ValueError] and [IndexError]. *)
Inductive raised :=
| OSError
| ValueError
| IndexError
| DecodeError (e : exn).

Inductive outcome (A : Type) :=
| Returns (a : A)
| Raises (e : raised).
Arguments Returns {A} a.
Arguments Raises {A} e.

(** ** index_repo.py, index_folder.py: the skip list *)

(** [sub in s] for two strings *)
Fixpoint contains (s sub : str) : bool :=
  startswith s sub
  || match s with
     | [] => false
     | _ :: s' => contains s' sub
     end.

Module index_repo.

Definition SKIP_PATTERNS : list str :=
  [ py "node_modules/"; py "vendor/"; py "venv/"; py ".venv/";
    py "__pycache__/";
    py "dist/"; py "build/"; py ".git/"; py ".tox/"; py ".mypy_cache/";
    py "target/";
    py ".gradle/";
    py "test_data/"; py "testdata/"; py "fixtures/"; py "snapshots/";
    py "migrations/";
    py ".min.js"; py ".min.ts"; py ".bundle.js";
    py "package-lock.json"; py "yarn.lock"; py "go.sum";
    py "generated/"; py "proto/" ].

Definition should_skip_file (path : str) : bool :=
  existsb (fun pattern => contains path pattern) SKIP_PATTERNS.

Definition slash : codepoint := 47.

(** [s.removesuffix(suffix)] and [s.strip(chars)] *)
Definition removesuffix (s suffix : str) : str :=
  match suffix with
  | [] => s
  | _ => if endswith s suffix then take (length s - length suffix)%nat s
         else s
  end.

Definition strip_chars (chars s : str) : str :=
  rstrip_chars chars (lstrip_with (fun c => mem_cp c chars) s).

Section ParseGithubUrl.
(** [urlparse(url).path] *)
Variable urlparse_path : str -> str.

Definition parse_github_url (url : str) : outcome (str * str) :=
  let url := removesuffix url (py ".git") in
  if contains url (py "/") && negb (contains url (py "://")) then
    let parts := split_on slash url in
    match parts with
    | part0 :: part1 :: _ => Returns (part0, part1)
    | _ => Raises IndexError
    end
  else
    let path := strip_chars (py "/") (urlparse_path url) in
    let parts := split_on slash path in
    match parts with
    | part0 :: part1 :: _ => Returns (part0, part1)
    | _ => Raises ValueError
    end.

End ParseGithubUrl.

End index_repo.

Module index_folder.

Definition SKIP_PATTERNS : list str :=
  [ py "node_modules/"; py "vendor/"; py "venv/"; py ".venv/";
    py "__pycache__/";
    py "dist/"; py "build/"; py ".git/"; py ".tox/"; py ".mypy_cache/";
    py "target/";
    py ".gradle/";
    py "test_data/"; py "testdata/"; py "fixtures/"; py "snapshots/";
    py "migrations/";
    py ".min.js"; py ".min.ts"; py ".bundle.js";
    py "package-lock.json"; py "yarn.lock"; py "go.sum";
    py "generated/"; py "proto/" ].

Definition backslash : codepoint := 92.
Definition slash : codepoint := 47.

Definition should_skip_file (path : str) : bool :=
  let normalized := replace_char backslash slash path in
  existsb (fun pattern => contains normalized pattern) SKIP_PATTERNS.

End index_folder.

(** ** index_store.py *)

(** The [symbols] of a [CodeIndex] are the dicts that [_symbol_to_dict]
    makes of Symbols: each has the sixteen keys of a Symbol, and is modelled
    by the record. *)
Module CodeIndex.
Record t := mk {
  repo : str;
  owner : str;
  name : str;
  indexed_at : str;
  source_files : list str;
  languages : list (str * Z);
  symbols : list Symbol.t
}.

Definition get_symbol (self : t) (symbol_id : str) : option Symbol.t :=
  List.find (fun sym => str_eqb (Symbol.id sym) symbol_id) (symbols self).

(** [s.split()]: the runs of characters of [s] that are not white space;
    [cur] is the run being read, backwards. *)
Fixpoint split_whitespace_loop (cur : option str) (s : str) : list str :=
  match s with
  | [] =>
    match cur with
    | Some w => [rev w]
    | None => []
    end
  | c :: s' =>
    if Py_UNICODE_ISSPACE c then
      match cur with
      | Some w => rev w :: split_whitespace_loop None s'
      | None => split_whitespace_loop None s'
      end
    else
      split_whitespace_loop
        (Some (c :: match cur with Some w => w | None => [] end)) s'
  end.

Definition split_whitespace (s : str) : list str :=
  split_whitespace_loop None s.

(** [for word in query_words: if word in text: score += weight] *)
Definition add_word_hits (weight : Z) (text : str) (query_words : list str)
    (score : Z) : Z :=
  foldl (fun score word =>
           if contains text word then (score + weight)%Z else score)
        score query_words.

(** [scored.sort(key=lambda x: x[0], reverse=True)]: the sort is stable, so
    that its result is the one of sorting by insertion, each pair going
    before the pairs after it that have the same score. *)
Fixpoint insert_by_score (x : Z * Symbol.t) (l : list (Z * Symbol.t))
  : list (Z * Symbol.t) :=
  match l with
  | [] => [x]
  | y :: l' =>
    if (fst x <? fst y)%Z then y :: insert_by_score x l' else x :: l
  end.

Definition sort_by_score (scored : list (Z * Symbol.t))
  : list (Z * Symbol.t) :=
  foldr insert_by_score [] scored.

Section Search.
(** [s.lower()] and [fnmatch.fnmatch(name, pattern)] *)
Variable lower : str -> str.
Variable fnmatch : str -> str -> bool.

Definition _match_pattern (file_path pattern : str) : bool :=
  fnmatch file_path pattern || fnmatch file_path (py "*/" ++ pattern).

(** [query_words] is a set: a list without repetition, whose order does
    not matter to the sums below. *)
Definition _score_symbol (sym : Symbol.t) (query_lower : str)
    (query_words : list str) : Z :=
  let score := 0%Z in
  let name_lower := lower (Symbol.name sym) in
  let score :=
    if str_eqb query_lower name_lower then (score + 20)%Z
    else if contains name_lower query_lower then (score + 10)%Z
    else score in
  let score := add_word_hits 5 name_lower query_words score in
  let sig_lower := lower (Symbol.signature sym) in
  let score :=
    if contains sig_lower query_lower then (score + 8)%Z else score in
  let score := add_word_hits 2 sig_lower query_words score in
  let summary_lower := lower (Symbol.summary sym) in
  let score :=
    if contains summary_lower query_lower then (score + 5)%Z else score in
  let score := add_word_hits 1 summary_lower query_words score in
  let matching_keywords :=
    List.filter (fun word => list_mem (Symbol.keywords sym) word)
      query_words in
  let score := (score + Z.of_nat (length matching_keywords) * 3)%Z in
  let doc_lower := lower (Symbol.docstring sym) in
  let score := add_word_hits 1 doc_lower query_words score in
  score.

(** A filter argument that is [None] or the empty string does not filter. *)
Definition filtered_out (kind file_pattern : option str) (sym : Symbol.t)
  : bool :=
  match kind with
  | Some (c :: k) => negb (str_eqb (Symbol.kind sym) (c :: k))
  | _ => false
  end
  || match file_pattern with
     | Some (c :: p) => negb (_match_pattern (Symbol.file sym) (c :: p))
     | _ => false
     end.

(** The loop of [search] over the Symbols of the index *)
Fixpoint search_loop (query_lower : str) (query_words : list str)
    (kind file_pattern : option str) (symbols : list Symbol.t)
    (scored : list (Z * Symbol.t)) : list (Z * Symbol.t) :=
  match symbols with
  | [] => scored
  | sym :: symbols' =>
    if filtered_out kind file_pattern sym then
      search_loop query_lower query_words kind file_pattern symbols' scored
    else
      let score := _score_symbol sym query_lower query_words in
      if (0 <? score)%Z then
        search_loop query_lower query_words kind file_pattern symbols'
          (scored ++ [(score, sym)])
      else
        search_loop query_lower query_words kind file_pattern symbols' scored
  end.

Definition search (self : t) (query : str) (kind file_pattern : option str)
  : list Symbol.t :=
  let query_lower := lower query in
  let query_words := remove_dups (split_whitespace query_lower) in
  let scored :=
    search_loop query_lower query_words kind file_pattern (symbols self) [] in
  map snd (sort_by_score scored).

End Search.

End CodeIndex.

Module IndexStore.

(** [f.seek(offset)] then [f.read(length)] on a file with the bytes
    [content], opened with mode [rb]: [seek] refuses a negative offset;
    [read] gives the rest of the file for the length [-1], refuses a length
    below, and gives no bytes beyond the end of the file. *)
Definition seek_read (content : bytes) (offset length : Z)
  : outcome bytes :=
  if (offset <? 0)%Z then Raises OSError
  else
    let rest := drop (Z.to_nat offset) content in
    if (length =? -1)%Z then Returns rest
    else if (length <? -1)%Z then Raises ValueError
    else Returns (take (Z.to_nat length) rest).

(** [get_symbol_content], from what [load_index(owner, name)] has
    returned; [file_bytes p] is the content of the file [p] of the content
    directory, if it exists. *)
Definition get_symbol_content (index : option CodeIndex.t)
    (file_bytes : str -> option bytes) (symbol_id : str)
  : outcome (option str) :=
  match index with
  | None => Returns None
  | Some index =>
    match CodeIndex.get_symbol index symbol_id with
    | None => Returns None
    | Some symbol =>
      match file_bytes (Symbol.file symbol) with
      | None => Returns None
      | Some content =>
        match seek_read content (Symbol.byte_offset symbol)
                (Symbol.byte_length symbol) with
        | Raises e => Raises e
        | Returns source_bytes =>
          match decode_utf8 source_bytes with
          | Ok text => Returns (Some text)
          | Raise e => Raises (DecodeError e)
          end
        end
      end
    end
  end.

End IndexStore.

(** ** Lists in the order of the outline *)

(** [nested out]: a list of Symbols with depths that is in the order of an
    outline.  Each Symbol either has no parent and the depth 0, or names
    as its parent a Symbol [q] before it, is one level deeper than [q], and
    everything between [q] and it is deeper than [q]. *)
Inductive nested : list (Symbol.t * nat) -> Prop :=
| nested_nil : nested []
| nested_root out s :
    nested out -> Symbol.parent s = None -> nested (out ++ [(s, 0%nat)])
| nested_child out l1 q dq l2 s :
    nested out ->
    out = l1 ++ (q, dq) :: l2 ->
    Forall (fun e => (dq < snd e)%nat) l2 ->
    Symbol.parent s = Some (Symbol.id q) -> Symbol.id q <> [] ->
    nested (out ++ [(s, S dq)]).

(** The enclosing symbol [p] of the walk stands in [out], and everything
    after it is deeper than it; [d] is the depth of what is nested directly
    inside [p], and 0 when there is no enclosing symbol. *)
Definition on_spine (out : list (Symbol.t * nat)) (p : option Symbol.t)
    (d : nat) : Prop :=
  match p with
  | None => d = 0%nat
  | Some q =>
    exists l1 dq l2,
      d = S dq /\ Symbol.id q <> []
      /\ out = l1 ++ (q, dq) :: l2
      /\ Forall (fun e => (dq < snd e)%nat) l2
  end.

(** ** get_file_outline.py *)

(** The dict that [_node_to_dict] returns; the key [children] is there
    only for a node that has children. *)
Module OutlineDict.
#[local] Unset Elimination Schemes.
Inductive t :=
| mk (id kind name signature summary : str) (line : Z)
     (children : option (list t)).

(** The six values of a dict other than [children] *)
Definition fields : Type := str * str * str * str * str * Z.

(** The dicts in the order in which they are written out, each with its
    depth of nesting *)
Fixpoint listing (depth : nat) (d : t) : list (fields * nat) :=
  match d with
  | mk id kind name signature summary line children =>
    ((id, kind, name, signature, summary, line), depth)
    :: match children with
       | None => []
       | Some cs =>
         (fix go (cs : list t) : list (fields * nat) :=
            match cs with
            | [] => []
            | c :: cs' => listing (S depth) c ++ go cs'
            end) cs
       end
  end.

End OutlineDict.

Definition symbol_fields (s : Symbol.t) : OutlineDict.fields :=
  (Symbol.id s, Symbol.kind s, Symbol.name s, Symbol.signature s,
   Symbol.summary s, Symbol.line s).

(** [_node_to_dict(node)] on the store [heap]; as for [flatten_tree],
    [fuel] bounds the depth of the recursion. *)
Fixpoint _node_to_dict (fuel : nat) (heap : gmap (list N) SymbolNode.t)
    (node : str) : option OutlineDict.t :=
  match fuel with
  | O => None
  | S fuel' =>
    n ← heap !! node;
    let symbol := SymbolNode.symbol n in
    match SymbolNode.children n with
    | [] =>
      Some (OutlineDict.mk (Symbol.id symbol) (Symbol.kind symbol)
              (Symbol.name symbol) (Symbol.signature symbol)
              (Symbol.summary symbol) (Symbol.line symbol) None)
    | children =>
      children ← mapM (_node_to_dict fuel' heap) children;
      Some (OutlineDict.mk (Symbol.id symbol) (Symbol.kind symbol)
              (Symbol.name symbol) (Symbol.signature symbol)
              (Symbol.summary symbol) (Symbol.line symbol) (Some children))
    end
  end.

(** ** search_symbols.py *)

Module search_symbols.

(** An entry of the [results] list *)
Record result_entry := {
  id : str;
  kind : str;
  name : str;
  file : str;
  line : Z;
  signature : str;
  summary : str;
  score : Z
}.

(** [l[:n]] for an [int] [n]: a negative [n] counts from the end. *)
Definition slice_to_int {A} (n : Z) (l : list A) : list A :=
  if (n <? 0)%Z then take (length l - Z.to_nat (- n))%nat l
  else take (Z.to_nat n) l.

Section SearchSymbols.
Variable lower : str -> str.
Variable fnmatch : str -> str -> bool.

Definition _calculate_score (sym : Symbol.t) (query_lower : str)
    (query_words : list str) : Z :=
  let score := 0%Z in
  let name_lower := lower (Symbol.name sym) in
  let score :=
    if str_eqb query_lower name_lower then (score + 20)%Z
    else if contains name_lower query_lower then (score + 10)%Z
    else score in
  let score := CodeIndex.add_word_hits 5 name_lower query_words score in
  let sig_lower := lower (Symbol.signature sym) in
  let score :=
    if contains sig_lower query_lower then (score + 8)%Z else score in
  let score := CodeIndex.add_word_hits 2 sig_lower query_words score in
  let summary_lower := lower (Symbol.summary sym) in
  let score :=
    if contains summary_lower query_lower then (score + 5)%Z else score in
  let score := CodeIndex.add_word_hits 1 summary_lower query_words score in
  let matching_keywords :=
    List.filter (fun word => list_mem (Symbol.keywords sym) word)
      query_words in
  let score := (score + Z.of_nat (length matching_keywords) * 3)%Z in
  let doc_lower := lower (Symbol.docstring sym) in
  let score := CodeIndex.add_word_hits 1 doc_lower query_words score in
  score.

(** The [results] of [search_symbols], from the index that was loaded *)
Definition search_symbols_results (index : CodeIndex.t) (query : str)
    (kind file_pattern : option str) (max_results : Z)
  : list result_entry :=
  let results := CodeIndex.search lower fnmatch index query kind file_pattern in
  let query_lower := lower query in
  let query_words := remove_dups (CodeIndex.split_whitespace query_lower) in
  map (fun sym =>
         {| id := Symbol.id sym;
            kind := Symbol.kind sym;
            name := Symbol.name sym;
            file := Symbol.file sym;
            line := Symbol.line sym;
            signature := Symbol.signature sym;
            summary := Symbol.summary sym;
            score := _calculate_score sym query_lower query_words |})
      (slice_to_int max_results results).

End SearchSymbols.

End search_symbols.

(** ** Trees whose byte ranges are laid out as a parser lays them out *)

(** [laid_out n]: the range of [n] does not end before it starts, and the
    ranges of its children lie in it, one after the other; the same holds
    for every child. *)
Fixpoint laid_out (n : Node.t) : bool :=
  match n with
  | Node.mk _ _ _ sb eb _ _ _ cs =>
    Nat.leb sb eb
    && (fix go (lo : nat) (cs : list Node.t) : bool :=
          match cs with
          | [] => Nat.leb lo eb
          | c :: cs' =>
            Nat.leb lo (Node.start_byte c) && laid_out c
            && go (Node.end_byte c) cs'
          end) sb cs
  end.

(** The children [cs] are laid out one after the other between the bytes
    [lo] and [hi]. *)
Fixpoint children_laid_out (hi lo : nat) (cs : list Node.t) : bool :=
  match cs with
  | [] => Nat.leb lo hi
  | c :: cs' =>
    Nat.leb lo (Node.start_byte c) && laid_out c
    && children_laid_out hi (Node.end_byte c) cs'
  end.

(** ** Concrete syntax trees

    The trees tree-sitter gives for small source files, written out node by
    node with their byte ranges and rows. *)

Module Inputs.
#[local] Open Scope string_scope.

Definition src_lines (ls : list string) : bytes :=
  concat (map (fun l => (list_byte_of_string l ++ [Byte.x0a])%list) ls).

(** A node without error flag, and a node that sits on one row and has no
    children *)
Definition node (ty : string) (named : bool) (sb eb sr er : nat)
    (fld : option string) (cs : list Node.t) : Node.t :=
  Node.mk (py ty) named false sb eb sr er (option_map py fld) cs.
Definition leaf (ty : string) (named : bool) (sb eb row : nat)
    (fld : option string) : Node.t :=
  node ty named sb eb row row fld [].

(** A [function_definition] of Python, [def <n>(): <body>], from the byte
    of [def] on row [r]; the body block is given. *)
Definition py_pass_block (sb r : nat) : Node.t :=
  node "block" true sb (sb + 4) r r (Some "body")
    [ node "pass_statement" true sb (sb + 4) r r None
        [ leaf "pass" false sb (sb + 4) r None ] ].

(** *** A class in a class, with a method
<<
class A:
    class B:
        def c(self):
            pass
>> *)
Definition nested_src : bytes :=
  src_lines [ "class A:"; "    class B:"; "        def c(self):";
              "            pass" ].

Definition nested_tree : Node.t :=
  node "module" true 0 60 0 4 None
  [ node "class_definition" true 0 59 0 3 None
    [ leaf "class" false 0 5 0 None;
      leaf "identifier" true 6 7 0 (Some "name");
      leaf ":" false 7 8 0 None;
      node "block" true 13 59 1 3 (Some "body")
      [ node "class_definition" true 13 59 1 3 None
        [ leaf "class" false 13 18 1 None;
          leaf "identifier" true 19 20 1 (Some "name");
          leaf ":" false 20 21 1 None;
          node "block" true 30 59 2 3 (Some "body")
          [ node "function_definition" true 30 59 2 3 None
            [ leaf "def" false 30 33 2 None;
              leaf "identifier" true 34 35 2 (Some "name");
              node "parameters" true 35 41 2 2 (Some "parameters")
                [ leaf "(" false 35 36 2 None;
                  leaf "identifier" true 36 40 2 None;
                  leaf ")" false 40 41 2 None ];
              leaf ":" false 41 42 2 None;
              py_pass_block 55 3 ] ] ] ] ] ].

(** *** The same function name twice
<<
def f():
    pass
def f():
    pass
>> *)
Definition twice_src : bytes :=
  src_lines [ "def f():"; "    pass"; "def f():"; "    pass" ].

Definition py_def (sb r : nat) : Node.t :=
  node "function_definition" true sb (sb + 17) r (r + 1) None
    [ leaf "def" false sb (sb + 3) r None;
      leaf "identifier" true (sb + 4) (sb + 5) r (Some "name");
      node "parameters" true (sb + 5) (sb + 7) r r (Some "parameters")
        [ leaf "(" false (sb + 5) (sb + 6) r None;
          leaf ")" false (sb + 6) (sb + 7) r None ];
      leaf ":" false (sb + 7) (sb + 8) r None;
      py_pass_block (sb + 13) (r + 1) ].

Definition twice_tree : Node.t :=
  node "module" true 0 36 0 4 None [ py_def 0 0; py_def 18 2 ].

(** *** A string after the first statement of a body
<<
def f():
    x = 1
    'later'
>> *)
Definition later_src : bytes :=
  src_lines [ "def f():"; "    x = 1"; "    'later'" ].

Definition later_tree : Node.t :=
  node "module" true 0 31 0 3 None
  [ node "function_definition" true 0 30 0 2 None
    [ leaf "def" false 0 3 0 None;
      leaf "identifier" true 4 5 0 (Some "name");
      node "parameters" true 5 7 0 0 (Some "parameters")
        [ leaf "(" false 5 6 0 None; leaf ")" false 6 7 0 None ];
      leaf ":" false 7 8 0 None;
      node "block" true 13 30 1 2 (Some "body")
      [ node "expression_statement" true 13 18 1 1 None
        [ node "assignment" true 13 18 1 1 None
          [ leaf "identifier" true 13 14 1 (Some "left");
            leaf "=" false 15 16 1 None;
            leaf "integer" true 17 18 1 (Some "right") ] ];
        node "expression_statement" true 23 30 2 2 None
        [ node "string" true 23 30 2 2 None
          [ leaf "string_start" true 23 24 2 None;
            leaf "string_content" true 24 29 2 None;
            leaf "string_end" true 29 30 2 None ] ] ] ] ].

(** *** A Rust function under a [//!] comment
<<
//! Text
fn f() {}
>> *)
Definition bang_src : bytes := src_lines [ "//! Text"; "fn f() {}" ].

Definition bang_tree : Node.t :=
  node "source_file" true 0 19 0 2 None
  [ leaf "line_comment" true 0 8 0 None;
    node "function_item" true 9 18 1 1 None
    [ leaf "fn" false 9 11 1 None;
      leaf "identifier" true 12 13 1 (Some "name");
      node "parameters" true 13 15 1 1 (Some "parameters")
        [ leaf "(" false 13 14 1 None; leaf ")" false 14 15 1 None ];
      node "block" true 16 18 1 1 (Some "body")
        [ leaf "{" false 16 17 1 None; leaf "}" false 17 18 1 None ] ] ].








(** *** A constant
<<
MAX_SIZE = 100
>> *)
Definition max_src : bytes := src_lines [ "MAX_SIZE = 100" ].

Definition max_left : Node.t := leaf "identifier" true 0 8 0 (Some "left").

Definition max_assignment : Node.t :=
  node "assignment" true 0 14 0 0 None
    [ max_left;
      leaf "=" false 9 10 0 None;
      leaf "integer" true 11 14 0 (Some "right") ].

Definition max_statement : Node.t :=
  node "expression_statement" true 0 14 0 0 None [ max_assignment ].

Definition max_tree : Node.t :=
  node "module" true 0 15 0 1 None [ max_statement ].

(** The Symbols of some of these files *)
Definition symbols_of (r : result (list Symbol.t)) : list Symbol.t :=
  match r with
  | Ok l => l
  | Raise _ => []
  end.

Definition nested_symbols : list Symbol.t :=
  Eval vm_compute in
    symbols_of (parse_file ascii_only nested_tree nested_src (py "a.py")
                  (py "python")).

Definition max_symbols : list Symbol.t :=
  Eval vm_compute in
    symbols_of (parse_file ascii_only max_tree max_src (py "a.py")
                  (py "python")).

Definition bang_symbols : list Symbol.t :=
  Eval vm_compute in
    symbols_of (parse_file ascii_only bang_tree bang_src (py "a.rs")
                  (py "rust")).

(** *** Symbols for the hierarchy builder *)

(** A Symbol with the given id, name and parent field *)
Definition symbol (id name : string) (parent : option string) : Symbol.t :=
  {| Symbol.id := py id; Symbol.file := py "a.py"; Symbol.name := py name;
     Symbol.qualified_name := py name; Symbol.kind := py "class";
     Symbol.language := py "python"; Symbol.signature := py name;
     Symbol.docstring := []; Symbol.summary := []; Symbol.decorators := [];
     Symbol.keywords := []; Symbol.parent := option_map py parent;
     Symbol.line := 1; Symbol.end_line := 1; Symbol.byte_offset := 0;
     Symbol.byte_length := 1 |}.

(** A Symbol whose id is the empty string, and one that names it as its
    parent *)
Definition anonymous : Symbol.t := symbol EmptyString "A" None.
Definition child_of_anonymous : Symbol.t :=
  symbol "b" "B" (Some EmptyString).

End Inputs.

(** ** Further inputs *)

Module MoreInputs.
#[local] Open Scope string_scope.

(** The Python specification without the four fields the walk does not read *)
Definition python_bare : LanguageSpec := {|
  ts_language := ts_language PYTHON_SPEC;
  symbol_node_types := symbol_node_types PYTHON_SPEC;
  name_fields := name_fields PYTHON_SPEC;
  param_fields := [];
  return_type_fields := [];
  docstring_strategy := docstring_strategy PYTHON_SPEC;
  decorator_node_type := decorator_node_type PYTHON_SPEC;
  container_node_types := [];
  constant_patterns := constant_patterns PYTHON_SPEC;
  type_patterns := []
|}.

(** An index of the file with the class in a class, and its stored file *)
Definition nested_index : CodeIndex.t := {|
  CodeIndex.repo := py "local/x";
  CodeIndex.owner := py "local";
  CodeIndex.name := py "x";
  CodeIndex.indexed_at := [];
  CodeIndex.source_files := [py "a.py"];
  CodeIndex.languages := [(py "python", 1%Z)];
  CodeIndex.symbols := Inputs.nested_symbols
|}.

Definition nested_files (p : str) : option bytes :=
  if str_eqb p (py "a.py") then Some Inputs.nested_src else None.

(** The Symbol of the method [c] of the class [B] *)
Definition method_c : Symbol.t :=
  Eval vm_compute in nth 2 Inputs.nested_symbols Inputs.anonymous.

(** A class and a class nested in it, with their depths *)
Definition class_a : Symbol.t := Inputs.symbol "a" "A" None.
Definition class_b : Symbol.t := Inputs.symbol "b" "B" (Some "a").
Definition two_classes : list (Symbol.t * nat) :=
  [ (class_a, 0%nat); (class_b, 1%nat) ].

(** The store and the roots of the two classes *)
Definition two_heap : gmap (list N) SymbolNode.t :=
  fst (build_symbol_tree (map fst two_classes)).
Definition two_roots : list str :=
  snd (build_symbol_tree (map fst two_classes)).

(** Lower case for the letters of ASCII, and a pattern match that only
    takes equal strings *)
Definition ascii_lower (s : str) : str :=
  map (fun c => if in_range 65 90 c then c + 32 else c) s.
Definition exact_match (name pattern : str) : bool := str_eqb name pattern.

(** The path of a URL that begins with [https://github.com] *)
Definition github_path (url : str) : str :=
  drop (length (py "https://github.com")) url.

End MoreInputs.
(** * Properties of the walker *)

Lemma bind_Ok {A B} (r : result A) (k : A -> result B) (b : B) :
  r ≫= k = Ok b <-> exists a, r = Ok a /\ k a = Ok b.
Proof.
  destruct r as [a|e]; simpl; split.
  - intros H. exists a. split; [reflexivity | exact H].
  - intros (a' & Ha & Hk). inversion Ha. subst. exact Hk.
  - intros H. discriminate H.
  - intros (a' & Ha & _). discriminate Ha.
Qed.

Lemma bind_Raise {A B} (r : result A) (k : A -> result B) (e : exn) :
  r ≫= k = Raise e <->
  r = Raise e \/ exists a, r = Ok a /\ k a = Raise e.
Proof.
  destruct r as [a|e']; simpl; split.
  - intros H. right. exists a. split; [reflexivity | exact H].
  - intros [H | (a' & Ha & Hk)]; [discriminate H |].
    inversion Ha. subst. exact Hk.
  - intros H. left. by inversion H.
  - intros [H | (a' & Ha & _)]; [by inversion H | discriminate Ha].
Qed.

(** ** The only exception is [UnicodeDecodeError] *)

Create HintDb deo.

Lemma deo_Ok {A} (a : A) : decode_error_only (Ok a).
Proof. intros e H. discriminate H. Qed.

Lemma deo_Raise {A} : decode_error_only (@Raise A UnicodeDecodeError).
Proof. intros e H. by inversion H. Qed.

Lemma deo_bind {A B} (r : result A) (k : A -> result B) :
  decode_error_only r -> (forall a, decode_error_only (k a)) ->
  decode_error_only (r ≫= k).
Proof.
  intros Hr Hk e H. apply bind_Raise in H as [H | (a & _ & H)].
  - by apply Hr.
  - by apply (Hk a).
Qed.


Lemma decode_utf8_deo bs : decode_error_only (decode_utf8 bs).
Proof.
  remember (length bs) as k eqn:Hk.
  revert bs Hk. induction k as [k IH] using lt_wf_ind. intros bs ->.
  assert (forall r, (length r < length bs)%nat ->
                    decode_error_only (decode_utf8 r)) as Hrec.
  { intros r Hr. by eapply IH. }
  destruct bs as [|b0 r0]; [apply deo_Ok |].
  cbn [decode_utf8].
  destruct (_ <? 128).
  { apply deo_bind; [apply Hrec; simpl; lia | intros; apply deo_Ok]. }
  destruct (in_range 194 223 _).
  { destruct r0 as [|b1 r1]; [apply deo_Raise |].
    destruct (is_cont _); [| apply deo_Raise].
    apply deo_bind; [apply Hrec; simpl; lia | intros; apply deo_Ok]. }
  destruct (in_range 224 239 _).
  { destruct r0 as [|b1 [|b2 r2]]; try apply deo_Raise.
    destruct (_ && _); [| apply deo_Raise].
    apply deo_bind; [apply Hrec; simpl; lia | intros; apply deo_Ok]. }
  destruct (in_range 240 244 _); [| apply deo_Raise].
  destruct r0 as [|b1 [|b2 [|b3 r3]]]; try apply deo_Raise.
  destruct (_ && _); [| apply deo_Raise].
  apply deo_bind; [apply Hrec; simpl; lia | intros; apply deo_Ok].
Qed.

Lemma node_text_deo source_bytes n : decode_error_only (node_text source_bytes n).
Proof. apply decode_utf8_deo. Qed.

#[local] Hint Resolve decode_utf8_deo node_text_deo : deo.







Section Walker.
Variable ucd_case : codepoint -> Case.
Variable spec : LanguageSpec.
Variable source_bytes : bytes.
Variables filename language : str.

#[local] Abbreviation walk_children :=
  (walk_children ucd_case spec source_bytes filename language).
#[local] Abbreviation own_symbols :=
  (own_symbols ucd_case spec source_bytes filename language).
#[local] Abbreviation visited :=
  (visited ucd_case spec source_bytes filename language).
#[local] Abbreviation emitted :=
  (emitted ucd_case spec source_bytes filename language).

Lemma _walk_tree_eq prevs node symbols parent_symbol :
  _walk_tree ucd_case prevs node spec source_bytes filename language symbols
    parent_symbol =
  ('(symbols, parent_symbol) ←
     walk_symbol prevs node spec source_bytes filename language symbols
       parent_symbol;
   symbols ←
     walk_constant ucd_case node spec source_bytes filename language symbols
       parent_symbol;
   walk_children [] (Node.children node) symbols parent_symbol).
Proof.
  destruct node as [ty nm he sb eb sr er fl cs].
  cbn -[walk_symbol walk_constant].
  destruct (walk_symbol _ _ _ _ _ _ _ _) as [[symbols' p]|e];
    cbn -[walk_constant]; [| reflexivity].
  destruct (walk_constant _ _ _ _ _ _ _ _) as [symbols''|e]; cbn;
    [| reflexivity].
  generalize (@nil Node.t) as prevs'. revert symbols''.
  induction cs as [|c cs IH]; intros symbols'' prevs'; [reflexivity |].
  cbn -[_walk_tree].
  destruct (_walk_tree _ _ _ _ _ _ _ _ _); cbn -[_walk_tree];
    [apply IH | reflexivity].
Qed.

Lemma walk_symbol_app prevs node symbols parent_symbol :
  walk_symbol prevs node spec source_bytes filename language symbols
    parent_symbol =
  ('(new, p) ← walk_symbol prevs node spec source_bytes filename language []
                 parent_symbol;
   Ok (symbols ++ new, p)).
Proof.
  unfold walk_symbol.
  destruct (dict_mem _ _); simpl; [| by rewrite app_nil_r].
  destruct (_extract_symbol _ _ _ _ _ _ _) as [[s|]|e]; simpl;
    [reflexivity | by rewrite app_nil_r | reflexivity].
Qed.

Lemma walk_constant_app node symbols parent_symbol :
  walk_constant ucd_case node spec source_bytes filename language symbols
    parent_symbol =
  (new ← walk_constant ucd_case node spec source_bytes filename language []
           parent_symbol;
   Ok (symbols ++ new)).
Proof.
  unfold walk_constant.
  destruct parent_symbol; simpl; [by rewrite app_nil_r |].
  destruct (list_mem _ _); simpl; [| by rewrite app_nil_r].
  destruct (_extract_constant _ _ _ _ _ _) as [[s|]|e]; simpl;
    [reflexivity | by rewrite app_nil_r | reflexivity].
Qed.

Lemma _walk_tree_own prevs node symbols parent_symbol :
  _walk_tree ucd_case prevs node spec source_bytes filename language symbols
    parent_symbol =
  ('(own, p) ← own_symbols prevs node parent_symbol;
   walk_children [] (Node.children node) (symbols ++ own) p).
Proof.
  rewrite _walk_tree_eq, walk_symbol_app. unfold own_symbols.
  destruct (walk_symbol _ _ _ _ _ _ [] _) as [[new p]|e]; simpl;
    [| reflexivity].
  rewrite walk_constant_app.
  rewrite (walk_constant_app _ new).
  destruct (walk_constant _ _ _ _ _ _ [] _) as [new'|e]; simpl;
    [| reflexivity].
  by rewrite app_assoc.
Qed.

Lemma walk_children_app prevs before rest symbols parent_symbol :
  walk_children prevs (before ++ rest) symbols parent_symbol =
  (symbols ← walk_children prevs before symbols parent_symbol;
   walk_children (rev before ++ prevs) rest symbols parent_symbol).
Proof.
  revert prevs symbols.
  induction before as [|c before IH]; intros prevs symbols; simpl;
    [reflexivity |].
  destruct (_walk_tree _ _ _ _ _ _ _ _ _) as [symbols'|e]; simpl;
    [| reflexivity].
  rewrite IH. by rewrite <- app_assoc.
Qed.

Lemma walk_symbol_None prevs n p new :
  walk_symbol prevs n spec source_bytes filename language [] p
    = Ok (new, None) ->
  p = None /\ new = [].
Proof.
  unfold walk_symbol. destruct (dict_mem _ _).
  - destruct (_extract_symbol _ _ _ _ _ _ _) as [[s|]|e]; simpl;
      intros H; inversion H; auto.
  - intros H; inversion H; auto.
Qed.

Lemma own_symbols_emitted root prevs p n own p' :
  visited root prevs p n ->
  own_symbols prevs n p = Ok (own, p') ->
  Forall (emitted root n) own.
Proof.
  intros Hv. unfold own_symbols. intros H.
  apply bind_Ok in H as ([new q] & Hsym & H).
  apply bind_Ok in H as (new' & Hconst & H).
  inversion H; subst; clear H.
  unfold walk_constant in Hconst.
  assert (Forall (emitted root n) new) as Hnew.
  { unfold walk_symbol in Hsym.
    destruct (dict_mem _ _) eqn:Hmem.
    - destruct (_extract_symbol _ _ _ _ _ _ _) as [[s|]|e] eqn:Hs;
        simpl in Hsym; inversion Hsym; subst.
      + repeat constructor. eapply emitted_symbol; eauto.
      + constructor.
    - inversion Hsym. constructor. }
  destruct p' as [q|]; [by inversion Hconst; subst |].
  destruct (walk_symbol_None _ _ _ _ Hsym) as [-> ->].
  destruct (list_mem _ _) eqn:Hmem; [| by inversion Hconst; subst].
  destruct (_extract_constant _ _ _ _ _ _) as [[c|]|e] eqn:Hc;
    simpl in Hconst; inversion Hconst; subst.
  - repeat constructor. eapply emitted_constant; eauto.
  - constructor.
Qed.

(** Every Symbol of the result was emitted for a node the walk reached. *)
Lemma walk_sound root n :
  forall prevs p symbols out,
    visited root prevs p n ->
    _walk_tree ucd_case prevs n spec source_bytes filename language symbols p
      = Ok out ->
    exists new, out = symbols ++ new /\
                Forall (fun s => exists m, emitted root m s) new.
Proof.
  induction n as [ty nm he sb eb sr er fl cs IH] using Node.t_ind.
  intros prevs p symbols out Hv.
  rewrite _walk_tree_own. intros H.
  apply bind_Ok in H as ([own p'] & Hown & H).
  set (n := Node.mk ty nm he sb eb sr er fl cs) in *.
  pose proof (own_symbols_emitted _ _ _ _ _ _ Hv Hown) as Hem.
  assert (forall before rest syms out',
    Node.children n = before ++ rest -> Forall (fun c => forall prevs p symbols out,
       visited root prevs p c ->
       _walk_tree ucd_case prevs c spec source_bytes filename language
         symbols p = Ok out ->
       exists new, out = symbols ++ new /\
                   Forall (fun s => exists m, emitted root m s) new) rest ->
    walk_children (rev before) rest syms p' = Ok out' ->
    exists new, out' = syms ++ new /\
                Forall (fun s => exists m, emitted root m s) new) as Hkids.
  { intros before rest. revert before.
    induction rest as [|c rest IHr]; intros before syms out' Hch Hall Hw.
    - inversion Hw. exists []. by rewrite app_nil_r.
    - simpl in Hw. apply bind_Ok in Hw as (syms1 & Hc & Hw).
      inversion Hall as [|? ? Hpc Hrest]; subst.
      apply Hpc in Hc as (new1 & -> & Hnew1);
        [| eapply visited_child; eauto].
      specialize (IHr (before ++ [c]) (syms ++ new1) out').
      rewrite rev_unit in IHr.
      destruct IHr as (new2 & -> & Hnew2); auto.
      { by rewrite <- app_assoc. }
      exists (new1 ++ new2). split; [by rewrite app_assoc |].
      apply Forall_app; auto. }
  destruct (Hkids [] cs (symbols ++ own) out) as (new & -> & Hnew); auto.
  exists (own ++ new). split; [by rewrite app_assoc |].
  apply Forall_app. split; [| exact Hnew].
  eapply Forall_impl; [exact Hem |]. simpl. eauto.
Qed.




(** The walk only appends to [symbols]. *)
Lemma _walk_tree_appends n :
  forall prevs p symbols out,
    _walk_tree ucd_case prevs n spec source_bytes filename language symbols p
      = Ok out ->
    exists new, out = symbols ++ new.
Proof.
  induction n as [ty nm he sb eb sr er fl cs IH] using Node.t_ind.
  intros prevs p symbols out. rewrite _walk_tree_own. intros H.
  apply bind_Ok in H as ([own p'] & _ & H). cbn [Node.children] in H.
  assert (exists new, out = (symbols ++ own) ++ new) as [new ->].
  { revert H. generalize (symbols ++ own) as syms.
    generalize (@nil Node.t) as prevs'.
    induction IH as [|c cs Hc _ IHcs]; intros prevs' syms H.
    - inversion H. exists []. by rewrite app_nil_r.
    - cbn [walk_children] in H. apply bind_Ok in H as (syms1 & H1 & H).
      apply Hc in H1 as [new1 ->]. apply IHcs in H as [new2 ->].
      exists (new1 ++ new2). by rewrite app_assoc. }
  exists (own ++ new). by rewrite app_assoc.
Qed.

Lemma walk_children_appends cs :
  forall prevs p symbols out,
    walk_children prevs cs symbols p = Ok out ->
    exists new, out = symbols ++ new.
Proof.
  induction cs as [|c cs IH]; intros prevs p symbols out H.
  - inversion H. exists []. by rewrite app_nil_r.
  - simpl in H.
    apply bind_Ok in H as (syms1 & H1 & H).
    apply _walk_tree_appends in H1 as [new1 ->]. apply IH in H as [new2 ->].
    exists (new1 ++ new2). by rewrite app_assoc.
Qed.

(** When the walk from [root] returns, the call at each node it reaches has
    returned, and what that call returned is a prefix of the result. *)
Lemma walk_complete root prevs p n :
  visited root prevs p n ->
  forall out,
    _walk_tree ucd_case [] root spec source_bytes filename language [] None
      = Ok out ->
    exists symbols out_n rest,
      _walk_tree ucd_case prevs n spec source_bytes filename language
        symbols p = Ok out_n /\
      out = out_n ++ rest.
Proof.
  induction 1 as [|prevs p n own p' before c after Hv IH Hown Hch];
    intros out Hout.
  - exists [], out, []. by rewrite app_nil_r.
  - destruct (IH out Hout) as (symbols & out_n & rest & Hn & ->).
    rewrite _walk_tree_own, Hown in Hn. simpl in Hn.
    rewrite Hch, walk_children_app in Hn.
    apply bind_Ok in Hn as (s1 & _ & Hn). rewrite app_nil_r in Hn.
    simpl in Hn. apply bind_Ok in Hn as (s2 & Hc & Hn).
    apply walk_children_appends in Hn as [rest2 ->].
    exists s1, s2, (rest2 ++ rest). split; [exact Hc |].
    by rewrite app_assoc.
Qed.

End Walker.

(** * The extractor on concrete files *)

Module Examples.
Import Inputs.

(** C1. A method [c] of a class [B] nested in a class [A]: the Symbol of [c]
    has the Symbol of [B] as parent, and [B] has the qualified name [A.B],
    but the qualified name of [c] is [B.c]: it is built from the parent's
    short name, so it is not the parent's qualified name, a dot, and the
    name. *)
Lemma nested_qualified_name :
  exists a b c,
    parse_file ascii_only nested_tree nested_src (py "a.py") (py "python")
      = Ok [a; b; c] /\
    Symbol.parent c = Some (Symbol.id b) /\
    Symbol.qualified_name b = py "A.B" /\
    Symbol.name c = py "c" /\
    Symbol.qualified_name c = py "B.c" /\
    Symbol.qualified_name c
      <> Symbol.qualified_name b ++ py "." ++ Symbol.name c.
Proof.
  eexists _, _, _. split; [vm_compute; reflexivity |].
  vm_compute. repeat split. discriminate.
Qed.

(** C2. A file that defines the function [f] twice: the two Symbols of the
    result, one for each definition, have the same identifier. *)
Lemma twice_same_id :
  exists a b,
    parse_file ascii_only twice_tree twice_src (py "a.py") (py "python")
      = Ok [a; b] /\
    Symbol.byte_offset a = 0%Z /\ Symbol.byte_offset b = 18%Z /\
    Symbol.id a = py "a-py::f" /\ Symbol.id b = py "a-py::f".
Proof.
  eexists _, _. split; [vm_compute; reflexivity |].
  vm_compute. repeat split.
Qed.

(** C3. A function whose body starts with the statement [x = 1] and has the
    string ['later'] as its second statement: the docstring of its Symbol
    is [later], taken from the second statement. *)
Lemma later_docstring :
  exists f,
    parse_file ascii_only later_tree later_src (py "a.py") (py "python")
      = Ok [f] /\
    Symbol.name f = py "f" /\
    Symbol.docstring f = py "later".
Proof.
  eexists. split; [vm_compute; reflexivity |].
  vm_compute. repeat split.
Qed.

(** C4. The comment line [//! Text] is cleaned to [! Text]: the branch for
    [//] comes first and removes two characters only.  So the Rust function
    under that comment has the docstring [! Text]. *)
Lemma bang_docstring :
  _clean_comment_markers (py "//! Text") = py "! Text" /\
  exists f,
    parse_file ascii_only bang_tree bang_src (py "a.rs") (py "rust")
      = Ok [f] /\
    Symbol.name f = py "f" /\
    Symbol.docstring f = py "! Text".
Proof.
  split; [vm_compute; reflexivity |].
  eexists. split; [vm_compute; reflexivity |].
  vm_compute. repeat split.
Qed.


End Examples.

(** * What one call of the extraction functions returns *)

Lemma str_eqb_eq (a b : str) : str_eqb a b = true <-> a = b.
Proof. unfold str_eqb. apply bool_decide_eq_true. Qed.

Lemma str_eqb_neq (a b : str) : str_eqb a b = false <-> a <> b.
Proof. unfold str_eqb. apply bool_decide_eq_false. Qed.

Lemma dict_get_In {V} (d : dict V) k v : dict_get d k = Some v -> In (k, v) d.
Proof.
  induction d as [|[k' v'] d IH]; simpl; [discriminate |].
  destruct (str_eqb k k') eqn:E.
  - apply str_eqb_eq in E as ->. intros H. inversion H. by left.
  - intros H. right. by apply IH.
Qed.

Lemma registry_spec language spec :
  dict_get LANGUAGE_REGISTRY language = Some spec ->
  (language = py "python" /\ spec = PYTHON_SPEC)
  \/ (language = py "javascript" /\ spec = JAVASCRIPT_SPEC)
  \/ (language = py "typescript" /\ spec = TYPESCRIPT_SPEC)
  \/ (language = py "go" /\ spec = GO_SPEC)
  \/ (language = py "rust" /\ spec = RUST_SPEC)
  \/ (language = py "java" /\ spec = JAVA_SPEC).
Proof.
  unfold LANGUAGE_REGISTRY. cbn [dict_get].
  repeat match goal with
  | |- context [str_eqb language ?k] =>
    let E := fresh "E" in
    destruct (str_eqb language k) eqn:E;
      [ apply str_eqb_eq in E; intros H; inversion H; subst; tauto | ]
  end.
  discriminate.
Qed.

Lemma registry_table_ok language spec :
  dict_get LANGUAGE_REGISTRY language = Some spec -> table_ok spec = true.
Proof.
  intros H. apply registry_spec in H.
  destruct H as [[_ ->]|[[_ ->]|[[_ ->]|[[_ ->]|[[_ ->]|[_ ->]]]]]];
    vm_compute; reflexivity.
Qed.

Lemma _extract_symbol_Some prevs n spec source_bytes filename language p s :
  _extract_symbol prevs n spec source_bytes filename language p
    = Ok (Some s) ->
  exists kind name,
    dict_get (symbol_node_types spec) (Node.type n) = Some kind /\
    Node.has_error n = false /\
    _extract_name n spec source_bytes = Ok (Some name) /\
    name <> [] /\
    Symbol.name s = name /\
    Symbol.parent s = option_map Symbol.id p /\
    Symbol.qualified_name s =
      match p with
      | Some q => Symbol.name q ++ py "." ++ name
      | None => name
      end /\
    Symbol.kind s =
      match p with
      | Some _ => if str_eqb kind (py "function") then py "method" else kind
      | None => kind
      end /\
    Symbol.id s = make_symbol_id filename (Symbol.qualified_name s).
Proof.
  unfold _extract_symbol.
  destruct (dict_get _ _) as [kind|]; [| discriminate].
  destruct (Node.has_error n); [discriminate |].
  intros H. apply bind_Ok in H as (oname & Hname & H).
  destruct oname as [[|c name]|]; try discriminate.
  exists kind, (c :: name).
  destruct p as [q|]; simpl in H.
  all: apply bind_Ok in H as (sig & _ & H).
  all: apply bind_Ok in H as (doc & _ & H).
  all: apply bind_Ok in H as (decs & _ & H).
  all: inversion H; subst; clear H; simpl.
  all: repeat split; auto; discriminate.
Qed.

Lemma _extract_constant_Some ucd_case n spec source_bytes filename language s :
  _extract_constant ucd_case n spec source_bytes filename language
    = Ok (Some s) ->
  Node.type n = py "assignment" /\
  Symbol.kind s = py "constant" /\
  Symbol.parent s = None /\
  Symbol.qualified_name s = Symbol.name s /\
  Symbol.id s = make_symbol_id filename (Symbol.name s).
Proof.
  unfold _extract_constant.
  destruct (str_eqb (Node.type n) _) eqn:E; [| discriminate].
  apply str_eqb_eq in E.
  destruct (Node.child_by_field_name _ _) as [l|]; [| discriminate].
  destruct (str_eqb _ _); [| discriminate].
  intros H. apply bind_Ok in H as (name & _ & H).
  destruct (constant_name _ _); [| discriminate].
  apply bind_Ok in H as (text & _ & H).
  inversion H; subst; clear H. simpl. auto.
Qed.

(** The qualified name of a Symbol with an enclosing symbol is built from
    the short name of that symbol. *)
Lemma qualified_name_of_child prevs n spec source_bytes filename language p s :
  _extract_symbol prevs n spec source_bytes filename language (Some p)
    = Ok (Some s) ->
  Symbol.parent s = Some (Symbol.id p) /\
  Symbol.qualified_name s = Symbol.name p ++ py "." ++ Symbol.name s.
Proof.
  intros H. apply _extract_symbol_Some in H
    as (kind & name & _ & _ & _ & _ & Hname & Hpar & Hq & _).
  rewrite Hname. split; [exact Hpar | exact Hq].
Qed.

(** For one file, two identifiers are equal exactly when the qualified
    names are. *)
Lemma make_symbol_id_inj file_path q1 q2 :
  make_symbol_id file_path q1 = make_symbol_id file_path q2 <-> q1 = q2.
Proof.
  unfold make_symbol_id. split; [| by intros ->].
  intros H. apply app_inv_head in H. by apply app_inv_head in H.
Qed.

(** A symbol node marked as containing an error: the first step of the
    walk appends nothing and keeps the enclosing symbol. *)
Lemma walk_symbol_error prevs n spec source_bytes filename language symbols p :
  Node.has_error n = true ->
  walk_symbol prevs n spec source_bytes filename language symbols p
    = Ok (symbols, p).
Proof.
  intros Herr. unfold walk_symbol, dict_mem, _extract_symbol.
  destruct (dict_get _ _); [| reflexivity].
  by rewrite Herr.
Qed.

(** * Claims about the walker *)

Section WalkerClaims.
Variable ucd_case : codepoint -> Case.

Lemma parse_file_sound root source_bytes filename language spec syms :
  dict_get LANGUAGE_REGISTRY language = Some spec ->
  parse_file ucd_case root source_bytes filename language = Ok syms ->
  Forall (fun s => exists n,
            emitted ucd_case spec source_bytes filename language root n s)
         syms.
Proof.
  unfold parse_file. intros -> H.
  eapply walk_sound in H as (new & -> & Hnew); [exact Hnew | constructor].
Qed.

(** C6. Kind promotion.  Every Symbol [s] of the result of [parse_file]
    was emitted for a node of the tree; and whenever [s] was emitted for a
    node [n] whose type the table [symbol_node_types] maps to [kind]: if
    the parent field of [s] is set and [kind] is [function], then [s] has
    kind [method] (so not [function]); if the parent field is [None], [s]
    has kind [kind]. *)
Theorem kind_promotion root source_bytes filename language spec syms :
  dict_get LANGUAGE_REGISTRY language = Some spec ->
  parse_file ucd_case root source_bytes filename language = Ok syms ->
  forall s, In s syms ->
    (exists n, emitted ucd_case spec source_bytes filename language root n s)
    /\ forall n kind,
        emitted ucd_case spec source_bytes filename language root n s ->
        dict_get (symbol_node_types spec) (Node.type n) = Some kind ->
        (Symbol.parent s <> None -> kind = py "function" ->
           Symbol.kind s = py "method" /\ Symbol.kind s <> py "function")
        /\ (Symbol.parent s = None -> Symbol.kind s = kind).
Proof.
  intros Hreg Hparse s Hs.
  split.
  { pose proof (parse_file_sound _ _ _ _ _ _ Hreg Hparse) as Hall.
    rewrite List.Forall_forall in Hall. by apply Hall. }
  intros n kind Hem Hkind.
  destruct Hem as [prevs p n s _ _ Hx | prevs n s _ _ Hc].
  - apply _extract_symbol_Some in Hx
      as (kind' & name & Hk & _ & _ & _ & _ & Hpar & _ & Hkd & _).
    rewrite Hkind in Hk. inversion Hk; subst kind'; clear Hk.
    rewrite Hpar, Hkd. destruct p as [q|]; simpl.
    + split; [| discriminate]. intros _ ->. vm_compute. split; [reflexivity | discriminate].
    + split; [| reflexivity]. intros H. by destruct H.
  - apply _extract_constant_Some in Hc as (Hty & _).
    apply registry_table_ok in Hreg. unfold table_ok in Hreg.
    apply andb_true_iff in Hreg as [_ Hreg].
    unfold dict_mem in Hreg. rewrite <- Hty, Hkind in Hreg. discriminate.
Qed.

Lemma emitted_constant_kind spec source_bytes filename language root n s :
  table_ok spec = true ->
  emitted ucd_case spec source_bytes filename language root n s ->
  Symbol.kind s = py "constant" ->
  Node.type n = py "assignment" /\
  list_mem (constant_patterns spec) (py "assignment") = true.
Proof.
  intros Hok Hem Hkind.
  destruct Hem as [prevs p n s _ _ Hx | prevs n s _ Hmem Hc].
  - exfalso.
    apply _extract_symbol_Some in Hx
      as (kind & name & Hk & _ & _ & _ & _ & _ & _ & Hkd & _).
    unfold table_ok in Hok. apply andb_true_iff in Hok as [Hok _].
    rewrite forallb_forall in Hok.
    apply dict_get_In, Hok in Hk. simpl in Hk.
    apply negb_true_iff, str_eqb_neq in Hk.
    rewrite Hkd in Hkind. destruct p as [q|]; [| by apply Hk].
    destruct (str_eqb kind _); [discriminate Hkind | by apply Hk].
  - apply _extract_constant_Some in Hc as (Hty & _).
    split; [exact Hty |]. by rewrite <- Hty.
Qed.

(** C10. In the result of [parse_file], a Symbol of kind [constant] was
    emitted for a node of type [assignment], and for such nodes only.  So
    when the [constant_patterns] of a language do not list [assignment], the
    result has no Symbol of kind [constant]; this is the case of javascript,
    typescript, go, rust and java. *)
Theorem constant_only_for_assignment root source_bytes filename language spec
    syms :
  dict_get LANGUAGE_REGISTRY language = Some spec ->
  parse_file ucd_case root source_bytes filename language = Ok syms ->
  (forall s, In s syms -> Symbol.kind s = py "constant" ->
     (exists n,
        emitted ucd_case spec source_bytes filename language root n s)
     /\ forall n,
          emitted ucd_case spec source_bytes filename language root n s ->
          Node.type n = py "assignment")
  /\ (list_mem (constant_patterns spec) (py "assignment") = false ->
      forall s, In s syms -> Symbol.kind s <> py "constant")
  /\ (In language [py "javascript"; py "typescript"; py "go"; py "rust";
                   py "java"] ->
      list_mem (constant_patterns spec) (py "assignment") = false).
Proof.
  intros Hreg Hparse.
  pose proof (registry_table_ok _ _ Hreg) as Hok.
  pose proof (parse_file_sound _ _ _ _ _ _ Hreg Hparse) as Hall.
  rewrite List.Forall_forall in Hall.
  split; [| split].
  - intros s Hs Hkind. split; [by apply Hall |].
    intros n Hem.
    by destruct (emitted_constant_kind _ _ _ _ _ _ _ Hok Hem Hkind).
  - intros Hno s Hs Hkind.
    destruct (Hall s Hs) as [n Hem].
    destruct (emitted_constant_kind _ _ _ _ _ _ _ Hok Hem Hkind) as [_ H].
    congruence.
  - intros Hlang. apply registry_spec in Hreg.
    destruct Hreg as [[-> ->]|[[-> ->]|[[-> ->]|[[-> ->]|[[-> ->]|[-> ->]]]]]];
      try (vm_compute; reflexivity).
    exfalso. simpl in Hlang.
    repeat (destruct Hlang as [Hlang | Hlang]; [vm_compute in Hlang; discriminate Hlang |]).
    exact Hlang.
Qed.

End WalkerClaims.

(** C6, at the class in a class with a method. *)
Lemma kind_promotion_witness :
  dict_get LANGUAGE_REGISTRY (py "python") = Some PYTHON_SPEC /\
  parse_file ascii_only Inputs.nested_tree Inputs.nested_src (py "a.py")
    (py "python") = Ok Inputs.nested_symbols /\
  forall s, In s Inputs.nested_symbols ->
    (exists n, emitted ascii_only PYTHON_SPEC Inputs.nested_src (py "a.py")
                 (py "python") Inputs.nested_tree n s)
    /\ forall n kind,
        emitted ascii_only PYTHON_SPEC Inputs.nested_src (py "a.py")
          (py "python") Inputs.nested_tree n s ->
        dict_get (symbol_node_types PYTHON_SPEC) (Node.type n) = Some kind ->
        (Symbol.parent s <> None -> kind = py "function" ->
           Symbol.kind s = py "method" /\ Symbol.kind s <> py "function")
        /\ (Symbol.parent s = None -> Symbol.kind s = kind).
Proof.
  split; [reflexivity |]. split; [vm_compute; reflexivity |].
  apply (kind_promotion ascii_only Inputs.nested_tree Inputs.nested_src
           (py "a.py") (py "python") PYTHON_SPEC Inputs.nested_symbols).
  - reflexivity.
  - vm_compute; reflexivity.
Defined.

(** C10, at the Rust function under a comment. *)
Lemma constant_only_for_assignment_witness :
  dict_get LANGUAGE_REGISTRY (py "rust") = Some RUST_SPEC /\
  parse_file ascii_only Inputs.bang_tree Inputs.bang_src (py "a.rs")
    (py "rust") = Ok Inputs.bang_symbols /\
  forall s, In s Inputs.bang_symbols -> Symbol.kind s <> py "constant".
Proof.
  split; [reflexivity |]. split; [vm_compute; reflexivity |].
  destruct (constant_only_for_assignment ascii_only Inputs.bang_tree
              Inputs.bang_src (py "a.rs") (py "rust") RUST_SPEC
              Inputs.bang_symbols) as (_ & Hno & Hlang).
  - reflexivity.
  - vm_compute; reflexivity.
  - apply Hno, Hlang. vm_compute. tauto.
Defined.

(** * Decoding failures *)

Lemma _extract_name_eq node spec source_bytes :
  _extract_name node spec source_bytes =
  match name_node node spec with
  | Some nn => name ← node_text source_bytes nn; Ok (Some name)
  | None => Ok None
  end.
Proof.
  unfold _extract_name, name_node.
  destruct (str_eqb _ _); [reflexivity |].
  destruct (str_eqb _ _).
  - induction (Node.children node) as [|c cs IH]; [reflexivity |].
    cbn [type_spec_name type_spec_name_node].
    destruct (str_eqb _ _); [| exact IH].
    destruct (Node.child_by_field_name _ _); [reflexivity | exact IH].
  - destruct (dict_get _ _); reflexivity.
Qed.






Section DecodingClaims.
Variable ucd_case : codepoint -> Case.



End DecodingClaims.


(** * Constants *)

Section ConstantClaims.
Variable ucd_case : codepoint -> Case.

Lemma isupper_loop_eq cased s :
  isupper_loop ucd_case cased s =
  (cased || existsb (upper_case_letter ucd_case) s)
  && forallb (fun c => negb (other_case_letter ucd_case c)) s.
Proof.
  revert cased. induction s as [|c s IH]; intros cased; simpl.
  - by rewrite orb_false_r, andb_true_r.
  - unfold other_case_letter at 1, Py_UNICODE_ISLOWER, Py_UNICODE_ISTITLE.
    destruct (_ || _); simpl; [by rewrite andb_false_r |].
    rewrite IH. unfold Py_UNICODE_ISUPPER, upper_case_letter at 2.
    by rewrite orb_assoc.
Qed.

Lemma isupper_entirely_upper_case name :
  isupper ucd_case name = entirely_upper_case ucd_case name.
Proof.
  unfold isupper, entirely_upper_case.
  destruct name as [|c [|d name]].
  - reflexivity.
  - simpl. unfold Py_UNICODE_ISUPPER, upper_case_letter, other_case_letter.
    destruct (char_case ucd_case c); reflexivity.
  - by rewrite isupper_loop_eq.
Qed.

Lemma underscore_not_upper : upper_case_letter ucd_case 95 = false.
Proof. reflexivity. Qed.

(** The test of [_extract_constant] is the naming rule of the
    specification. *)
Lemma constant_name_accepted name :
  constant_name ucd_case name = accepted_as_constant ucd_case name.
Proof.
  unfold constant_name, accepted_as_constant.
  rewrite isupper_entirely_upper_case.
  destruct (entirely_upper_case ucd_case name) eqn:Hup; [reflexivity |].
  simpl. unfold mem_cp.
  destruct name as [|c name]; [reflexivity |].
  change (Py_UNICODE_ISUPPER ucd_case c) with (upper_case_letter ucd_case c).
  unfold begins_with_upper_case, contains_underscore.
  destruct (upper_case_letter ucd_case c) eqn:Hc;
    [| by rewrite !andb_false_r].
  destruct (existsb (N.eqb 95) (c :: name)) eqn:Hu;
    [| by rewrite !andb_false_r].
  rewrite !andb_true_r.
  assert (Nat.ltb 1 (length (c :: name)) = true) as ->.
  { destruct name as [|d name]; [| reflexivity].
    cbn [existsb] in Hu. rewrite orb_false_r in Hu.
    apply N.eqb_eq in Hu. subst c.
    rewrite underscore_not_upper in Hc. discriminate Hc. }
  unfold mixed_case, entirely_upper_case in *.
  cbn [existsb] in *. rewrite Hc in *. simpl in *.
  symmetry. rewrite <- negb_false_iff.
  rewrite <- Hup. clear.
  destruct (other_case_letter ucd_case c); simpl; [reflexivity |].
  induction name as [|d name IH]; [reflexivity |].
  simpl. rewrite negb_orb, IH. reflexivity.
Qed.

Lemma _extract_constant_assignment node spec source_bytes filename language
    left_ name text :
  Node.type node = py "assignment" ->
  Node.child_by_field_name node (py "left") = Some left_ ->
  Node.type left_ = py "identifier" ->
  node_text source_bytes left_ = Ok name ->
  node_text source_bytes node = Ok text ->
  _extract_constant ucd_case node spec source_bytes filename language =
  Ok (if accepted_as_constant ucd_case name
      then Some (constant_symbol node filename language name text)
      else None).
Proof.
  intros Hty Hleft Hlty Hname Htext.
  unfold _extract_constant. rewrite Hty, Hleft, Hlty.
  replace (str_eqb (py "assignment") (py "assignment")) with true
    by reflexivity.
  replace (str_eqb (py "identifier") (py "identifier")) with true
    by reflexivity.
  rewrite Hname. cbn [mbind result_bind].
  rewrite constant_name_accepted.
  destruct (accepted_as_constant ucd_case name); [| reflexivity].
  rewrite Htext. reflexivity.
Qed.

(** What the walk appends for a Python assignment itself *)
Lemma python_assignment_own prevs node source_bytes filename language left_
    name text p :
  Node.type node = py "assignment" ->
  Node.child_by_field_name node (py "left") = Some left_ ->
  Node.type left_ = py "identifier" ->
  node_text source_bytes left_ = Ok name ->
  node_text source_bytes node = Ok text ->
  own_symbols ucd_case PYTHON_SPEC source_bytes filename language prevs node p
  = Ok (match p with
        | None =>
          if accepted_as_constant ucd_case name
          then [constant_symbol node filename language name text]
          else []
        | Some _ => []
        end, p).
Proof.
  intros Hty Hleft Hlty Hname Htext.
  unfold own_symbols, walk_symbol, walk_constant. rewrite Hty.
  replace (dict_mem (symbol_node_types PYTHON_SPEC) (py "assignment"))
    with false by reflexivity.
  cbn [mbind result_bind]. destruct p as [q|]; [reflexivity |].
  replace (list_mem (constant_patterns PYTHON_SPEC) (py "assignment"))
    with true by reflexivity.
  rewrite (_extract_constant_assignment _ _ _ _ _ _ _ _
             Hty Hleft Hlty Hname Htext).
  by destruct (accepted_as_constant ucd_case name).
Qed.

(** C5. A Python node of type [assignment] whose [left] child is an
    [identifier] with the text [name], the text of the node being [text].
    With no enclosing symbol, the walk appends, for this node itself, one
    Symbol of kind [constant], without parent, whose signature is the first
    100 characters of the text (the text has its surrounding white space
    removed before, if it has any), exactly when [name] is entirely
    upper-case, or mixed case beginning with an upper-case letter and
    containing an underscore; otherwise it appends nothing, and with an
    enclosing symbol it appends nothing.  When [parse_file] reaches the
    node with no enclosing symbol and the name is accepted, that Symbol is
    in its result. *)
Theorem python_constant prevs node source_bytes filename language left_ name
    text :
  Node.type node = py "assignment" ->
  Node.child_by_field_name node (py "left") = Some left_ ->
  Node.type left_ = py "identifier" ->
  node_text source_bytes left_ = Ok name ->
  node_text source_bytes node = Ok text ->
  (exists own,
     (forall symbols,
        _walk_tree ucd_case prevs node PYTHON_SPEC source_bytes filename
          language symbols None =
        walk_children ucd_case PYTHON_SPEC source_bytes filename language []
          (Node.children node) (symbols ++ own) None)
     /\ (accepted_as_constant ucd_case name = true <->
         exists c, own = [c]
           /\ Symbol.kind c = py "constant"
           /\ Symbol.name c = name
           /\ Symbol.parent c = None
           /\ Symbol.signature c = slice_to 100 (strip text)
           /\ (strip text = text -> Symbol.signature c = slice_to 100 text))
     /\ (accepted_as_constant ucd_case name = false <-> own = []))
  /\ (forall p symbols,
        _walk_tree ucd_case prevs node PYTHON_SPEC source_bytes filename
          language symbols (Some p) =
        walk_children ucd_case PYTHON_SPEC source_bytes filename language []
          (Node.children node) symbols (Some p))
  /\ (forall root syms,
        language = py "python" ->
        visited ucd_case PYTHON_SPEC source_bytes filename language root
          prevs None node ->
        parse_file ucd_case root source_bytes filename language = Ok syms ->
        accepted_as_constant ucd_case name = true ->
        exists c, In c syms
          /\ Symbol.kind c = py "constant"
          /\ Symbol.name c = name
          /\ Symbol.parent c = None
          /\ Symbol.signature c = slice_to 100 (strip text)).
Proof.
  intros Hty Hleft Hlty Hname Htext.
  pose proof (fun p => python_assignment_own prevs node source_bytes filename
                         language left_ name text p Hty Hleft Hlty Hname Htext)
    as Hown.
  split; [| split].
  - exists (if accepted_as_constant ucd_case name
            then [constant_symbol node filename language name text]
            else []).
    split; [| split].
    + intros symbols. by rewrite _walk_tree_own, (Hown None).
    + destruct (accepted_as_constant ucd_case name); split.
      * intros _. eexists. split; [reflexivity |].
        cbn. repeat split. by intros ->.
      * reflexivity.
      * discriminate.
      * intros (c & Hc & _). discriminate Hc.
    + destruct (accepted_as_constant ucd_case name); split;
        try reflexivity; discriminate.
  - intros p symbols. rewrite _walk_tree_own, (Hown (Some p)).
    cbn [mbind result_bind]. by rewrite app_nil_r.
  - intros root syms -> Hv Hparse Hacc.
    unfold parse_file in Hparse.
    replace (dict_get LANGUAGE_REGISTRY (py "python"))
      with (Some PYTHON_SPEC) in Hparse by reflexivity.
    destruct (walk_complete _ _ _ _ _ _ _ _ _ Hv _ Hparse)
      as (symbols & out_n & rest & Hnode & ->).
    rewrite _walk_tree_own, (Hown None), Hacc in Hnode.
    cbn [mbind result_bind] in Hnode.
    apply walk_children_appends in Hnode as [new ->].
    exists (constant_symbol node filename (py "python") name text).
    split; [| cbn; repeat split].
    rewrite !in_app_iff. cbn. tauto.
Qed.

End ConstantClaims.

(** C5, at the assignment [MAX_SIZE = 100]. *)
Lemma python_constant_witness :
  Node.type Inputs.max_assignment = py "assignment"
  /\ Node.child_by_field_name Inputs.max_assignment (py "left")
     = Some Inputs.max_left
  /\ Node.type Inputs.max_left = py "identifier"
  /\ node_text Inputs.max_src Inputs.max_left = Ok (py "MAX_SIZE")
  /\ node_text Inputs.max_src Inputs.max_assignment
     = Ok (py "MAX_SIZE = 100")
  /\ exists c, In c Inputs.max_symbols
       /\ Symbol.kind c = py "constant"
       /\ Symbol.name c = py "MAX_SIZE"
       /\ Symbol.parent c = None
       /\ Symbol.signature c = slice_to 100 (strip (py "MAX_SIZE = 100")).
Proof.
  split; [reflexivity |]. split; [reflexivity |]. split; [reflexivity |].
  split; [vm_compute; reflexivity |]. split; [vm_compute; reflexivity |].
  destruct (python_constant ascii_only [] Inputs.max_assignment
              Inputs.max_src (py "a.py") (py "python") Inputs.max_left
              (py "MAX_SIZE") (py "MAX_SIZE = 100"))
    as (_ & _ & Hfile); try (vm_compute; reflexivity).
  apply (Hfile Inputs.max_tree Inputs.max_symbols);
    try (vm_compute; reflexivity).
  apply (visited_child _ _ _ _ _ _ [] None Inputs.max_statement [] None []
           Inputs.max_assignment []);
    [| vm_compute; reflexivity | reflexivity].
  apply (visited_child _ _ _ _ _ _ [] None Inputs.max_tree [] None []
           Inputs.max_statement []);
    [constructor | vm_compute; reflexivity | reflexivity].
Defined.

(** * The hierarchy builder *)

Section Flatten.
Implicit Types (heap : gmap (list N) SymbolNode.t) (nodes : list (list N)).

Lemma flatten_loop_result recurse heap depth nodes result :
  flatten_loop recurse heap depth nodes result =
  (out ← flatten_loop recurse heap depth nodes []; Some (result ++ out)).
Proof.
  revert result. induction nodes as [|r nodes IH]; intros result; simpl.
  - by rewrite app_nil_r.
  - destruct (heap !! r) as [node|]; simpl; [| reflexivity].
    destruct (recurse _) as [sub|]; simpl; [| reflexivity].
    rewrite IH. rewrite (IH (_ :: sub)).
    destruct (flatten_loop recurse heap depth nodes []) as [out|]; simpl;
      [| reflexivity].
    by rewrite <- !app_assoc.
Qed.

Lemma flatten_tree_nil fuel heap depth :
  flatten_tree (S fuel) heap [] depth = Some [].
Proof. reflexivity. Qed.

Lemma flatten_tree_cons fuel heap r nodes depth :
  flatten_tree (S fuel) heap (r :: nodes) depth =
  (node ← heap !! r;
   sub ← flatten_tree fuel heap (SymbolNode.children node) (S depth);
   rest ← flatten_tree (S fuel) heap nodes depth;
   Some ((SymbolNode.symbol node, depth) :: sub ++ rest)).
Proof.
  cbn [flatten_tree flatten_loop].
  destruct (heap !! r) as [node|]; cbn [mbind option_bind]; [| reflexivity].
  destruct (flatten_tree fuel heap _ _) as [sub|]; cbn [mbind option_bind]; [| reflexivity].
  by rewrite flatten_loop_result.
Qed.

Lemma flatten_tree_app fuel heap nodes1 nodes2 depth :
  flatten_tree (S fuel) heap (nodes1 ++ nodes2) depth =
  (out1 ← flatten_tree (S fuel) heap nodes1 depth;
   out2 ← flatten_tree (S fuel) heap nodes2 depth;
   Some (out1 ++ out2)).
Proof.
  induction nodes1 as [|r nodes1 IH].
  - change ([] ++ nodes2) with nodes2.
    rewrite (flatten_tree_nil fuel heap depth).
    destruct (flatten_tree (S fuel) heap nodes2 depth); reflexivity.
  - rewrite <- app_comm_cons, !flatten_tree_cons.
    destruct (heap !! r) as [node|]; cbn [mbind option_bind]; [| reflexivity].
    destruct (flatten_tree fuel heap _ _) as [sub|]; cbn [mbind option_bind]; [| reflexivity].
    rewrite IH.
    destruct (flatten_tree (S fuel) heap nodes1 depth) as [out1|]; cbn [mbind option_bind];
      [| reflexivity].
    destruct (flatten_tree (S fuel) heap nodes2 depth) as [out2|];
      cbn [mbind option_bind]; [| reflexivity].
    by rewrite <- app_comm_cons, <- app_assoc.
Qed.

(** More fuel, or a store with more objects, does not change a result. *)
Lemma flatten_tree_more fuel :
  forall heap heap' nodes depth out,
    heap ⊆ heap' ->
    flatten_tree fuel heap nodes depth = Some out ->
    flatten_tree (S fuel) heap' nodes depth = Some out
    /\ flatten_tree fuel heap' nodes depth = Some out.
Proof.
  induction fuel as [|fuel IH]; intros heap heap' nodes depth out Hsub;
    [discriminate |].
  revert out. induction nodes as [|r nodes IHn]; intros out H.
  - rewrite flatten_tree_nil in H. by rewrite !flatten_tree_nil.
  - rewrite flatten_tree_cons in H. rewrite !flatten_tree_cons.
    destruct (heap !! r) as [node|] eqn:Hr; [| discriminate].
    rewrite (lookup_weaken _ _ _ _ Hr Hsub). cbn [mbind option_bind] in *.
    destruct (flatten_tree fuel heap _ _) as [sub|] eqn:Hsub';
      [| discriminate].
    destruct (IH _ _ _ _ _ Hsub Hsub') as [-> ->]. cbn [mbind option_bind] in *.
    destruct (flatten_tree (S fuel) heap nodes depth) as [rest|] eqn:Hrest;
      [| discriminate].
    destruct (IHn _ eq_refl) as [-> ->]. cbn [mbind option_bind] in *. by split.
Qed.

Lemma ids_of_app out1 out2 : ids_of (out1 ++ out2) = ids_of out1 ++ ids_of out2.
Proof. unfold ids_of. apply map_app. Qed.

(** A new leaf [sid] under [p]: the flattened list gets one more entry,
    after the entry of [p], one level deeper. *)
Lemma flatten_tree_add_leaf heap heap' p sid s :
  heap !! sid = None ->
  heap' !! sid = Some (SymbolNode.mk s []) ->
  (forall k, k <> sid ->
     heap' !! k = with_last_child p sid k <$> heap !! k) ->
  (forall k n, heap !! k = Some n -> Symbol.id (SymbolNode.symbol n) = k) ->
  forall fuel nodes depth out,
    flatten_tree fuel heap nodes depth = Some out ->
    NoDup (ids_of out) ->
    (In p (ids_of out) ->
       exists l1 l2 q dp,
         out = l1 ++ l2 /\ In (q, dp) l1 /\ Symbol.id q = p /\
         flatten_tree (S fuel) heap' nodes depth
           = Some (l1 ++ (s, S dp) :: l2))
    /\ (~ In p (ids_of out) ->
        flatten_tree (S fuel) heap' nodes depth = Some out).
Proof.
  intros Hsid Hsid' Hother Hkey.
  induction fuel as [|fuel IH]; intros nodes depth out; [discriminate |].
  revert out. induction nodes as [|r nodes IHn]; intros out H Hnd.
  { rewrite flatten_tree_nil in H. inversion H; subst.
    split; [intros [] | intros _; apply flatten_tree_nil]. }
  rewrite flatten_tree_cons in H.
  destruct (heap !! r) as [node|] eqn:Hr; [| discriminate].
  cbn [mbind option_bind] in H.
  destruct (flatten_tree fuel heap _ _) as [sub|] eqn:Hsub; [| discriminate].
  cbn [mbind option_bind] in H.
  destruct (flatten_tree (S fuel) heap nodes depth) as [rest|] eqn:Hrest;
    [| discriminate].
  cbn [mbind option_bind] in H. inversion H; subst out; clear H.
  assert (r <> sid) as Hrs by (intros ->; congruence).
  pose proof (Hkey _ _ Hr) as Hid.
  change (ids_of ((SymbolNode.symbol node, depth) :: sub ++ rest))
    with (Symbol.id (SymbolNode.symbol node) :: ids_of (sub ++ rest)) in *.
  rewrite ids_of_app in *. rewrite Hid in *. clear Hid.
  apply NoDup_cons in Hnd as [Hr_notin Hnd].
  apply NoDup_app in Hnd as (Hnd_sub & Hdisj & Hnd_rest).
  rewrite list_elem_of_In, in_app_iff in Hr_notin.
  setoid_rewrite list_elem_of_In in Hdisj.
  destruct (IH _ _ _ Hsub Hnd_sub) as [IHsub_in IHsub_out].
  destruct (IHn _ eq_refl Hnd_rest) as [IHrest_in IHrest_out].
  rewrite (flatten_tree_cons (S fuel)), (Hother r Hrs), Hr.
  cbn [fmap option_fmap option_map mbind option_bind].
  unfold with_last_child. case_bool_decide as Hrp.
  - (* the parent itself *)
    subst r. cbn [SymbolNode.symbol SymbolNode.children].
    assert (~ In p (ids_of sub)) as Hps by tauto.
    assert (~ In p (ids_of rest)) as Hpr by tauto.
    assert (flatten_tree (S fuel) heap' (SymbolNode.children node ++ [sid])
              (S depth) = Some (sub ++ [(s, S depth)])) as ->.
    { rewrite flatten_tree_app, (IHsub_out Hps).
      cbn [mbind option_bind].
      rewrite flatten_tree_cons, Hsid'. cbn [mbind option_bind].
      destruct fuel as [|fuel']; [discriminate Hsub |].
      rewrite !flatten_tree_nil. reflexivity. }
    cbn [mbind option_bind]. rewrite (IHrest_out Hpr).
    cbn [mbind option_bind].
    split; [intros _ | intros Hn; exfalso; apply Hn; by left].
    exists ((SymbolNode.symbol node, depth) :: sub), rest,
           (SymbolNode.symbol node), depth.
    repeat split; [by left | by apply Hkey |].
    cbn [app]; by rewrite <- ?app_assoc.
  - cbn [SymbolNode.symbol SymbolNode.children].
    split.
    + intros [Heq | Hin]; [congruence |].
      apply in_app_iff in Hin as [Hin | Hin].
      * destruct (IHsub_in Hin) as (l1 & l2 & q & dp & -> & Hq & Hqid & ->).
        cbn [mbind option_bind].
        assert (~ In p (ids_of rest)) as Hpr.
        { intros Hp. eapply Hdisj; eauto. }
        rewrite (IHrest_out Hpr). cbn [mbind option_bind].
        exists ((SymbolNode.symbol node, depth) :: l1), (l2 ++ rest), q, dp.
        repeat split; [cbn [app]; by rewrite <- ?app_assoc | by right | exact Hqid |].
        cbn [app]; by rewrite <- ?app_assoc.
      * assert (~ In p (ids_of sub)) as Hps.
        { intros Hp. eapply Hdisj; eauto. }
        rewrite (IHsub_out Hps). cbn [mbind option_bind].
        destruct (IHrest_in Hin) as (l1 & l2 & q & dp & -> & Hq & Hqid & ->).
        cbn [mbind option_bind].
        exists ((SymbolNode.symbol node, depth) :: sub ++ l1), l2, q, dp.
        repeat split;
          [cbn [app]; by rewrite <- ?app_assoc
          | right; apply in_app_iff; by right | exact Hqid |].
        cbn [app]; by rewrite <- ?app_assoc.
    + intros Hn.
      assert (~ In p (ids_of sub)) as Hps.
      { intros Hp. apply Hn. right. apply in_app_iff. by left. }
      assert (~ In p (ids_of rest)) as Hpr.
      { intros Hp. apply Hn. right. apply in_app_iff. by right. }
      rewrite (IHsub_out Hps). cbn [mbind option_bind].
      rewrite (IHrest_out Hpr). reflexivity.
Qed.

End Flatten.

Section Build.
Implicit Types (symbols : list Symbol.t) (heap : gmap (list N) SymbolNode.t).

Lemma same_id_same_symbol symbols a b :
  NoDup (map Symbol.id symbols) ->
  In a symbols -> In b symbols -> Symbol.id a = Symbol.id b -> a = b.
Proof.
  induction symbols as [|x symbols IH]; [intros _ [] |].
  cbn [map]. rewrite NoDup_cons, list_elem_of_In.
  intros [Hx Hnd] [-> | Ha] [-> | Hb] Hid; auto.
  - exfalso. apply Hx. rewrite Hid. by apply in_map.
  - exfalso. apply Hx. rewrite <- Hid. by apply in_map.
Qed.

Lemma foldl_node_map symbols :
  forall m0 : gmap (list N) SymbolNode.t,
    NoDup (map Symbol.id symbols) ->
    let m := foldl (fun m s => <[Symbol.id s := SymbolNode.mk s []]> m) m0
               symbols in
    (forall q, In q symbols -> m !! Symbol.id q = Some (SymbolNode.mk q []))
    /\ (forall k, ~ In k (map Symbol.id symbols) -> m !! k = m0 !! k).
Proof.
  induction symbols as [|s symbols IH]; intros m0 Hnd m; subst m;
    [by split |].
  cbn [map] in Hnd. apply NoDup_cons in Hnd as [Hs Hnd].
  rewrite list_elem_of_In in Hs.
  cbn [foldl]. destruct (IH (<[Symbol.id s := SymbolNode.mk s []]> m0) Hnd)
    as [Hin Hout].
  split.
  - intros q [Heq | Hq]; [subst q | by apply Hin].
    rewrite (Hout _ Hs). apply lookup_insert_eq.
  - intros k Hk. cbn [map] in Hk.
    rewrite Hout by (intros H; apply Hk; by right).
    apply lookup_insert_ne. intros <-. apply Hk. by left.
Qed.

Lemma children_of_cons symbols s k :
  children_of (s :: symbols) k =
  (if bool_decide (Symbol.parent s = Some k) && negb (bool_decide (k = []))
   then [s] else []) ++ children_of symbols k.
Proof.
  unfold children_of. cbn [List.filter].
  by destruct (_ && _).
Qed.

Lemma children_of_app symbols1 symbols2 k :
  children_of (symbols1 ++ symbols2) k =
  children_of symbols1 k ++ children_of symbols2 k.
Proof. unfold children_of. apply List.filter_app. Qed.

(** The loop of [build_symbol_tree], from any store that holds the parents *)
Lemma foldl_link symbols :
  forall heap0 roots0,
    (forall s c p, In s symbols -> Symbol.parent s = Some (c :: p) ->
                   is_Some (heap0 !! (c :: p))) ->
    exists heap,
      foldl link (heap0, roots0) symbols =
        (heap, roots0 ++ map Symbol.id (List.filter parentless symbols))
      /\ forall k,
          heap !! k =
          (fun n => SymbolNode.mk (SymbolNode.symbol n)
                      (SymbolNode.children n
                       ++ map Symbol.id (children_of symbols k)))
            <$> heap0 !! k.
Proof.
  induction symbols as [|s symbols IH]; intros heap0 roots0 Hres.
  { exists heap0. split; [by rewrite app_nil_r |].
    intros k. destruct (heap0 !! k) as [[sym ch]|]; cbn; [| reflexivity].
    by rewrite app_nil_r. }
  cbn [foldl List.filter]. unfold link at 2. unfold parentless at 1.
  destruct (Symbol.parent s) as [[|c p]|] eqn:Hpar.
  - (* the empty string *)
    destruct (IH heap0 (roots0 ++ [Symbol.id s])) as (heap & -> & Hheap).
    { intros; eapply Hres; eauto. by right. }
    exists heap. split; [cbn [map]; by rewrite <- app_assoc |].
    intros k. rewrite Hheap, children_of_cons, Hpar.
    destruct (bool_decide (Some [] = Some k)) eqn:E; [| reflexivity].
    apply bool_decide_eq_true in E. inversion E; subst.
    reflexivity.
  - destruct (Hres s c p) as [pn Hpn]; [by left | exact Hpar |].
    rewrite Hpn.
    destruct (IH (<[c :: p := SymbolNode.mk (SymbolNode.symbol pn)
                     (SymbolNode.children pn ++ [Symbol.id s])]> heap0)
                 roots0) as (heap & -> & Hheap).
    { intros s' c' p' Hs' Hp'.
      destruct (decide (c' :: p' = c :: p)) as [-> | Hne].
      - rewrite lookup_insert_eq. eauto.
      - rewrite lookup_insert_ne by congruence. eapply Hres; eauto.
        by right. }
    exists heap. split; [reflexivity |].
    intros k. rewrite Hheap, children_of_cons, Hpar.
    destruct (decide (k = c :: p)) as [-> | Hne].
    + rewrite lookup_insert_eq, Hpn.
      rewrite bool_decide_eq_true_2 by reflexivity.
      rewrite bool_decide_eq_false_2 by discriminate.
      cbn [fmap option_fmap option_map negb andb app map
           SymbolNode.symbol SymbolNode.children].
      by rewrite <- app_assoc.
    + rewrite lookup_insert_ne by congruence.
      rewrite bool_decide_eq_false_2 by congruence. reflexivity.
  - destruct (IH heap0 (roots0 ++ [Symbol.id s])) as (heap & -> & Hheap).
    { intros; eapply Hres; eauto. by right. }
    exists heap. split; [cbn [map]; by rewrite <- app_assoc |].
    intros k. rewrite Hheap, children_of_cons, Hpar.
    rewrite bool_decide_eq_false_2 by discriminate. reflexivity.
Qed.

Lemma parents_earlier_In symbols s p :
  parents_earlier symbols -> In s symbols -> Symbol.parent s = Some p ->
  exists q, In q symbols /\ Symbol.id q = p.
Proof.
  intros Hpe Hs Hp. apply list_elem_of_In, list_elem_of_lookup in Hs as [i Hi].
  destruct (Hpe i s p Hi Hp) as (j & q & _ & Hq & Hid).
  exists q. split; [| exact Hid].
  apply list_elem_of_In, list_elem_of_lookup. eauto.
Qed.

(** The tree that [build_symbol_tree] builds *)
Lemma build_symbol_tree_spec symbols :
  NoDup (map Symbol.id symbols) -> parents_earlier symbols ->
  exists heap,
    build_symbol_tree symbols =
      (heap, map Symbol.id (List.filter parentless symbols))
    /\ (forall q, In q symbols ->
          heap !! Symbol.id q =
          Some (SymbolNode.mk q (map Symbol.id
                                   (children_of symbols (Symbol.id q)))))
    /\ (forall k, ~ In k (map Symbol.id symbols) -> heap !! k = None).
Proof.
  intros Hnd Hpe. unfold build_symbol_tree.
  destruct (foldl_node_map symbols ∅ Hnd) as [Hin Hout].
  fold (node_map_of symbols) in Hin, Hout.
  destruct (foldl_link symbols (node_map_of symbols) []) as (heap & -> & Hheap).
  { intros s c p Hs Hp.
    destruct (parents_earlier_In _ _ _ Hpe Hs Hp) as (q & Hq & <-).
    rewrite (Hin q Hq). eauto. }
  exists heap. split; [reflexivity |]. split.
  - intros q Hq. by rewrite Hheap, (Hin q Hq).
  - intros k Hk. by rewrite Hheap, (Hout k Hk), lookup_empty.
Qed.

End Build.

Section Order.
Implicit Types (out : list (Symbol.t * nat)) (symbols : list Symbol.t).

Lemma emitted_before_sublist out a s :
  emitted_before out a s <-> [a; s] `sublist_of` map fst out.
Proof.
  unfold emitted_before. split.
  - intros (l1 & l2 & l3 & da & ds & ->).
    rewrite map_app. cbn [map]. rewrite map_app. cbn [map].
    apply sublist_inserts_l. apply sublist_skip.
    apply sublist_inserts_l. apply sublist_skip. apply sublist_nil_l.
  - intros H. apply sublist_cons_l in H as (k1 & k2 & Hk & H).
    apply sublist_cons_l in H as (k3 & k4 & -> & _).
    change (map fst out) with (fst <$> out) in Hk.
    apply fmap_app_inv in Hk as (l1 & r1 & _ & Hk & ->).
    destruct r1 as [|[a' da] r1]; [discriminate Hk |].
    cbn in Hk. inversion Hk as [[Ha Hk']]; subst a'. clear Hk.
    symmetry in Hk'.
    apply fmap_app_inv in Hk' as (l2 & r2 & _ & Hk & ->).
    destruct r2 as [|[s' ds] l3]; [discriminate Hk |].
    cbn in Hk. inversion Hk; subst s'.
    by exists l1, l2, l3, da, ds.
Qed.

Lemma emitted_before_insert (l1 l2 : list (Symbol.t * nat)) y a s :
  emitted_before (l1 ++ l2) a s -> emitted_before (l1 ++ y :: l2) a s.
Proof.
  rewrite !emitted_before_sublist, !map_app. cbn [map]. intros H.
  apply sublist_app_r in H as (k1 & k2 & -> & H1 & H2).
  apply sublist_app; [exact H1 |]. by apply sublist_cons.
Qed.

Lemma emitted_before_new (l1 l2 : list (Symbol.t * nat)) a s d :
  In a (map fst l1) -> emitted_before (l1 ++ (s, d) :: l2) a s.
Proof.
  rewrite emitted_before_sublist, map_app. cbn [map]. intros Ha.
  apply (sublist_app [a] (map fst l1) [s] (s :: map fst l2)).
  - apply list_elem_of_In in Ha. by apply singleton_sublist_l.
  - apply sublist_skip, sublist_nil_l.
Qed.

Lemma emitted_before_left (l1 l2 : list (Symbol.t * nat)) a q :
  NoDup (map fst (l1 ++ l2)) ->
  emitted_before (l1 ++ l2) a q -> In q (map fst l1) -> In a (map fst l1).
Proof.
  rewrite emitted_before_sublist, map_app. intros Hnd H Hq.
  apply NoDup_app in Hnd as (_ & Hdisj & _).
  apply sublist_app_r in H as (k1 & k2 & Hk & H1 & H2).
  destruct k1 as [|a' k1].
  - exfalso. cbn in Hk. subst k2.
    apply (Hdisj q); [by apply list_elem_of_In |].
    eapply elem_of_sublist; [| exact H2]. set_solver.
  - inversion Hk; subst a'. apply list_elem_of_In.
    eapply elem_of_sublist; [| exact H1]. set_solver.
Qed.

Lemma unique_entry out a da b db :
  NoDup (ids_of out) -> In (a, da) out -> In (b, db) out ->
  Symbol.id a = Symbol.id b -> (a, da) = (b, db).
Proof.
  induction out as [|x out IH]; [intros _ [] |].
  unfold ids_of. cbn [map]. fold (ids_of out).
  rewrite NoDup_cons, list_elem_of_In.
  intros [Hx Hnd] [-> | Ha] [Hb | Hb] Hid; auto.
  - exfalso. apply Hx. cbn. rewrite Hid.
    apply (in_map (fun x => Symbol.id (fst x)) _ _ Hb).
  - subst x. exfalso. apply Hx. cbn. rewrite <- Hid.
    apply (in_map (fun x => Symbol.id (fst x)) _ _ Ha).
Qed.

Lemma ancestor_In symbols a s : ancestor symbols a s -> In s symbols.
Proof. by intros []. Qed.

(** The ancestors of an earlier Symbol do not change when a Symbol is
    added at the end. *)
Lemma ancestor_prefix symbols s a x :
  NoDup (map Symbol.id (symbols ++ [s])) -> parents_earlier symbols ->
  ancestor (symbols ++ [s]) a x -> In x symbols -> ancestor symbols a x.
Proof.
  intros Hnd Hpe Hanc.
  assert (forall m y, In m (symbols ++ [s]) -> In y symbols ->
            Symbol.parent y = Some (Symbol.id m) -> In m symbols) as Hold.
  { intros m y Hm Hy Hp.
    destruct (parents_earlier_In _ _ _ Hpe Hy Hp) as (q & Hq & Hid).
    assert (m = q) as ->; [| exact Hq].
    eapply same_id_same_symbol; eauto.
    apply in_app_iff. by left. }
  induction Hanc as [a x Ha _ Hp Hne | a m x Hanc IH _ Hp Hne]; intros Hx.
  - apply ancestor_parent; eauto.
  - eapply ancestor_step; eauto.
    apply IH. eapply Hold; eauto. by eapply ancestor_In.
Qed.

End Order.

Section Outline.
Implicit Types (symbols : list Symbol.t).

Lemma parents_earlier_prefix symbols s :
  parents_earlier (symbols ++ [s]) -> parents_earlier symbols.
Proof.
  intros Hpe i x p Hi Hp.
  destruct (Hpe i x p) as (j & q & Hj & Hq & Hid); [| exact Hp |].
  { by apply lookup_app_l_Some. }
  exists j, q. repeat split; auto.
  rewrite lookup_app_l in Hq; [exact Hq |].
  apply lookup_lt_Some in Hi. lia.
Qed.

(** No parent field is the id of the last Symbol. *)
Lemma last_is_no_parent symbols s x :
  NoDup (map Symbol.id (symbols ++ [s])) -> parents_earlier (symbols ++ [s]) ->
  In x (symbols ++ [s]) -> Symbol.parent x <> Some (Symbol.id s).
Proof.
  intros Hnd Hpe Hx Hp.
  apply list_elem_of_In, list_elem_of_lookup in Hx as [i Hi].
  destruct (Hpe i x _ Hi Hp) as (j & q & Hj & Hq & Hid).
  pose proof (lookup_lt_Some _ _ _ Hi) as Hlen.
  rewrite length_app in Hlen. cbn in Hlen.
  assert ((symbols ++ [s]) !! length symbols = Some s) as Hs.
  { rewrite lookup_app_r by lia. by rewrite Nat.sub_diag. }
  assert (j = length symbols); [| lia].
  eapply (NoDup_lookup _ _ _ (Symbol.id s) Hnd).
  - change (map Symbol.id (symbols ++ [s])) with (Symbol.id <$> symbols ++ [s]).
    by rewrite list_lookup_fmap, Hq, <- Hid.
  - change (map Symbol.id (symbols ++ [s])) with (Symbol.id <$> symbols ++ [s]).
    by rewrite list_lookup_fmap, Hs.
Qed.

Lemma children_of_none symbols k :
  (forall x, In x symbols -> Symbol.parent x <> Some k) ->
  children_of symbols k = [].
Proof.
  induction symbols as [|x symbols IH]; intros H; [reflexivity |].
  rewrite children_of_cons, IH by (intros; apply H; by right).
  rewrite bool_decide_eq_false_2; [reflexivity |].
  apply H. by left.
Qed.

Lemma children_of_last s k :
  children_of [s] k =
  match Symbol.parent s with
  | Some (c :: p) => if bool_decide (k = c :: p) then [s] else []
  | _ => []
  end.
Proof.
  rewrite children_of_cons. cbn [children_of List.filter].
  rewrite app_nil_r.
  destruct (Symbol.parent s) as [[|c p]|].
  - case_bool_decide as E; [| reflexivity]. inversion E; subst.
    reflexivity.
  - repeat case_bool_decide; subst; try reflexivity; try congruence.
  - rewrite bool_decide_eq_false_2 by discriminate. reflexivity.
Qed.

Lemma ids_of_perm symbols (out : list (Symbol.t * nat)) :
  Permutation (map fst out) symbols ->
  Permutation (ids_of out) (map Symbol.id symbols).
Proof.
  intros H. unfold ids_of. rewrite <- (map_map fst Symbol.id).
  by apply Permutation_map.
Qed.

Lemma In_ids_dec (k : list N) symbols :
  In k (map Symbol.id symbols) \/ ~ In k (map Symbol.id symbols).
Proof.
  destruct (decide (k ∈ map Symbol.id symbols)) as [H | H];
    rewrite list_elem_of_In in H; auto.
Qed.

(** The flattened tree of a list, one Symbol after the other *)
Lemma outline_invariant symbols :
  NoDup (map Symbol.id symbols) -> parents_earlier symbols ->
  exists out,
    flatten_tree (S (length symbols)) (build_symbol_tree symbols).1
      (build_symbol_tree symbols).2 0 = Some out
    /\ outline_ok symbols out.
Proof.
  induction symbols as [|s symbols IH] using rev_ind; intros Hnd Hpe.
  { exists []. split; [reflexivity |].
    split; [constructor | split; [| split]].
    - intros x q d [].
    - intros x [].
    - intros a x Hanc. apply ancestor_In in Hanc. destruct Hanc. }
  pose proof Hnd as Hnd'. rewrite map_app in Hnd'.
  apply NoDup_app in Hnd' as (Hnd0 & Hfresh & _).
  pose proof (parents_earlier_prefix _ _ Hpe) as Hpe0.
  destruct (IH Hnd0 Hpe0) as (out & Hflat & Hperm & Hdepth & Hroot & Horder).
  destruct (build_symbol_tree_spec _ Hnd0 Hpe0) as (heap & Hb & Hin & Hout).
  destruct (build_symbol_tree_spec _ Hnd Hpe) as (heap' & Hb' & Hin' & Hout').
  rewrite Hb in Hflat. rewrite Hb'. cbn [fst snd] in *.
  rewrite length_app. cbn [length]. rewrite Nat.add_1_r.
  assert (~ In (Symbol.id s) (map Symbol.id symbols)) as Hs_new.
  { intros H. apply list_elem_of_In in H. apply (Hfresh _ H).
    apply list_elem_of_In. by left. }
  assert (In s (symbols ++ [s])) as Hs_in.
  { apply in_app_iff. right. by left. }
  assert (forall x, In x symbols -> In x (symbols ++ [s])) as Hold
    by (intros; apply in_app_iff; by left).
  pose proof (fun x => last_is_no_parent symbols s x Hnd Hpe) as Hnp.
  assert (heap' !! Symbol.id s = Some (SymbolNode.mk s [])) as Hs'.
  { rewrite (Hin' s Hs_in), children_of_none; [reflexivity |].
    intros x Hx. by apply Hnp. }
  assert (NoDup (ids_of out)) as Hnd_out.
  { by rewrite (ids_of_perm _ _ Hperm). }
  assert (NoDup (map fst out)) as Hnd_fst.
  { rewrite Hperm. eapply (NoDup_fmap_1 Symbol.id). exact Hnd0. }
  assert (forall a x, ancestor (symbols ++ [s]) a x -> In x symbols ->
            emitted_before out a x) as Horder'.
  { intros a x Hanc Hx. apply Horder. by eapply ancestor_prefix. }
  rewrite List.filter_app, map_app. cbn [List.filter].
  destruct (parentless s) eqn:Hpl.
  - (* a new root *)
    assert (forall k, children_of [s] k = []) as Hlast.
    { intros k. rewrite children_of_last. unfold parentless in Hpl.
      by destruct (Symbol.parent s) as [[|c p]|]. }
    assert (heap ⊆ heap') as Hsub.
    { apply map_subseteq_spec. intros k n Hk.
      destruct (In_ids_dec k symbols) as [Hk_in | Hk_out].
      - apply in_map_iff in Hk_in as (q & <- & Hq).
        rewrite (Hin q Hq) in Hk. rewrite (Hin' q (Hold q Hq)).
        by rewrite children_of_app, Hlast, app_nil_r.
      - rewrite (Hout k Hk_out) in Hk. discriminate Hk. }
    exists (out ++ [(s, 0%nat)]). split.
    + cbn [map]. rewrite flatten_tree_app.
      destruct (flatten_tree_more _ _ _ _ _ _ Hsub Hflat) as [-> _].
      cbn [mbind option_bind].
      rewrite flatten_tree_cons, Hs'. cbn [mbind option_bind].
      rewrite !flatten_tree_nil. reflexivity.
    + split; [| split; [| split]].
      * rewrite map_app. cbn [map]. by apply Permutation_app_tail.
      * intros x q d Hx Hq Hp Hne.
        apply in_app_iff. left.
        apply in_app_iff in Hq as [Hq | [Hq | []]].
        -- apply in_app_iff in Hx as [Hx | [<- | []]].
           ++ eapply Hdepth; eauto.
           ++ exfalso. unfold parentless in Hpl. rewrite Hp in Hpl.
              by destruct (Symbol.id q).
        -- inversion Hq; subst q d. exfalso. by eapply Hnp.
      * intros x Hx Hpx. apply in_app_iff.
        apply in_app_iff in Hx as [Hx | [<- | []]]; [left; by apply Hroot |].
        right. by left.
      * intros a x Hanc.
        assert (In x symbols) as Hx.
        { pose proof (ancestor_In _ _ _ Hanc) as Hx.
          apply in_app_iff in Hx as [Hx | [<- | []]]; [exact Hx |].
          exfalso. unfold parentless in Hpl.
          inversion Hanc as [a' x' _ _ Hp Hne | a' m x' _ _ Hp Hne]; subst;
            rewrite Hp in Hpl.
          - by destruct (Symbol.id a).
          - by destruct (Symbol.id m). }
        rewrite <- (app_nil_r out) in Horder'.
        rewrite <- (app_nil_r (out ++ _)), <- app_assoc. cbn [app].
        apply emitted_before_insert. by apply Horder'.
  - (* a new leaf *)
    rewrite app_nil_r.
    unfold parentless in Hpl.
    destruct (Symbol.parent s) as [[|c p]|] eqn:Hpar; try discriminate Hpl.
    destruct (parents_earlier_In _ _ _ Hpe Hs_in Hpar) as (q0 & Hq0 & Hid0).
    assert (In q0 symbols) as Hq0'.
    { apply in_app_iff in Hq0 as [Hq0 | [<- | []]]; [exact Hq0 |].
      exfalso. apply (Hnp s Hs_in). by rewrite Hpar, Hid0. }
    assert (In (c :: p) (ids_of out)) as Hp_out.
    { eapply Permutation_in; [symmetry; by apply ids_of_perm |].
      rewrite <- Hid0. by apply in_map. }
    assert (forall k, k <> Symbol.id s ->
              heap' !! k
              = with_last_child (c :: p) (Symbol.id s) k <$> heap !! k)
      as Hother.
    { intros k Hk.
      destruct (In_ids_dec k symbols) as [Hk_in | Hk_out].
      - apply in_map_iff in Hk_in as (q & <- & Hq).
        rewrite (Hin q Hq), (Hin' q (Hold q Hq)).
        rewrite children_of_app, children_of_last, Hpar.
        unfold with_last_child. cbn [fmap option_fmap option_map].
        case_bool_decide; cbn [SymbolNode.symbol SymbolNode.children].
        + by rewrite map_app.
        + by rewrite app_nil_r.
      - rewrite (Hout k Hk_out). apply Hout'.
        rewrite map_app, in_app_iff. cbn. intros [H | [H | []]]; auto. }
    assert (forall k n, heap !! k = Some n ->
              Symbol.id (SymbolNode.symbol n) = k) as Hkey.
    { intros k n Hk.
      destruct (In_ids_dec k symbols) as [Hk_in | Hk_out].
      - apply in_map_iff in Hk_in as (q & <- & Hq).
        rewrite (Hin q Hq) in Hk. by inversion Hk.
      - rewrite (Hout k Hk_out) in Hk. discriminate Hk. }
    destruct (flatten_tree_add_leaf heap heap' (c :: p) (Symbol.id s) s
                (Hout _ Hs_new) Hs' Hother Hkey _ _ _ _ Hflat Hnd_out)
      as [Hleaf _].
    destruct (Hleaf Hp_out) as (l1 & l2 & q & dp & -> & Hq & Hqid & Hflat').
    exists (l1 ++ (s, S dp) :: l2). split; [exact Hflat' |].
    assert (forall x d, In (x, d) (l1 ++ l2) ->
              In (x, d) (l1 ++ (s, S dp) :: l2)) as Hkeep.
    { intros x d. rewrite !in_app_iff. cbn. tauto. }
    assert (q = q0) as ->.
    { eapply (same_id_same_symbol symbols); eauto; [| congruence].
      eapply Permutation_in; [exact Hperm |].
      apply (in_map fst _ (q, dp)). apply in_app_iff. by left. }
    split; [| split; [| split]].
    + rewrite map_app. cbn [map]. rewrite map_app in Hperm.
      rewrite <- Permutation_middle, Hperm. apply Permutation_cons_append.
    + intros x y d Hx Hy Hp Hne.
      apply in_app_iff in Hx as [Hx | [<- | []]].
      * apply Hkeep. eapply Hdepth; eauto.
        apply in_app_iff in Hy as [Hy | [Hy | Hy]];
          [apply in_app_iff; by left | | apply in_app_iff; by right].
        inversion Hy; subst y d. exfalso. by eapply (Hnp x (Hold x Hx)).
      * assert ((y, d) = (q0, dp)) as E.
        { apply in_app_iff in Hy as [Hy | [Hy | Hy]].
          - eapply (unique_entry (l1 ++ l2)); eauto;
              [apply in_app_iff; by left | apply in_app_iff; by left |].
            rewrite Hpar in Hp. inversion Hp. congruence.
          - inversion Hy; subst y d. exfalso. by eapply (Hnp s Hs_in).
          - eapply (unique_entry (l1 ++ l2)); eauto;
              [apply in_app_iff; by right | apply in_app_iff; by left |].
            rewrite Hpar in Hp. inversion Hp. congruence. }
        inversion E; subst y d. apply in_app_iff. right. by left.
    + intros x Hx Hpx.
      apply in_app_iff in Hx as [Hx | [<- | []]].
      * apply Hkeep. by apply Hroot.
      * exfalso. unfold parentless in Hpx. by rewrite Hpar in Hpx.
    + intros a x Hanc.
      pose proof (ancestor_In _ _ _ Hanc) as Hx.
      apply in_app_iff in Hx as [Hx | [<- | []]].
      * apply emitted_before_insert. by apply Horder'.
      * apply emitted_before_new.
        assert (In q0 (map fst l1)) as Hq1
          by (apply (in_map fst _ (q0, dp)); exact Hq).
        inversion Hanc as [a' x' Ha _ Hp Hne | a' m x' Hanc' _ Hp Hne]; subst.
        -- assert (a = q0) as ->; [| exact Hq1].
           eapply (same_id_same_symbol (symbols ++ [s])); eauto.
           rewrite Hpar in Hp. inversion Hp. congruence.
        -- assert (m = q0) as ->.
           { eapply (same_id_same_symbol (symbols ++ [s])); eauto.
             - by eapply ancestor_In.
             - rewrite Hpar in Hp. inversion Hp. congruence. }
           clear Hanc.
           eapply emitted_before_left; eauto.
Qed.

End Outline.

(** * Claims about the hierarchy *)

Lemma flatten_tree_fuel fuel fuel' heap nodes depth out :
  (fuel <= fuel')%nat ->
  flatten_tree fuel heap nodes depth = Some out ->
  flatten_tree fuel' heap nodes depth = Some out.
Proof.
  induction 1 as [|fuel' _ IH]; [auto |].
  intros H. by apply (flatten_tree_more fuel' heap heap), IH.
Qed.

(** C9, as the code has it.  For a list of Symbols with pairwise distinct
    ids in which every parent field that is set is the id of a Symbol
    strictly earlier in the list: [flatten_tree(build_symbol_tree(symbols))]
    returns (the recursion is no deeper than the list is long) a list that
    holds every Symbol of [symbols] exactly once; a Symbol whose parent field
    is a non-empty id is a child of the Symbol with that id, the children
    being in the order of [symbols], and it is emitted one level deeper than
    that Symbol; a Symbol whose parent field is [None] or the empty string is
    a root, emitted at depth 0; and every Symbol is emitted before all its
    descendants. *)
Theorem outline_of_tree symbols :
  NoDup (map Symbol.id symbols) -> parents_earlier symbols ->
  exists heap roots out,
    build_symbol_tree symbols = (heap, roots)
    /\ (forall fuel, (length symbols < fuel)%nat ->
          flatten_tree fuel heap roots 0 = Some out)
    /\ Permutation (map fst out) symbols
    /\ (forall q, In q symbols ->
          heap !! Symbol.id q =
          Some (SymbolNode.mk q
                  (map Symbol.id (children_of symbols (Symbol.id q)))))
    /\ roots = map Symbol.id (List.filter parentless symbols)
    /\ (forall s q d,
          In s symbols -> In (q, d) out ->
          Symbol.parent s = Some (Symbol.id q) -> Symbol.id q <> [] ->
          In (s, S d) out)
    /\ (forall s, In s symbols -> parentless s = true -> In (s, 0%nat) out)
    /\ (forall a s, ancestor symbols a s -> emitted_before out a s).
Proof.
  intros Hnd Hpe.
  destruct (outline_invariant symbols Hnd Hpe)
    as (out & Hflat & Hperm & Hdepth & Hroot & Horder).
  destruct (build_symbol_tree_spec symbols Hnd Hpe) as (heap & Hb & Hin & _).
  rewrite Hb in Hflat. cbn [fst snd] in Hflat.
  exists heap, (map Symbol.id (List.filter parentless symbols)), out.
  repeat split; auto.
  intros fuel Hfuel. eapply flatten_tree_fuel; [| exact Hflat]. lia.
Qed.

(** C9, at the Symbols of the class in a class with a method. *)
Lemma outline_of_tree_witness :
  NoDup (map Symbol.id Inputs.nested_symbols)
  /\ parents_earlier Inputs.nested_symbols
  /\ exists heap roots out,
      build_symbol_tree Inputs.nested_symbols = (heap, roots)
      /\ (forall fuel, (length Inputs.nested_symbols < fuel)%nat ->
            flatten_tree fuel heap roots 0 = Some out)
      /\ Permutation (map fst out) Inputs.nested_symbols
      /\ (forall q, In q Inputs.nested_symbols ->
            heap !! Symbol.id q =
            Some (SymbolNode.mk q
                    (map Symbol.id
                       (children_of Inputs.nested_symbols (Symbol.id q)))))
      /\ roots = map Symbol.id (List.filter parentless Inputs.nested_symbols)
      /\ (forall s q d,
            In s Inputs.nested_symbols -> In (q, d) out ->
            Symbol.parent s = Some (Symbol.id q) -> Symbol.id q <> [] ->
            In (s, S d) out)
      /\ (forall s, In s Inputs.nested_symbols -> parentless s = true ->
            In (s, 0%nat) out)
      /\ (forall a s, ancestor Inputs.nested_symbols a s ->
            emitted_before out a s).
Proof.
  assert (NoDup (map Symbol.id Inputs.nested_symbols)) as Hnd.
  { refine (bool_decide_unpack _ _). vm_compute. exact I. }
  assert (parents_earlier Inputs.nested_symbols) as Hpe.
  { intros i s p Hi Hp.
    destruct i as [|[|[|i]]]; cbn in Hi; inversion Hi; subst s; clear Hi;
      cbn in Hp; inversion Hp; subst p; clear Hp.
    - exists 0%nat. eexists. split; [lia |]. split; reflexivity.
    - exists 1%nat. eexists. split; [lia |]. split; reflexivity. }
  split; [exact Hnd |]. split; [exact Hpe |].
  exact (outline_of_tree Inputs.nested_symbols Hnd Hpe).
Defined.

(** C9, as the specification has it, fails for a parent field that is the
    empty string: [child_of_anonymous] names [anonymous] as its parent, by
    its id, and [anonymous] comes earlier in the list; still the store has
    no child under [anonymous], both Symbols are roots, and both are
    emitted at depth 0. *)
Lemma empty_parent_id_is_root :
  NoDup (map Symbol.id [Inputs.anonymous; Inputs.child_of_anonymous])
  /\ parents_earlier [Inputs.anonymous; Inputs.child_of_anonymous]
  /\ Symbol.parent Inputs.child_of_anonymous
     = Some (Symbol.id Inputs.anonymous)
  /\ (exists heap,
        build_symbol_tree [Inputs.anonymous; Inputs.child_of_anonymous]
        = (heap, [Symbol.id Inputs.anonymous;
                  Symbol.id Inputs.child_of_anonymous])
        /\ heap !! Symbol.id Inputs.anonymous
           = Some (SymbolNode.mk Inputs.anonymous []))
  /\ outline 3 [Inputs.anonymous; Inputs.child_of_anonymous]
     = Some [(Inputs.anonymous, 0%nat); (Inputs.child_of_anonymous, 0%nat)]
  /\ ~ (forall s q d out,
          outline 3 [Inputs.anonymous; Inputs.child_of_anonymous] = Some out ->
          In s [Inputs.anonymous; Inputs.child_of_anonymous] ->
          In (q, d) out ->
          Symbol.parent s = Some (Symbol.id q) ->
          In (s, S d) out).
Proof.
  assert (outline 3 [Inputs.anonymous; Inputs.child_of_anonymous]
          = Some [(Inputs.anonymous, 0%nat); (Inputs.child_of_anonymous, 0%nat)])
    as Hout by (vm_compute; reflexivity).
  split; [refine (bool_decide_unpack _ _); vm_compute; exact I |].
  split.
  { intros i s p Hi Hp.
    destruct i as [|[|i]]; cbn in Hi; inversion Hi; subst s; clear Hi;
      cbn in Hp; inversion Hp; subst p; clear Hp.
    exists 0%nat. eexists. split; [lia |]. split; reflexivity. }
  split; [reflexivity |].
  split.
  { eexists. split; [vm_compute; reflexivity |]. vm_compute; reflexivity. }
  split; [exact Hout |].
  intros H.
  specialize (H Inputs.child_of_anonymous Inputs.anonymous 0%nat _ Hout).
  assert (In (Inputs.child_of_anonymous, 1%nat)
             [(Inputs.anonymous, 0%nat); (Inputs.child_of_anonymous, 0%nat)])
    as Hin.
  { apply H; [right; by left | by left | reflexivity]. }
  destruct Hin as [E | [E | []]]; inversion E.
Qed.

(** * [str] methods *)

Section Strings.
Context {A : Type}.
Implicit Types (p : A -> bool) (l s : list A).

Lemma drop_while_head p l c :
  head (drop_while p l) = Some c -> p c = false.
Proof.
  induction l as [|x l IH]; cbn; [discriminate |].
  destruct (p x) eqn:E; [exact IH |].
  cbn. intros H. by inversion H; subst.
Qed.

Lemma drop_while_fixed p l :
  (forall c, head l = Some c -> p c = false) -> drop_while p l = l.
Proof.
  destruct l as [|x l]; [reflexivity |].
  intros H. cbn. by rewrite (H x eq_refl).
Qed.

Lemma drop_while_suffix p l :
  exists t, l = t ++ drop_while p l /\ forallb p t = true.
Proof.
  induction l as [|x l (t & Ht & Hp)]; [by exists [] |].
  cbn. destruct (p x) eqn:E.
  - exists (x :: t). cbn. rewrite E, Hp. split; [by rewrite <- Ht | reflexivity].
  - by exists [].
Qed.

Lemma last_rev l : last (rev l) = head l.
Proof. destruct l as [|x l]; [reflexivity |]. cbn. apply last_snoc. Qed.

Lemma head_rev l : head (rev l) = last l.
Proof. by rewrite <- (rev_involutive l) at 2; rewrite last_rev. Qed.

End Strings.

Lemma rstrip_with_last p s c :
  last (rstrip_with p s) = Some c -> p c = false.
Proof. unfold rstrip_with. rewrite last_rev. apply drop_while_head. Qed.

Lemma rstrip_with_fixed p s :
  (forall c, last s = Some c -> p c = false) -> rstrip_with p s = s.
Proof.
  intros H. unfold rstrip_with. rewrite drop_while_fixed.
  - apply rev_involutive.
  - intros c. rewrite head_rev. apply H.
Qed.

Lemma rstrip_with_prefix p s :
  exists t, s = rstrip_with p s ++ t /\ forallb p t = true.
Proof.
  unfold rstrip_with.
  destruct (drop_while_suffix p (rev s)) as (t & Ht & Hp).
  exists (rev t). split.
  - rewrite <- rev_app_distr, <- Ht. by rewrite rev_involutive.
  - rewrite forallb_forall in *. intros x Hx. apply Hp. by apply in_rev.
Qed.

Lemma rstrip_with_head p s c :
  head (rstrip_with p s) = Some c -> head s = Some c.
Proof.
  destruct (rstrip_with_prefix p s) as (t & Ht & _).
  rewrite Ht at 2. by destruct (rstrip_with p s).
Qed.

Lemma lstrip_with_head p s c :
  head (lstrip_with p s) = Some c -> p c = false.
Proof. apply drop_while_head. Qed.

(** [s.strip()] has no white space at either end, and leaves such a string
    as it is. *)
Lemma strip_head s c : head (strip s) = Some c -> Py_UNICODE_ISSPACE c = false.
Proof.
  unfold strip. intros H. apply rstrip_with_head in H.
  by apply lstrip_with_head in H.
Qed.

Lemma strip_last s c : last (strip s) = Some c -> Py_UNICODE_ISSPACE c = false.
Proof. apply rstrip_with_last. Qed.

Lemma strip_fixed s :
  (forall c, head s = Some c -> Py_UNICODE_ISSPACE c = false) ->
  (forall c, last s = Some c -> Py_UNICODE_ISSPACE c = false) ->
  strip s = s.
Proof.
  intros Hh Hl. unfold strip, lstrip_with.
  rewrite (drop_while_fixed _ s Hh). by apply rstrip_with_fixed.
Qed.

Lemma strip_strip s : strip (strip s) = strip s.
Proof. apply strip_fixed; [apply strip_head | apply strip_last]. Qed.

Lemma strip_length s : (length (strip s) <= length s)%nat.
Proof.
  unfold strip.
  destruct (rstrip_with_prefix Py_UNICODE_ISSPACE
              (lstrip_with Py_UNICODE_ISSPACE s)) as (t & Ht & _).
  destruct (drop_while_suffix Py_UNICODE_ISSPACE s) as (u & Hu & _).
  unfold lstrip_with in *.
  apply (f_equal length) in Ht, Hu. rewrite length_app in Ht, Hu. lia.
Qed.

Lemma startswith_app s p : startswith (p ++ s) p = true.
Proof.
  induction p as [|c p IH]; [by destruct s |].
  cbn. by rewrite N.eqb_refl, IH.
Qed.

Lemma startswith_prefix s p :
  startswith s p = true <-> exists t, s = p ++ t.
Proof.
  revert s. induction p as [|c p IH]; intros s.
  - split; [intros _; by exists s | by destruct s].
  - destruct s as [|d s]; cbn.
    + split; [discriminate | intros (t & H); discriminate H].
    + rewrite andb_true_iff, N.eqb_eq, IH. split.
      * intros (-> & t & ->). by exists t.
      * intros (t & H). inversion H; subst. split; [reflexivity | by exists t].
Qed.

Lemma endswith_app s p : endswith (s ++ p) p = true.
Proof. unfold endswith. rewrite rev_app_distr. apply startswith_app. Qed.

Lemma endswith_suffix s p :
  endswith s p = true <-> exists t, s = t ++ p.
Proof.
  unfold endswith. rewrite startswith_prefix. split.
  - intros (t & H). exists (rev t).
    rewrite <- (rev_involutive s), H, rev_app_distr. by rewrite rev_involutive.
  - intros (t & ->). exists (rev t). apply rev_app_distr.
Qed.

(** * More on the result of [parse_file] *)

Section ResultInvariants.
Variable ucd_case : codepoint -> Case.
Variable spec : LanguageSpec.
Variable source_bytes : bytes.
Variables filename language : str.

Lemma parents_earlier_snoc symbols s :
  parents_earlier symbols ->
  (forall p, Symbol.parent s = Some p ->
             exists q, In q symbols /\ Symbol.id q = p) ->
  parents_earlier (symbols ++ [s]).
Proof.
  intros Hpe Hs i x p Hi Hp.
  destruct (decide (i < length symbols)%nat) as [Hlt | Hge].
  - rewrite lookup_app_l in Hi by exact Hlt.
    destruct (Hpe i x p Hi Hp) as (j & q & Hj & Hq & Hid).
    exists j, q. repeat split; auto.
    rewrite lookup_app_l by lia. exact Hq.
  - rewrite lookup_app_r in Hi by lia.
    destruct (i - length symbols)%nat as [|k] eqn:Hk; [| by destruct k].
    cbn in Hi. inversion Hi; subst x.
    destruct (Hs p Hp) as (q & Hq & Hid).
    apply list_elem_of_In, list_elem_of_lookup in Hq as [j Hj].
    exists j, q. pose proof (lookup_lt_Some _ _ _ Hj).
    repeat split; [lia | | exact Hid].
    rewrite lookup_app_l by lia. exact Hj.
Qed.

Lemma parents_earlier_app symbols new :
  parents_earlier symbols ->
  Forall (fun s => Symbol.parent s = None) new ->
  parents_earlier (symbols ++ new).
Proof.
  intros Hpe Hnew. revert symbols Hpe.
  induction Hnew as [|s new Hs _ IH]; intros symbols Hpe.
  - by rewrite app_nil_r.
  - rewrite (cons_middle s), app_assoc. apply IH.
    apply parents_earlier_snoc; [exact Hpe |].
    intros p Hp. rewrite Hs in Hp. discriminate Hp.
Qed.

Lemma own_symbols_parents_earlier prevs n p own p' symbols :
  own_symbols ucd_case spec source_bytes filename language prevs n p
    = Ok (own, p') ->
  parents_earlier symbols -> enclosing_in p symbols ->
  parents_earlier (symbols ++ own) /\ enclosing_in p' (symbols ++ own).
Proof.
  unfold own_symbols. intros H Hpe Hp.
  apply bind_Ok in H as ([new q] & Hsym & H).
  apply bind_Ok in H as (new' & Hconst & H). inversion H; subst; clear H.
  assert (parents_earlier (symbols ++ new)
          /\ enclosing_in p' (symbols ++ new)) as [Hpe1 Hp1].
  { unfold walk_symbol in Hsym. destruct (dict_mem _ _).
    - destruct (_extract_symbol _ _ _ _ _ _ _) as [[s|]|e] eqn:Hs;
        cbn in Hsym; inversion Hsym; subst; clear Hsym.
      + apply _extract_symbol_Some in Hs
          as (kind & name & _ & _ & _ & _ & _ & Hpar & _).
        split.
        * apply parents_earlier_snoc; [exact Hpe |].
          intros x Hx. rewrite Hpar in Hx. destruct p as [q|]; [| discriminate].
          inversion Hx; subst x. exists q. split; [by apply Hp | reflexivity].
        * intros q Hq. inversion Hq; subst q. apply in_app_iff. right. by left.
      + rewrite app_nil_r. by split.
    - inversion Hsym; subst. rewrite app_nil_r. by split. }
  unfold walk_constant in Hconst.
  destruct p' as [q|]; [inversion Hconst; subst; by split |].
  split; [| intros q Hq; discriminate Hq].
  destruct (list_mem _ _); [| inversion Hconst; subst; exact Hpe1].
  destruct (_extract_constant _ _ _ _ _ _) as [[c|]|e] eqn:Hc;
    cbn in Hconst; inversion Hconst; subst; [| exact Hpe1].
  rewrite app_assoc. apply parents_earlier_snoc; [exact Hpe1 |].
  apply _extract_constant_Some in Hc as (_ & _ & Hpar & _).
  intros x Hx. rewrite Hpar in Hx. discriminate Hx.
Qed.

Lemma _walk_tree_parents_earlier n :
  forall prevs p symbols out,
    _walk_tree ucd_case prevs n spec source_bytes filename language symbols p
      = Ok out ->
    parents_earlier symbols -> enclosing_in p symbols ->
    parents_earlier out.
Proof.
  induction n as [ty nm he sb eb sr er fl cs IH] using Node.t_ind.
  intros prevs p symbols out. rewrite _walk_tree_own. intros H Hpe Hp.
  apply bind_Ok in H as ([own p'] & Hown & H). cbn [Node.children] in H.
  destruct (own_symbols_parents_earlier _ _ _ _ _ _ Hown Hpe Hp)
    as [Hpe' Hp'].
  clear Hown. revert H Hpe' Hp'. generalize (symbols ++ own) as syms.
  generalize (@nil Node.t) as prevs'.
  induction IH as [|c cs Hc _ IHcs]; intros prevs' syms H Hpe' Hp'.
  - by inversion H; subst.
  - cbn in H. apply bind_Ok in H as (syms1 & H1 & H).
    eapply IHcs; [exact H | by eapply Hc |].
    apply _walk_tree_appends in H1 as [new1 ->].
    intros q Hq. apply in_app_iff. left. by apply Hp'.
Qed.

End ResultInvariants.

(** X1. In the result of [parse_file], the parent field of a Symbol, when
    set, is the id of a Symbol that comes strictly earlier in the result. *)
Theorem parse_file_parents_earlier ucd_case root source_bytes filename
    language syms :
  parse_file ucd_case root source_bytes filename language = Ok syms ->
  parents_earlier syms.
Proof.
  unfold parse_file. destruct (dict_get LANGUAGE_REGISTRY language) as [spec|].
  - intros H. eapply _walk_tree_parents_earlier; [exact H | |].
    + intros i s p Hi. discriminate Hi.
    + intros q Hq. discriminate Hq.
  - intros H. inversion H. intros i s p Hi. discriminate Hi.
Qed.

Lemma parse_file_parents_earlier_witness :
  parse_file ascii_only Inputs.nested_tree Inputs.nested_src (py "a.py")
    (py "python") = Ok Inputs.nested_symbols
  /\ parents_earlier Inputs.nested_symbols.
Proof.
  split; [vm_compute; reflexivity |].
  apply (parse_file_parents_earlier ascii_only Inputs.nested_tree
           Inputs.nested_src (py "a.py") (py "python")).
  vm_compute; reflexivity.
Defined.

(** * The fields of the Symbols of a result *)

Lemma _extract_symbol_inv prevs n spec source_bytes filename language p s :
  _extract_symbol prevs n spec source_bytes filename language p
    = Ok (Some s) ->
  exists name,
    _extract_name n spec source_bytes = Ok (Some name) /\
    name <> [] /\
    Symbol.name s = name /\
    _build_signature n spec source_bytes = Ok (Symbol.signature s) /\
    _extract_docstring prevs n spec source_bytes = Ok (Symbol.docstring s) /\
    _extract_decorators prevs spec source_bytes = Ok (Symbol.decorators s) /\
    Symbol.file s = filename /\
    Symbol.language s = language /\
    Symbol.summary s = [] /\
    Symbol.keywords s = [] /\
    Symbol.line s = (Z.of_nat (Node.start_row n) + 1)%Z /\
    Symbol.end_line s = (Z.of_nat (Node.end_row n) + 1)%Z /\
    Symbol.byte_offset s = Z.of_nat (Node.start_byte n) /\
    Symbol.byte_length s
      = (Z.of_nat (Node.end_byte n) - Z.of_nat (Node.start_byte n))%Z.
Proof.
  unfold _extract_symbol.
  destruct (dict_get _ _) as [kind|]; [| discriminate].
  destruct (Node.has_error n); [discriminate |].
  intros H. apply bind_Ok in H as (oname & Hname & H).
  destruct oname as [[|c name]|]; try discriminate.
  exists (c :: name).
  destruct p as [q|]; cbn in H.
  all: apply bind_Ok in H as (sig & Hsig & H).
  all: apply bind_Ok in H as (doc & Hdoc & H).
  all: apply bind_Ok in H as (decs & Hdecs & H).
  all: inversion H; subst; clear H; cbn.
  all: repeat split; auto; discriminate.
Qed.

Lemma _extract_constant_inv ucd_case n spec source_bytes filename language s :
  _extract_constant ucd_case n spec source_bytes filename language
    = Ok (Some s) ->
  exists left_ name text,
    Node.type n = py "assignment" /\
    Node.child_by_field_name n (py "left") = Some left_ /\
    Node.type left_ = py "identifier" /\
    node_text source_bytes left_ = Ok name /\
    constant_name ucd_case name = true /\
    node_text source_bytes n = Ok text /\
    s = constant_symbol n filename language name text.
Proof.
  unfold _extract_constant.
  destruct (str_eqb (Node.type n) _) eqn:E; [| discriminate].
  apply str_eqb_eq in E.
  destruct (Node.child_by_field_name _ _) as [l|]; [| discriminate].
  destruct (str_eqb (Node.type l) _) eqn:El; [| discriminate].
  apply str_eqb_eq in El.
  intros H. apply bind_Ok in H as (name & Hname & H).
  destruct (constant_name _ _) eqn:Hc; [| discriminate].
  apply bind_Ok in H as (text & Htext & H).
  inversion H; subst; clear H.
  exists l, name, text. repeat split; auto.
Qed.

Lemma constant_name_nonempty ucd_case name :
  constant_name ucd_case name = true -> name <> [].
Proof. intros H ->. discriminate H. Qed.

Section FieldClaims.
Variable ucd_case : codepoint -> Case.

(** X2. Every Symbol of a result of [parse_file] carries the file name and
    the language tag of the call, has the identifier
    [make_symbol_id(filename, qualified_name)], a non-empty name, an empty
    summary and no keywords.  It was emitted for a node the walk reached,
    and its position fields are those of that node: [byte_offset] is the
    start byte, [byte_offset + byte_length] the end byte, [line] and
    [end_line] the rows of the two ends, counted from 1. *)
Theorem parse_file_symbol_fields root source_bytes filename language spec
    syms :
  dict_get LANGUAGE_REGISTRY language = Some spec ->
  parse_file ucd_case root source_bytes filename language = Ok syms ->
  forall s, In s syms ->
    Symbol.file s = filename
    /\ Symbol.language s = language
    /\ Symbol.id s = make_symbol_id filename (Symbol.qualified_name s)
    /\ Symbol.name s <> []
    /\ Symbol.summary s = []
    /\ Symbol.keywords s = []
    /\ exists n,
        emitted ucd_case spec source_bytes filename language root n s
        /\ Symbol.byte_offset s = Z.of_nat (Node.start_byte n)
        /\ (Symbol.byte_offset s + Symbol.byte_length s)%Z
           = Z.of_nat (Node.end_byte n)
        /\ Symbol.line s = (Z.of_nat (Node.start_row n) + 1)%Z
        /\ Symbol.end_line s = (Z.of_nat (Node.end_row n) + 1)%Z
        /\ (1 <= Symbol.line s)%Z.
Proof.
  intros Hreg Hparse s Hs.
  pose proof (parse_file_sound _ _ _ _ _ _ _ Hreg Hparse) as Hall.
  rewrite List.Forall_forall in Hall. destruct (Hall s Hs) as [n Hem].
  pose proof Hem as Hem'.
  destruct Hem' as [prevs p n s _ _ Hx | prevs n s _ _ Hc].
  - pose proof (_extract_symbol_Some _ _ _ _ _ _ _ _ Hx)
      as (kind & name' & _ & _ & _ & _ & _ & _ & _ & _ & Hid).
    apply _extract_symbol_inv in Hx
      as (name & _ & Hne & Hn & _ & _ & _ & Hf & Hl & Hsum & Hkw
          & Hline & Hend & Hoff & Hlen).
    repeat split; auto; try congruence.
    exists n. repeat split; auto; lia.
  - pose proof (_extract_constant_Some _ _ _ _ _ _ _ Hc)
      as (_ & _ & _ & Hq & Hid).
    apply _extract_constant_inv in Hc
      as (l & name & text & _ & _ & _ & _ & Hcn & _ & ->).
    cbn in *. repeat split; auto.
    + by eapply constant_name_nonempty.
    + exists n. cbn. repeat split; auto; lia.
Qed.

(** X3. For the languages of the registry, the kind of every Symbol of a
    result is one of [function], [class], [method], [type], [constant]. *)
Theorem parse_file_kinds root source_bytes filename language spec syms :
  dict_get LANGUAGE_REGISTRY language = Some spec ->
  parse_file ucd_case root source_bytes filename language = Ok syms ->
  forall s, In s syms ->
    In (Symbol.kind s)
       [py "function"; py "class"; py "method"; py "type"; py "constant"].
Proof.
  intros Hreg Hparse s Hs.
  pose proof (parse_file_sound _ _ _ _ _ _ _ Hreg Hparse) as Hall.
  rewrite List.Forall_forall in Hall. destruct (Hall s Hs) as [n Hem].
  destruct Hem as [prevs p n s _ _ Hx | prevs n s _ _ Hc].
  - apply _extract_symbol_Some in Hx
      as (kind & name & Hk & _ & _ & _ & _ & _ & _ & Hkd & _).
    assert (In kind [py "function"; py "class"; py "method"; py "type"])
      as Hkind.
    { apply dict_get_In in Hk.
      assert (forallb (fun kv => list_mem
                [py "function"; py "class"; py "method"; py "type"] (snd kv))
                (symbol_node_types spec) = true) as Hall'.
      { apply registry_spec in Hreg.
        destruct Hreg as [[_ ->]|[[_ ->]|[[_ ->]|[[_ ->]|[[_ ->]|[_ ->]]]]]];
          vm_compute; reflexivity. }
      rewrite forallb_forall in Hall'. apply Hall' in Hk. cbn [snd] in Hk.
      unfold list_mem in Hk. apply existsb_exists in Hk as (x & Hx & E).
      apply str_eqb_eq in E. by subst. }
    rewrite Hkd. destruct p as [q|].
    + destruct (str_eqb kind (py "function")); [cbn; tauto |].
      cbn in Hkind. cbn. tauto.
    + cbn in Hkind. cbn. tauto.
  - apply _extract_constant_Some in Hc as (_ & -> & _). cbn. tauto.
Qed.

(** X4. No Symbol is ever emitted for a node of type [arrow_function],
    whatever the language; nor, in javascript, for a
    [generator_function_declaration], nor, in rust, for an [impl_item]:
    these types are listed in [symbol_node_types], but the extractor finds
    no name for them. *)
Theorem nameless_types_yield_no_symbol root source_bytes filename language
    spec n s :
  dict_get LANGUAGE_REGISTRY language = Some spec ->
  emitted ucd_case spec source_bytes filename language root n s ->
  Node.type n <> py "arrow_function"
  /\ (language = py "javascript" ->
      Node.type n <> py "generator_function_declaration")
  /\ (language = py "rust" -> Node.type n <> py "impl_item").
Proof.
  intros Hreg Hem.
  destruct Hem as [prevs p n s _ _ Hx | prevs n s _ _ Hc].
  - apply _extract_symbol_inv in Hx as (name & Hname & _).
    rewrite _extract_name_eq in Hname.
    destruct (name_node n spec) as [nn|] eqn:Hnn; [| discriminate Hname].
    clear Hname. unfold name_node in Hnn.
    destruct (str_eqb (Node.type n) (py "arrow_function")) eqn:Ea;
      [discriminate Hnn |].
    apply str_eqb_neq in Ea. split; [exact Ea |].
    split; intros -> Hty; rewrite Hty in Hnn;
      apply registry_spec in Hreg;
      destruct Hreg as [[E ->]|[[E ->]|[[E ->]|[[E ->]|[[E ->]|[E ->]]]]]];
      try discriminate E; vm_compute in Hnn; discriminate Hnn.
  - apply _extract_constant_Some in Hc as (Hty & _).
    rewrite Hty. repeat split; intros; discriminate.
Qed.

End FieldClaims.

Lemma parse_file_symbol_fields_witness :
  dict_get LANGUAGE_REGISTRY (py "python") = Some PYTHON_SPEC /\
  parse_file ascii_only Inputs.nested_tree Inputs.nested_src (py "a.py")
    (py "python") = Ok Inputs.nested_symbols /\
  forall s, In s Inputs.nested_symbols ->
    Symbol.file s = py "a.py"
    /\ Symbol.language s = py "python"
    /\ Symbol.id s = make_symbol_id (py "a.py") (Symbol.qualified_name s)
    /\ Symbol.name s <> []
    /\ Symbol.summary s = []
    /\ Symbol.keywords s = []
    /\ exists n,
        emitted ascii_only PYTHON_SPEC Inputs.nested_src (py "a.py")
          (py "python") Inputs.nested_tree n s
        /\ Symbol.byte_offset s = Z.of_nat (Node.start_byte n)
        /\ (Symbol.byte_offset s + Symbol.byte_length s)%Z
           = Z.of_nat (Node.end_byte n)
        /\ Symbol.line s = (Z.of_nat (Node.start_row n) + 1)%Z
        /\ Symbol.end_line s = (Z.of_nat (Node.end_row n) + 1)%Z
        /\ (1 <= Symbol.line s)%Z.
Proof.
  split; [reflexivity |]. split; [vm_compute; reflexivity |].
  apply (parse_file_symbol_fields ascii_only Inputs.nested_tree
           Inputs.nested_src (py "a.py") (py "python") PYTHON_SPEC
           Inputs.nested_symbols).
  - reflexivity.
  - vm_compute; reflexivity.
Defined.

Lemma parse_file_kinds_witness :
  dict_get LANGUAGE_REGISTRY (py "python") = Some PYTHON_SPEC /\
  parse_file ascii_only Inputs.max_tree Inputs.max_src (py "a.py")
    (py "python") = Ok Inputs.max_symbols /\
  forall s, In s Inputs.max_symbols ->
    In (Symbol.kind s)
       [py "function"; py "class"; py "method"; py "type"; py "constant"].
Proof.
  split; [reflexivity |]. split; [vm_compute; reflexivity |].
  apply (parse_file_kinds ascii_only Inputs.max_tree Inputs.max_src
           (py "a.py") (py "python") PYTHON_SPEC Inputs.max_symbols).
  - reflexivity.
  - vm_compute; reflexivity.
Defined.

Lemma nameless_types_yield_no_symbol_witness :
  dict_get LANGUAGE_REGISTRY (py "rust") = Some RUST_SPEC /\
  forall s, In s Inputs.bang_symbols ->
    exists n,
      emitted ascii_only RUST_SPEC Inputs.bang_src (py "a.rs") (py "rust")
        Inputs.bang_tree n s
      /\ Node.type n <> py "arrow_function"
      /\ (py "rust" = py "javascript" ->
          Node.type n <> py "generator_function_declaration")
      /\ (py "rust" = py "rust" -> Node.type n <> py "impl_item").
Proof.
  split; [reflexivity |]. intros s Hs.
  assert (parse_file ascii_only Inputs.bang_tree Inputs.bang_src (py "a.rs")
            (py "rust") = Ok Inputs.bang_symbols) as Hparse
    by (vm_compute; reflexivity).
  pose proof (parse_file_sound ascii_only Inputs.bang_tree Inputs.bang_src
                (py "a.rs") (py "rust") RUST_SPEC Inputs.bang_symbols
                eq_refl Hparse) as Hall.
  rewrite List.Forall_forall in Hall. destruct (Hall s Hs) as [n Hem].
  exists n. split; [exact Hem |].
  exact (nameless_types_yield_no_symbol ascii_only Inputs.bang_tree
           Inputs.bang_src (py "a.rs") (py "rust") RUST_SPEC n s eq_refl Hem).
Defined.

(** * The signature of a Symbol *)

Lemma mem_cp_In c chars : mem_cp c chars = true <-> In c chars.
Proof.
  unfold mem_cp. rewrite existsb_exists. split.
  - intros (x & Hx & E). apply N.eqb_eq in E. by subst.
  - intros H. exists c. split; [exact H | apply N.eqb_refl].
Qed.

Lemma _build_signature_shape n spec source_bytes sig :
  _build_signature n spec source_bytes = Ok sig ->
  (forall c, head sig = Some c -> Py_UNICODE_ISSPACE c = false)
  /\ (forall c, last sig = Some c ->
        ~ In c (py "{: " ++ [newline; tab])).
Proof.
  unfold _build_signature. intros H.
  apply bind_Ok in H as (t & _ & H). inversion H; subst; clear H.
  unfold rstrip_chars. split; intros c Hc.
  - apply rstrip_with_head in Hc. by apply strip_head in Hc.
  - apply rstrip_with_last in Hc. intros Hin.
    apply mem_cp_In in Hin. cbv beta in Hc.
    exact (eq_true_false_abs _ Hin Hc).
Qed.

Section SignatureClaims.
Variable ucd_case : codepoint -> Case.

(** X5. The signature of a Symbol of a result of [parse_file] never begins
    with white space.  For a Symbol that is not a constant it does not end
    in an opening brace, a colon, a space, a newline or a tab either; for a
    constant it has at most 100 characters. *)
Theorem parse_file_signature_shape root source_bytes filename language spec
    syms :
  dict_get LANGUAGE_REGISTRY language = Some spec ->
  parse_file ucd_case root source_bytes filename language = Ok syms ->
  forall s, In s syms ->
    (forall c, head (Symbol.signature s) = Some c ->
       Py_UNICODE_ISSPACE c = false)
    /\ (Symbol.kind s <> py "constant" ->
        forall c, last (Symbol.signature s) = Some c ->
          ~ In c (py "{: " ++ [newline; tab]))
    /\ (Symbol.kind s = py "constant" ->
        (length (Symbol.signature s) <= 100)%nat).
Proof.
  intros Hreg Hparse s Hs.
  pose proof (parse_file_sound _ _ _ _ _ _ _ Hreg Hparse) as Hall.
  rewrite List.Forall_forall in Hall. destruct (Hall s Hs) as [n Hem].
  pose proof (emitted_constant_kind ucd_case _ _ _ _ _ _ _
                (registry_table_ok _ _ Hreg) Hem) as Hkind.
  destruct Hem as [prevs p n s _ _ Hx | prevs n s _ _ Hc].
  - pose proof (_extract_symbol_Some _ _ _ _ _ _ _ _ Hx)
      as (kind & name' & Hk & _).
    apply _extract_symbol_inv in Hx as (name & _ & _ & _ & Hsig & _).
    apply _build_signature_shape in Hsig as [Hhead Hlast].
    split; [exact Hhead |]. split; [intros _; exact Hlast |].
    intros Hc. exfalso. destruct (Hkind Hc) as [Hty Hmem].
    apply registry_table_ok in Hreg. unfold table_ok in Hreg.
    apply andb_true_iff in Hreg as [_ Hreg].
    apply negb_true_iff in Hreg. unfold dict_mem in Hreg.
    rewrite <- Hty, Hk in Hreg. discriminate Hreg.
  - pose proof (_extract_constant_Some _ _ _ _ _ _ _ Hc) as (_ & Hk & _).
    apply _extract_constant_inv in Hc
      as (l & name & text & _ & _ & _ & _ & _ & _ & ->).
    cbn [Symbol.signature constant_symbol] in *. unfold slice_to.
    split; [| split].
    + intros c Hc. apply (strip_head text).
      destruct (strip text) as [|x t]; [discriminate Hc | exact Hc].
    + intros Hne. by destruct Hne.
    + intros _. rewrite length_take. lia.
Qed.

End SignatureClaims.

Lemma parse_file_signature_shape_witness :
  dict_get LANGUAGE_REGISTRY (py "python") = Some PYTHON_SPEC /\
  parse_file ascii_only Inputs.nested_tree Inputs.nested_src (py "a.py")
    (py "python") = Ok Inputs.nested_symbols /\
  forall s, In s Inputs.nested_symbols ->
    (forall c, head (Symbol.signature s) = Some c ->
       Py_UNICODE_ISSPACE c = false)
    /\ (Symbol.kind s <> py "constant" ->
        forall c, last (Symbol.signature s) = Some c ->
          ~ In c (py "{: " ++ [newline; tab]))
    /\ (Symbol.kind s = py "constant" ->
        (length (Symbol.signature s) <= 100)%nat).
Proof.
  split; [reflexivity |]. split; [vm_compute; reflexivity |].
  apply (parse_file_signature_shape ascii_only Inputs.nested_tree
           Inputs.nested_src (py "a.py") (py "python") PYTHON_SPEC
           Inputs.nested_symbols).
  - reflexivity.
  - vm_compute; reflexivity.
Defined.

(** * Identifiers *)

Lemma replace_char_length a b s : length (replace_char a b s) = length s.
Proof. apply length_map. Qed.

Lemma replace_char_not_In a b s : a <> b -> ~ In a (replace_char a b s).
Proof.
  intros Hab Hin. unfold replace_char in Hin.
  apply in_map_iff in Hin as (c & Hc & _).
  destruct (N.eqb_spec c a); congruence.
Qed.

Lemma replace_char_fixed a b s : ~ In a s -> replace_char a b s = s.
Proof.
  induction s as [|c s IH]; [reflexivity |].
  intros Hin. cbn. destruct (N.eqb_spec c a) as [->|_].
  - exfalso. apply Hin. by left.
  - f_equal. apply IH. intros H. apply Hin. by right.
Qed.

Lemma replace_char_keeps a b c s :
  c <> b -> ~ In c s -> ~ In c (replace_char a b s).
Proof.
  intros Hcb Hin H. unfold replace_char in H.
  apply in_map_iff in H as (d & Hd & Hds).
  destruct (N.eqb_spec d a); congruence.
Qed.

(** X7. The part of an identifier before the [::] is the file path with
    every [/] and every [.] replaced by [-]: it has the length of the path
    and holds neither character.  [slugify] leaves such a text as it is, so
    the path and its slug give the same identifiers: two paths that differ
    only in [/], [.] and [-] at some place cannot be told apart by the
    identifiers of their symbols. *)
Theorem make_symbol_id_file_part file_path qualified_name :
  make_symbol_id file_path qualified_name
    = slugify file_path ++ py "::" ++ qualified_name
  /\ length (slugify file_path) = length file_path
  /\ ~ In 47 (slugify file_path)
  /\ ~ In 46 (slugify file_path)
  /\ slugify (slugify file_path) = slugify file_path
  /\ make_symbol_id (slugify file_path) qualified_name
     = make_symbol_id file_path qualified_name.
Proof.
  assert (~ In 47 (slugify file_path)) as H47.
  { unfold slugify. apply replace_char_keeps; [done |].
    by apply replace_char_not_In. }
  assert (~ In 46 (slugify file_path)) as H46.
  { unfold slugify. by apply replace_char_not_In. }
  assert (slugify (slugify file_path) = slugify file_path) as Hid.
  { unfold slugify at 1.
    rewrite (replace_char_fixed 47) by exact H47.
    by apply replace_char_fixed. }
  split; [reflexivity |]. split.
  { unfold slugify. by rewrite !replace_char_length. }
  split; [exact H47 |]. split; [exact H46 |]. split; [exact Hid |].
  unfold make_symbol_id. by rewrite Hid.
Qed.

Section IdClaims.
Variable ucd_case : codepoint -> Case.

(** X6. In a result of [parse_file], two Symbols have the same identifier
    exactly when they have the same qualified name; so the identifiers of a
    result are pairwise distinct exactly when its qualified names are. *)
Theorem parse_file_ids root source_bytes filename language spec syms :
  dict_get LANGUAGE_REGISTRY language = Some spec ->
  parse_file ucd_case root source_bytes filename language = Ok syms ->
  (forall s1 s2, In s1 syms -> In s2 syms ->
     (Symbol.id s1 = Symbol.id s2
      <-> Symbol.qualified_name s1 = Symbol.qualified_name s2))
  /\ (NoDup (map Symbol.id syms)
      <-> NoDup (map Symbol.qualified_name syms)).
Proof.
  intros Hreg Hparse.
  assert (forall s, In s syms ->
            Symbol.id s = make_symbol_id filename (Symbol.qualified_name s))
    as Hid.
  { intros s Hs.
    pose proof (parse_file_sound _ _ _ _ _ _ _ Hreg Hparse) as Hall.
    rewrite List.Forall_forall in Hall. destruct (Hall s Hs) as [n Hem].
    destruct Hem as [prevs p n s _ _ Hx | prevs n s _ _ Hc].
    - by apply _extract_symbol_Some in Hx
        as (kind & name' & _ & _ & _ & _ & _ & _ & _ & _ & Hid).
    - apply _extract_constant_Some in Hc as (_ & _ & _ & Hq & Hid).
      by rewrite Hq. }
  split.
  - intros s1 s2 H1 H2. rewrite (Hid s1 H1), (Hid s2 H2).
    apply make_symbol_id_inj.
  - assert (map Symbol.id syms
            = map (make_symbol_id filename) (map Symbol.qualified_name syms))
      as ->.
    { rewrite map_map. apply map_ext_in. exact Hid. }
    assert (Inj eq eq (make_symbol_id filename)) as Hinj.
    { intros q1 q2 H. by apply make_symbol_id_inj in H. }
    split.
    + apply (NoDup_fmap_1 (make_symbol_id filename)).
    + by apply (NoDup_fmap_2 (make_symbol_id filename)).
Qed.

End IdClaims.

Lemma parse_file_ids_witness :
  dict_get LANGUAGE_REGISTRY (py "python") = Some PYTHON_SPEC /\
  parse_file ascii_only Inputs.nested_tree Inputs.nested_src (py "a.py")
    (py "python") = Ok Inputs.nested_symbols /\
  (forall s1 s2, In s1 Inputs.nested_symbols -> In s2 Inputs.nested_symbols ->
     (Symbol.id s1 = Symbol.id s2
      <-> Symbol.qualified_name s1 = Symbol.qualified_name s2))
  /\ (NoDup (map Symbol.id Inputs.nested_symbols)
      <-> NoDup (map Symbol.qualified_name Inputs.nested_symbols)).
Proof.
  split; [reflexivity |]. split; [vm_compute; reflexivity |].
  apply (parse_file_ids ascii_only Inputs.nested_tree Inputs.nested_src
           (py "a.py") (py "python") PYTHON_SPEC Inputs.nested_symbols).
  - reflexivity.
  - vm_compute; reflexivity.
Defined.

(** * Quotes around a docstring *)

Lemma strip_quoted q body :
  Py_UNICODE_ISSPACE q = false -> strip (q :: body ++ [q]) = q :: body ++ [q].
Proof.
  intros Hq. apply strip_fixed; intros c Hc.
  - cbn in Hc. congruence.
  - change (q :: body ++ [q]) with ((q :: body) ++ [q]) in Hc.
    rewrite last_snoc in Hc. congruence.
Qed.

Lemma slice_mid_app a b s t :
  slice_mid (length a) (length b) (a ++ s ++ b) = s
  /\ (t = a ++ s ++ b -> slice_mid (length a) (length b) t = s).
Proof.
  assert (slice_mid (length a) (length b) (a ++ s ++ b) = s) as H.
  { unfold slice_mid. rewrite !length_app.
    replace (length a + (length s + length b) - length b)%nat
      with (length (a ++ s)) by (rewrite length_app; lia).
    rewrite app_assoc, take_app_length. by rewrite drop_app_length. }
  split; [exact H | by intros ->].
Qed.

Lemma startswith_cons_ne x t c p :
  c <> x -> startswith (x :: t) (c :: p) = false.
Proof. intros H. cbn [startswith]. by destruct (N.eqb_spec c x). Qed.

(** X8. [_strip_quotes] on a text between quotes gives the text inside
    with the white space at its ends removed: for three double or three
    single quotes on each side, whatever is inside, and for one quote on
    each side as long as the inside does not begin with that quote.  A text
    that, white space aside, does not begin with a quote (a string literal
    with a prefix letter, say) only has its white space removed: its quotes
    stay. *)
Theorem _strip_quotes_quoted q body :
  In q [dquote; squote] ->
  _strip_quotes ([q; q; q] ++ body ++ [q; q; q]) = strip body
  /\ (head body <> Some q -> _strip_quotes (q :: body ++ [q]) = strip body)
  /\ (forall c, head (strip body) = Some c -> c <> dquote -> c <> squote ->
        _strip_quotes body = strip body).
Proof.
  intros Hq.
  assert (Py_UNICODE_ISSPACE q = false) as Hsp.
  { destruct Hq as [<-|[<-|[]]]; reflexivity. }
  split; [| split].
  - unfold _strip_quotes.
    assert (strip ([q; q; q] ++ body ++ [q; q; q])
            = [q; q; q] ++ body ++ [q; q; q]) as ->.
    { change ([q; q; q] ++ body ++ [q; q; q])
        with (q :: ([q; q] ++ body ++ [q; q; q])).
      replace ([q; q] ++ body ++ [q; q; q])
        with (([q; q] ++ body ++ [q; q]) ++ [q])
        by (by rewrite <- !app_assoc).
      by apply strip_quoted. }
    pose proof (proj1 (slice_mid_app [q; q; q] [q; q; q] body [])) as Hmid.
    cbn [length] in Hmid. rewrite Hmid.
    destruct Hq as [<-|[<-|[]]].
    + rewrite (startswith_app _ [dquote; dquote; dquote]).
      rewrite app_assoc, (endswith_app _ [dquote; dquote; dquote]).
      reflexivity.
    + rewrite (startswith_app _ [squote; squote; squote]).
      rewrite app_assoc, (endswith_app _ [squote; squote; squote]).
      reflexivity.
  - intros Hhead. unfold _strip_quotes.
    rewrite (strip_quoted q body Hsp).
    pose proof (proj1 (slice_mid_app [q] [q] body [])) as Hmid.
    cbn [length] in Hmid. change ([q] ++ body ++ [q]) with (q :: body ++ [q])
      in Hmid. rewrite Hmid.
    assert (forall q', startswith (q :: body ++ [q]) [q'; q; q] = false)
      as Hno3.
    { intros q'. cbn. destruct body as [|c body]; cbn.
      - by rewrite !andb_false_r.
      - destruct (N.eqb_spec q c) as [->|_]; [by destruct Hhead |].
        by rewrite andb_false_r. }
    assert (endswith (q :: body ++ [q]) [q] = true) as Hend.
    { change (q :: body ++ [q]) with ((q :: body) ++ [q]).
      apply endswith_app. }
    destruct Hq as [<-|[<-|[]]].
    + rewrite (Hno3 dquote). cbn [andb].
      replace (startswith (dquote :: body ++ [dquote])
                 [squote; squote; squote]) with false by reflexivity.
      cbn [andb]. rewrite Hend.
      replace (startswith (dquote :: body ++ [dquote]) [dquote]) with true
        by (destruct body; reflexivity).
      reflexivity.
    + replace (startswith (squote :: body ++ [squote])
                 [dquote; dquote; dquote]) with false by reflexivity.
      cbn [andb]. rewrite (Hno3 squote). cbn [andb].
      replace (startswith (squote :: body ++ [squote]) [dquote]) with false
        by reflexivity.
      cbn [andb]. rewrite Hend.
      replace (startswith (squote :: body ++ [squote]) [squote]) with true
        by (destruct body; reflexivity).
      reflexivity.
  - intros c Hc Hd Hs. unfold _strip_quotes.
    destruct (strip body) as [|x t]; [discriminate Hc |].
    injection Hc as Hc; subst x.
    rewrite !startswith_cons_ne by congruence. reflexivity.
Qed.

Lemma _strip_quotes_quoted_witness :
  In dquote [dquote; squote]
  /\ _strip_quotes ([dquote; dquote; dquote] ++ py " Text. "
                      ++ [dquote; dquote; dquote]) = strip (py " Text. ")
  /\ (head (py " Text. ") <> Some dquote ->
      _strip_quotes (dquote :: py " Text. " ++ [dquote])
        = strip (py " Text. "))
  /\ (forall c, head (strip (py " Text. ")) = Some c ->
        c <> dquote -> c <> squote ->
        _strip_quotes (py " Text. ") = strip (py " Text. ")).
Proof.
  split; [by left |].
  apply (_strip_quotes_quoted dquote (py " Text. ")). by left.
Defined.

(** * Decorators and comments before a node *)

Lemma decorators_loop_eq source_bytes decorator_type chain decorators :
  decorators_loop source_bytes decorator_type chain decorators
  = (texts ← node_texts source_bytes
               (take_while (fun c => str_eqb (Node.type c) decorator_type)
                  chain);
     Ok (rev (map strip texts) ++ decorators)).
Proof.
  revert decorators. induction chain as [|prev chain IH]; intros decorators.
  - reflexivity.
  - cbn [decorators_loop take_while].
    destruct (str_eqb (Node.type prev) decorator_type); [| reflexivity].
    cbn [node_texts]. destruct (node_text source_bytes prev) as [t|e];
      [| reflexivity].
    cbn. rewrite IH.
    destruct (node_texts source_bytes _) as [ts|e]; [| reflexivity].
    cbn. by rewrite <- app_assoc.
Qed.

Lemma preceding_comments_loop_eq source_bytes chain comments :
  preceding_comments_loop source_bytes chain comments
  = (texts ← node_texts source_bytes (take_while is_comment chain);
     Ok (rev texts ++ comments)).
Proof.
  revert comments. induction chain as [|prev chain IH]; intros comments.
  - reflexivity.
  - cbn [preceding_comments_loop take_while]. unfold is_comment at 1.
    destruct (list_mem _ (Node.type prev)); [| reflexivity].
    cbn [node_texts]. destruct (node_text source_bytes prev) as [t|e];
      [| reflexivity].
    cbn. rewrite IH.
    destruct (node_texts source_bytes _) as [ts|e]; [| reflexivity].
    cbn. by rewrite <- app_assoc.
Qed.

Lemma node_texts_length source_bytes ns texts :
  node_texts source_bytes ns = Ok texts -> length texts = length ns.
Proof.
  revert texts. induction ns as [|n ns IH]; intros texts H.
  - by inversion H.
  - cbn in H. apply bind_Ok in H as (t & _ & H).
    apply bind_Ok in H as (ts & Hts & H). inversion H; subst.
    cbn. f_equal. by apply IH.
Qed.

(** X9. The decorators of a node are the texts, with the white space at
    their ends removed, of the named siblings of the decorator type that
    stand directly before it, in the order of the source.  The run ends at
    the first named sibling of another type: when the nearest one is not a
    decorator there are no decorators, whatever stands before it.  A
    language without decorator type has none. *)
Theorem _extract_decorators_run prevs spec source_bytes :
  _extract_decorators prevs spec source_bytes
  = (texts ← node_texts source_bytes (decorator_nodes prevs spec);
     Ok (rev (map strip texts)))
  /\ (forall ds, _extract_decorators prevs spec source_bytes = Ok ds ->
        length ds = length (decorator_nodes prevs spec))
  /\ (forall decorator_type prev rest,
        decorator_node_type spec = Some decorator_type ->
        Node.prev_named_siblings prevs = prev :: rest ->
        Node.type prev <> decorator_type ->
        _extract_decorators prevs spec source_bytes = Ok [])
  /\ (decorator_node_type spec = None ->
        _extract_decorators prevs spec source_bytes = Ok []).
Proof.
  assert (_extract_decorators prevs spec source_bytes
          = (texts ← node_texts source_bytes (decorator_nodes prevs spec);
             Ok (rev (map strip texts)))) as Heq.
  { unfold _extract_decorators, decorator_nodes.
    destruct (decorator_node_type spec) as [[|c ty]|]; try reflexivity.
    rewrite decorators_loop_eq.
    destruct (node_texts source_bytes _) as [ts|e]; [| reflexivity].
    cbn. by rewrite app_nil_r. }
  split; [exact Heq |]. split; [| split].
  - intros ds H. rewrite Heq in H. apply bind_Ok in H as (ts & Hts & H).
    inversion H; subst. rewrite length_rev, length_map.
    by apply node_texts_length in Hts.
  - intros ty prev rest Hty Hprev Hne. rewrite Heq.
    unfold decorator_nodes. rewrite Hty, Hprev. cbn [take_while].
    destruct (str_eqb (Node.type prev) ty) eqn:E.
    + apply str_eqb_eq in E. by destruct Hne.
    + by destruct ty.
  - intros Hnone. unfold _extract_decorators. by rewrite Hnone.
Qed.

(** X10. The comment block before a node is made of the named siblings of
    type [comment], [line_comment] or [block_comment] that stand directly
    before it: their texts, in the order of the source, joined by newlines
    and then cleaned of their markers.  The run ends at the first named
    sibling of another type, and without any comment the result is the
    empty string. *)
Theorem _extract_preceding_comments_run prevs source_bytes :
  _extract_preceding_comments prevs source_bytes
  = (texts ← node_texts source_bytes
               (take_while is_comment (Node.prev_named_siblings prevs));
     Ok (match texts with
         | [] => []
         | _ => _clean_comment_markers (join [newline] (rev texts))
         end))
  /\ (forall prev rest,
        Node.prev_named_siblings prevs = prev :: rest ->
        is_comment prev = false ->
        _extract_preceding_comments prevs source_bytes = Ok [])
  /\ (Node.prev_named_siblings prevs = [] ->
        _extract_preceding_comments prevs source_bytes = Ok []).
Proof.
  assert (_extract_preceding_comments prevs source_bytes
          = (texts ← node_texts source_bytes
               (take_while is_comment (Node.prev_named_siblings prevs));
             Ok (match texts with
                 | [] => []
                 | _ => _clean_comment_markers (join [newline] (rev texts))
                 end))) as Heq.
  { unfold _extract_preceding_comments.
    rewrite preceding_comments_loop_eq.
    destruct (node_texts source_bytes _) as [ts|e]; [| reflexivity].
    cbn. rewrite app_nil_r.
    destruct ts as [|t ts]; [reflexivity |].
    destruct (rev (t :: ts)) as [|x l] eqn:E; [| reflexivity].
    apply (f_equal length) in E. rewrite length_rev in E. discriminate E. }
  split; [exact Heq |]. split.
  - intros prev rest Hprev Hno. rewrite Heq, Hprev. cbn [take_while].
    by rewrite Hno.
  - intros Hnil. by rewrite Heq, Hnil.
Qed.

(** * The fields of a language specification that the walk reads *)

Section WalkFields.
Variable ucd_case : codepoint -> Case.

Lemma same_walk_fields_own spec spec' source_bytes filename language prevs n
    symbols p :
  same_walk_fields spec spec' ->
  walk_symbol prevs n spec source_bytes filename language symbols p
  = walk_symbol prevs n spec' source_bytes filename language symbols p
  /\ walk_constant ucd_case n spec source_bytes filename language symbols p
     = walk_constant ucd_case n spec' source_bytes filename language symbols p.
Proof.
  intros (H1 & H2 & H3 & H4 & H5).
  destruct spec, spec'. cbn in H1, H2, H3, H4, H5. subst.
  split; reflexivity.
Qed.

(** X11. [_walk_tree] reads five fields of the language specification:
    [symbol_node_types], [name_fields], [docstring_strategy],
    [decorator_node_type] and [constant_patterns].  Two specifications that
    agree on these give the same result, Symbols or exception, on every
    tree: [param_fields], [return_type_fields], [container_node_types] and
    [type_patterns] have no effect on the Symbols. *)
Theorem _walk_tree_fields spec spec' source_bytes filename language prevs n
    symbols p :
  same_walk_fields spec spec' ->
  _walk_tree ucd_case prevs n spec source_bytes filename language symbols p
  = _walk_tree ucd_case prevs n spec' source_bytes filename language symbols p.
Proof.
  intros Hsame. revert prevs symbols p.
  induction n as [ty nm he sb eb sr er fl cs IH] using Node.t_ind.
  intros prevs symbols p. rewrite !_walk_tree_eq.
  destruct (same_walk_fields_own spec spec' source_bytes filename language
              prevs (Node.mk ty nm he sb eb sr er fl cs) symbols p Hsame)
    as [-> _].
  destruct (walk_symbol _ _ spec' _ _ _ _ _) as [[symbols' p']|e];
    [| reflexivity].
  cbn [mbind result_bind].
  destruct (same_walk_fields_own spec spec' source_bytes filename language
              prevs (Node.mk ty nm he sb eb sr er fl cs) symbols' p' Hsame)
    as [_ ->].
  destruct (walk_constant _ _ spec' _ _ _ _ _) as [symbols''|e];
    [| reflexivity].
  cbn [mbind result_bind Node.children].
  generalize (@nil Node.t) as prevs'. revert symbols''.
  induction IH as [|c cs Hc _ IHcs]; intros symbols'' prevs';
    [reflexivity |].
  cbn [walk_children]. rewrite Hc.
  destruct (_walk_tree _ _ c spec' _ _ _ _ _) as [symbols3|e];
    [| reflexivity].
  cbn [mbind result_bind]. apply IHcs.
Qed.

End WalkFields.

Lemma _walk_tree_fields_witness :
  same_walk_fields PYTHON_SPEC MoreInputs.python_bare
  /\ _walk_tree ascii_only [] Inputs.nested_tree PYTHON_SPEC Inputs.nested_src
       (py "a.py") (py "python") [] None
     = _walk_tree ascii_only [] Inputs.nested_tree MoreInputs.python_bare
         Inputs.nested_src (py "a.py") (py "python") [] None.
Proof.
  assert (same_walk_fields PYTHON_SPEC MoreInputs.python_bare) as H
    by (repeat split).
  split; [exact H |].
  exact (_walk_tree_fields ascii_only PYTHON_SPEC MoreInputs.python_bare
           Inputs.nested_src (py "a.py") (py "python") [] Inputs.nested_tree
           [] None H).
Defined.

(** * Summaries *)

Lemma split_on_head sep s :
  exists w ws t, split_on sep s = w :: ws /\ s = w ++ t /\ ~ In sep w.
Proof.
  induction s as [|c s (w & ws & t & IH & Hs & Hw)].
  - exists [], [], []. repeat split. intros [].
  - cbn [split_on]. destruct (N.eqb_spec c sep) as [->|Hne].
    + exists [], (split_on sep s), (sep :: s). repeat split. intros [].
    + rewrite IH. exists (c :: w), ws, t. repeat split.
      * by rewrite Hs at 1.
      * intros [H|H]; [by apply Hne | by apply Hw].
Qed.

Lemma str_index_before c s i :
  (i < str_index c s)%nat -> s !! i <> Some c.
Proof.
  revert i. induction s as [|d s IH]; intros i Hi; [by destruct i |].
  cbn [str_index] in Hi. destruct (N.eqb_spec d c) as [->|Hne]; [lia |].
  destruct i as [|i]; cbn.
  - congruence.
  - apply IH. lia.
Qed.

Lemma take_prefix {A} n (l : list A) : exists t, l = take n l ++ t.
Proof. exists (drop n l). by rewrite take_drop. Qed.

Lemma strip_prefix_of s :
  (forall c, head s = Some c -> Py_UNICODE_ISSPACE c = false) ->
  exists t, s = strip s ++ t.
Proof.
  intros H. unfold strip, lstrip_with. rewrite (drop_while_fixed _ s H).
  destruct (rstrip_with_prefix Py_UNICODE_ISSPACE s) as (t & Ht & _).
  by exists t.
Qed.

Lemma head_app_prefix {A} (l t : list A) c :
  head l = Some c -> head (l ++ t) = Some c.
Proof. by destruct l. Qed.

(** X12. The summary taken from a docstring has at most 120 characters and
    no newline; it does not begin with white space; a full stop can only be
    its last character; and it is the beginning of the docstring, the white
    space at the front of the docstring aside.  The empty docstring gives
    the empty summary. *)
Theorem extract_summary_from_docstring_shape docstring :
  let summary := extract_summary_from_docstring docstring in
  (length summary <= 120)%nat
  /\ ~ In newline summary
  /\ (forall c, head summary = Some c -> Py_UNICODE_ISSPACE c = false)
  /\ (forall i, summary !! i = Some full_stop -> S i = length summary)
  /\ (exists t, strip docstring = summary ++ t)
  /\ extract_summary_from_docstring [] = [].
Proof.
  cbn zeta. unfold extract_summary_from_docstring.
  destruct docstring as [|c0 docstring'].
  { split; [cbn; lia |]. split; [intros [] |].
    split; [intros c H; discriminate H |].
    split; [intros i H; destruct i; discriminate H |].
    split; [by exists [] | reflexivity]. }
  set (docstring := c0 :: docstring').
  destruct (split_on_head newline (strip docstring))
    as (w & ws & t & -> & Ht & Hw).
  cbn [hd].
  assert (forall c, head w = Some c -> Py_UNICODE_ISSPACE c = false) as Hhw.
  { intros c Hc. apply (strip_head docstring). rewrite Ht.
    by apply head_app_prefix. }
  destruct (strip_prefix_of w Hhw) as (t1 & Ht1).
  set (first_line := strip w) in *.
  assert (exists t2,
            first_line
            = (if mem_cp full_stop first_line
               then slice_to (str_index full_stop first_line + 1) first_line
               else first_line) ++ t2) as (t2 & Ht2).
  { destruct (mem_cp full_stop first_line); [apply take_prefix |].
    exists []. by rewrite app_nil_r. }
  set (cut := if mem_cp full_stop first_line
              then slice_to (str_index full_stop first_line + 1) first_line
              else first_line) in *.
  destruct (take_prefix 120 cut) as (t3 & Ht3).
  unfold slice_to at 1 2 3 4 5.
  assert (w = take 120 cut ++ (t3 ++ t2 ++ t1)) as Hpre.
  { rewrite app_assoc, <- Ht3, app_assoc, <- Ht2. exact Ht1. }
  split; [rewrite length_take; lia |]. split; [| split; [| split; [| split]]].
  - intros Hin. apply Hw. rewrite Hpre. apply in_app_iff. by left.
  - intros c Hc. apply Hhw. rewrite Hpre. by apply head_app_prefix.
  - intros i Hi.
    assert (i < length (take 120 cut))%nat as Hlt
      by (by apply lookup_lt_Some in Hi).
    assert (first_line !! i = Some full_stop) as Hfl.
    { rewrite Ht2, Ht3. rewrite <- app_assoc.
      by rewrite lookup_app_l by exact Hlt. }
    subst cut. destruct (mem_cp full_stop first_line) eqn:Hmem.
    + unfold slice_to in *.
      destruct (decide (i < str_index full_stop first_line)%nat) as [Hb|Hb].
      { by apply str_index_before in Hb. }
      rewrite !length_take in *. lia.
    + exfalso. assert (mem_cp full_stop first_line = true) as Habs.
      { apply mem_cp_In. apply list_elem_of_In.
        by apply list_elem_of_lookup_2 in Hfl. }
      congruence.
  - exists (t3 ++ t2 ++ t1 ++ t). rewrite Ht, Hpre.
    by rewrite <- !app_assoc.
  - reflexivity.
Qed.

Lemma signature_fallback_nonempty symbol : signature_fallback symbol <> [].
Proof.
  unfold signature_fallback.
  destruct (str_eqb _ _); [discriminate |].
  destruct (str_eqb _ _); [discriminate |].
  destruct (str_eqb _ _); [discriminate |].
  destruct (Symbol.signature symbol) as [|c sig] eqn:E.
  - intros H. apply (f_equal length) in H. rewrite !length_app in H.
    cbn in H. lia.
  - discriminate.
Qed.

Lemma fallback_step_summary sym : Symbol.summary (fallback_step sym) <> [].
Proof.
  unfold fallback_step. destruct (Symbol.summary sym) eqn:E.
  - apply signature_fallback_nonempty.
  - rewrite E. discriminate.
Qed.

Lemma fallback_step_fixed sym :
  Symbol.summary sym <> [] -> fallback_step sym = sym.
Proof. unfold fallback_step. by destruct (Symbol.summary sym). Qed.

Lemma fallback_docstring_step sym :
  fallback_step (docstring_step sym) = summarize_simple_step sym.
Proof.
  unfold fallback_step, docstring_step, summarize_simple_step.
  destruct (Symbol.summary sym) eqn:Hsum;
    destruct (Symbol.docstring sym) eqn:Hdoc; cbn; rewrite ?Hsum; reflexivity.
Qed.

(** X13. [summarize_symbols_simple] gives every Symbol a summary that is
    not empty and changes no other field.  A summary that is there is
    kept; otherwise the summary is the one taken from the docstring, and
    when there is no docstring or nothing can be taken from it, the one
    made from the signature. *)
Theorem summarize_symbols_simple_spec symbols :
  Forall2
    (fun sym new =>
       Symbol.summary new <> []
       /\ new = set_summary sym (Symbol.summary new)
       /\ (Symbol.summary sym <> [] -> new = sym)
       /\ (Symbol.summary sym = [] ->
           Symbol.summary new
           = match extract_summary_from_docstring (Symbol.docstring sym) with
             | [] => signature_fallback sym
             | summary => summary
             end))
    symbols (summarize_symbols_simple symbols).
Proof.
  unfold summarize_symbols_simple.
  induction symbols as [|sym symbols IH]; cbn [map]; constructor;
    [| exact IH].
  unfold summarize_simple_step.
  destruct sym as [id file name qn kind lang sig doc sum decs kws par line
                   el bo bl].
  cbn -[extract_summary_from_docstring signature_fallback].
  destruct sum as [|c sum];
    cbn -[extract_summary_from_docstring signature_fallback].
  - destruct doc as [|d doc];
      cbn -[extract_summary_from_docstring signature_fallback].
    + repeat split; try done. apply signature_fallback_nonempty.
    + destruct (extract_summary_from_docstring (d :: doc)) eqn:E;
        cbn -[extract_summary_from_docstring signature_fallback].
      * repeat split; try done. apply signature_fallback_nonempty.
      * repeat split; done.
  - repeat split; done.
Qed.

(** X14. [summarize_symbols] leaves no Symbol without summary, whatever
    the batch summarizer returns.  Without the batch summarizer
    ([use_ai=False]), and with a batch summarizer that has no client, it
    gives what [summarize_symbols_simple] gives. *)
Theorem summarize_symbols_tiers summarize_batch symbols use_ai :
  Forall (fun sym => Symbol.summary sym <> [])
    (summarize_symbols summarize_batch symbols use_ai)
  /\ summarize_symbols summarize_batch symbols false
     = summarize_symbols_simple symbols
  /\ summarize_symbols summarize_batch_no_client symbols true
     = summarize_symbols_simple symbols.
Proof.
  unfold summarize_symbols, summarize_symbols_simple. split; [| split].
  - apply List.Forall_forall. intros sym Hin.
    apply in_map_iff in Hin as (x & <- & _). apply fallback_step_summary.
  - rewrite map_map. apply map_ext. intros sym.
    apply fallback_docstring_step.
  - unfold summarize_batch_no_client. rewrite !map_map. apply map_ext.
    intros sym. rewrite fallback_step_fixed by apply fallback_step_summary.
    apply fallback_docstring_step.
Qed.

Lemma _parse_response_loop_spec int lines expected_count summaries :
  Forall (fun e => strip e = e) summaries ->
  length (_parse_response_loop int lines expected_count summaries)
    = length summaries
  /\ Forall (fun e => strip e = e)
       (_parse_response_loop int lines expected_count summaries).
Proof.
  revert summaries. induction lines as [|line lines IH]; intros summaries H.
  - by split.
  - cbn [_parse_response_loop].
    destruct (strip line) as [|c l]; [by apply IH |].
    destruct (mem_cp full_stop (c :: l)); [| by apply IH].
    destruct (split_once full_stop (c :: l)) as [part0 part1].
    destruct (int (strip part0)) as [num|]; [| by apply IH].
    destruct (_ && _)%Z; [| by apply IH].
    destruct (IH (<[Z.to_nat (num - 1) := strip part1]> summaries))
      as [Hlen Hall].
    { apply Forall_insert; [exact H | apply strip_strip]. }
    split; [| exact Hall]. by rewrite Hlen, length_insert.
Qed.

(** X15. [_parse_response] returns as many summaries as it is asked for,
    whatever the text of the answer and whatever [int] makes of the
    numbers in it; none of them has white space at its ends. *)
Theorem _parse_response_length int text expected_count :
  length (_parse_response int text expected_count) = expected_count
  /\ Forall (fun e => strip e = e) (_parse_response int text expected_count).
Proof.
  unfold _parse_response.
  destruct (_parse_response_loop_spec int (split_on newline text)
              expected_count (replicate expected_count []))
    as [Hlen Hall].
  { apply Forall_replicate. reflexivity. }
  split; [| exact Hall]. by rewrite Hlen, length_replicate.
Qed.

(** * The skip list *)

Lemma contains_spec s sub :
  contains s sub = true <-> exists pre post, s = pre ++ sub ++ post.
Proof.
  induction s as [|c s IH]; cbn [contains].
  - rewrite orb_false_r, startswith_prefix. split.
    + intros (t & Ht). exists [], t. exact Ht.
    + intros (pre & post & H). destruct pre; [| discriminate H].
      by exists post.
  - rewrite orb_true_iff, startswith_prefix, IH. split.
    + intros [(t & Ht) | (pre & post & Ht)].
      * exists [], t. exact Ht.
      * exists (c :: pre), post. by rewrite Ht.
    + intros (pre & post & H). destruct pre as [|d pre].
      * left. by exists post.
      * right. injection H as _ H. by exists pre, post.
Qed.

(** X16. A path is skipped exactly when one of the skip patterns occurs
    somewhere in it, as a run of characters: the patterns are not tied to
    the parts of the path, so that a path stays skipped whatever is put
    before or after it.  For a local folder the backslashes of the path are
    first replaced by slashes; the list of patterns is the same. *)
Theorem should_skip_file_substring path :
  (index_repo.should_skip_file path = true
   <-> exists pattern pre post,
         In pattern index_repo.SKIP_PATTERNS
         /\ path = pre ++ pattern ++ post)
  /\ (forall pre post,
        index_repo.should_skip_file path = true ->
        index_repo.should_skip_file (pre ++ path ++ post) = true)
  /\ index_folder.should_skip_file path
     = index_repo.should_skip_file
         (replace_char index_folder.backslash index_folder.slash path)
  /\ (~ In index_folder.backslash path ->
      index_folder.should_skip_file path = index_repo.should_skip_file path).
Proof.
  assert (forall p,
            index_repo.should_skip_file p = true
            <-> exists pattern pre post,
                  In pattern index_repo.SKIP_PATTERNS
                  /\ p = pre ++ pattern ++ post) as Hspec.
  { intros p. unfold index_repo.should_skip_file.
    rewrite existsb_exists. split.
    - intros (pattern & Hin & Hc). apply contains_spec in Hc
        as (pre & post & Hc). by exists pattern, pre, post.
    - intros (pattern & pre & post & Hin & Hp). exists pattern.
      split; [exact Hin |]. apply contains_spec. by exists pre, post. }
  split; [apply Hspec |]. split; [| split].
  - intros pre post H. apply Hspec in H as (pattern & a & b & Hin & ->).
    apply Hspec. exists pattern, (pre ++ a), (b ++ post).
    split; [exact Hin |]. by rewrite <- !app_assoc.
  - reflexivity.
  - intros Hno. unfold index_folder.should_skip_file.
    by rewrite replace_char_fixed.
Qed.

(** X17. Every file extension that the indexers accept belongs to a
    language of the registry, whose specification names the parser of that
    language; and every language of the registry has an extension. *)
Theorem extensions_and_registry :
  (forall ext language,
     dict_get LANGUAGE_EXTENSIONS ext = Some language ->
     exists spec,
       dict_get LANGUAGE_REGISTRY language = Some spec
       /\ ts_language spec = language)
  /\ (forall language spec,
        dict_get LANGUAGE_REGISTRY language = Some spec ->
        exists ext, dict_get LANGUAGE_EXTENSIONS ext = Some language).
Proof.
  split.
  - intros ext language H. apply dict_get_In in H.
    unfold LANGUAGE_EXTENSIONS in H. cbn [In] in H.
    repeat (destruct H as [H | H];
            [injection H as _ <-; eexists; split; reflexivity |]).
    destruct H.
  - intros language spec H. apply registry_spec in H.
    destruct H as [[-> _]|[[-> _]|[[-> _]|[[-> _]|[[-> _]|[-> _]]]]]].
    + by exists (py ".py").
    + by exists (py ".js").
    + by exists (py ".ts").
    + by exists (py ".go").
    + by exists (py ".rs").
    + by exists (py ".java").
Qed.

(** * Looking a Symbol up in an index *)

Lemma find_first {A} (f : A -> bool) (l : list A) :
  match List.find f l with
  | Some x =>
    exists before after,
      l = before ++ x :: after /\ f x = true
      /\ Forall (fun y => f y = false) before
  | None => Forall (fun y => f y = false) l
  end.
Proof.
  induction l as [|a l IH]; cbn [List.find]; [constructor |].
  destruct (f a) eqn:E.
  - exists [], l. repeat split; [exact E | constructor].
  - destruct (List.find f l) as [x|].
    + destruct IH as (before & after & -> & Hx & Hb).
      exists (a :: before), after. repeat split; [exact Hx |].
      by constructor.
    + by constructor.
Qed.

(** X18. [get_symbol] returns the first Symbol of the index that has the
    identifier asked for, and [None] when there is none: of two Symbols
    with the same identifier the second cannot be looked up.  When the
    identifiers of the index are pairwise distinct, every Symbol is found
    under its identifier. *)
Theorem get_symbol_first index symbol_id :
  match CodeIndex.get_symbol index symbol_id with
  | Some sym =>
    exists before after,
      CodeIndex.symbols index = before ++ sym :: after
      /\ Symbol.id sym = symbol_id
      /\ Forall (fun x => Symbol.id x <> symbol_id) before
  | None => ~ In symbol_id (map Symbol.id (CodeIndex.symbols index))
  end
  /\ (NoDup (map Symbol.id (CodeIndex.symbols index)) ->
      forall sym, In sym (CodeIndex.symbols index) ->
        CodeIndex.get_symbol index (Symbol.id sym) = Some sym).
Proof.
  unfold CodeIndex.get_symbol. split.
  - pose proof (find_first (fun sym => str_eqb (Symbol.id sym) symbol_id)
                  (CodeIndex.symbols index)) as H.
    destruct (List.find _ _) as [sym|].
    + destruct H as (before & after & Hl & Hx & Hb).
      exists before, after. repeat split; [exact Hl | by apply str_eqb_eq |].
      eapply List.Forall_impl; [| exact Hb].
      intros a Ha. by apply str_eqb_neq.
    + intros Hin. apply in_map_iff in Hin as (x & Hx & Hin).
      rewrite List.Forall_forall in H. specialize (H x Hin).
      apply str_eqb_neq in H. by apply H.
  - intros Hnd sym Hin.
    pose proof (find_first (fun x => str_eqb (Symbol.id x) (Symbol.id sym))
                  (CodeIndex.symbols index)) as H.
    destruct (List.find _ _) as [x|].
    + destruct H as (before & after & Hl & Hx & _).
      apply str_eqb_eq in Hx. f_equal.
      apply (same_id_same_symbol (CodeIndex.symbols index)); auto.
      rewrite Hl. apply in_app_iff. right. by left.
    + rewrite List.Forall_forall in H. specialize (H sym Hin).
      apply str_eqb_neq in H. by destruct H.
Qed.

(** * Reading the source of a Symbol *)

Section Content.
Variable ucd_case : codepoint -> Case.

Lemma emitted_position spec source_bytes filename language root n s :
  emitted ucd_case spec source_bytes filename language root n s ->
  Symbol.file s = filename
  /\ Symbol.byte_offset s = Z.of_nat (Node.start_byte n)
  /\ Symbol.byte_length s
     = (Z.of_nat (Node.end_byte n) - Z.of_nat (Node.start_byte n))%Z.
Proof.
  intros Hem. destruct Hem as [prevs p n s _ _ Hx | prevs n s _ _ Hc].
  - apply _extract_symbol_inv in Hx
      as (name & _ & _ & _ & _ & _ & _ & Hf & _ & _ & _ & _ & _ & Ho & Hl).
    by repeat split.
  - apply _extract_constant_inv in Hc
      as (l & name & text & _ & _ & _ & _ & _ & _ & ->).
    by repeat split.
Qed.

Lemma seek_read_range content (a b : nat) :
  (a <= b)%nat ->
  IndexStore.seek_read content (Z.of_nat a) (Z.of_nat b - Z.of_nat a)
  = Returns (slice_bytes content a b).
Proof.
  intros Hab. unfold IndexStore.seek_read, slice_bytes.
  destruct (Z.ltb_spec (Z.of_nat a) 0); [lia |].
  destruct (Z.eqb_spec (Z.of_nat b - Z.of_nat a) (-1)); [lia |].
  destruct (Z.ltb_spec (Z.of_nat b - Z.of_nat a) (-1)); [lia |].
  rewrite Nat2Z.id. do 2 f_equal. lia.
Qed.

(** X19. Reading a Symbol back by its byte offset gives the text of the
    node it was made from.  Let the index hold, as the first Symbol with
    its identifier, a Symbol of a result of [parse_file], with any summary,
    and let the stored file have the bytes that were parsed.  Then
    [get_symbol_content] returns the decoded bytes of the node the Symbol
    was emitted for, from its start byte to its end byte, and raises
    [UnicodeDecodeError] when these bytes cannot be decoded. *)
Theorem get_symbol_content_node_text root source_bytes filename language spec
    syms index file_bytes s stored :
  dict_get LANGUAGE_REGISTRY language = Some spec ->
  parse_file ucd_case root source_bytes filename language = Ok syms ->
  In s syms ->
  CodeIndex.get_symbol index (Symbol.id s) = Some stored ->
  stored = set_summary s (Symbol.summary stored) ->
  file_bytes filename = Some source_bytes ->
  exists n,
    emitted ucd_case spec source_bytes filename language root n s
    /\ ((Node.start_byte n <= Node.end_byte n)%nat ->
        IndexStore.get_symbol_content (Some index) file_bytes (Symbol.id s)
        = match node_text source_bytes n with
          | Ok text => Returns (Some text)
          | Raise e => Raises (DecodeError e)
          end).
Proof.
  intros Hreg Hparse Hs Hget Hstored Hfile.
  pose proof (parse_file_sound _ _ _ _ _ _ _ Hreg Hparse) as Hall.
  rewrite List.Forall_forall in Hall. destruct (Hall s Hs) as [n Hem].
  exists n. split; [exact Hem |]. intros Hle.
  destruct (emitted_position _ _ _ _ _ _ _ Hem) as (Hf & Ho & Hl).
  unfold IndexStore.get_symbol_content. rewrite Hget, Hstored.
  cbn [set_summary Symbol.file Symbol.byte_offset Symbol.byte_length].
  rewrite Hf, Hfile, Ho, Hl, (seek_read_range _ _ _ Hle).
  unfold node_text, decode_range.
  by destruct (decode_utf8 _).
Qed.

End Content.

Lemma get_symbol_content_node_text_witness :
  dict_get LANGUAGE_REGISTRY (py "python") = Some PYTHON_SPEC
  /\ parse_file ascii_only Inputs.nested_tree Inputs.nested_src (py "a.py")
       (py "python") = Ok Inputs.nested_symbols
  /\ In MoreInputs.method_c Inputs.nested_symbols
  /\ CodeIndex.get_symbol MoreInputs.nested_index
       (Symbol.id MoreInputs.method_c) = Some MoreInputs.method_c
  /\ MoreInputs.method_c
     = set_summary MoreInputs.method_c (Symbol.summary MoreInputs.method_c)
  /\ MoreInputs.nested_files (py "a.py") = Some Inputs.nested_src
  /\ exists n,
       emitted ascii_only PYTHON_SPEC Inputs.nested_src (py "a.py")
         (py "python") Inputs.nested_tree n MoreInputs.method_c
       /\ ((Node.start_byte n <= Node.end_byte n)%nat ->
           IndexStore.get_symbol_content (Some MoreInputs.nested_index)
             MoreInputs.nested_files (Symbol.id MoreInputs.method_c)
           = match node_text Inputs.nested_src n with
             | Ok text => Returns (Some text)
             | Raise e => Raises (DecodeError e)
             end).
Proof.
  assert (In MoreInputs.method_c Inputs.nested_symbols) as Hin
    by (vm_compute; tauto).
  split; [reflexivity |]. split; [vm_compute; reflexivity |].
  split; [exact Hin |]. split; [vm_compute; reflexivity |].
  split; [reflexivity |]. split; [reflexivity |].
  apply (get_symbol_content_node_text ascii_only Inputs.nested_tree
           Inputs.nested_src (py "a.py") (py "python") PYTHON_SPEC
           Inputs.nested_symbols MoreInputs.nested_index
           MoreInputs.nested_files MoreInputs.method_c MoreInputs.method_c).
  - reflexivity.
  - vm_compute; reflexivity.
  - exact Hin.
  - vm_compute; reflexivity.
  - reflexivity.
  - reflexivity.
Defined.

(** * The outline of a list in outline order *)

Section FlattenLast.
Implicit Types (heap : gmap (list N) SymbolNode.t) (nodes : list (list N)).

Lemma flatten_tree_depth heap fuel :
  forall nodes depth out,
    flatten_tree fuel heap nodes depth = Some out ->
    Forall (fun e => (depth <= snd e)%nat) out.
Proof.
  induction fuel as [|fuel IH]; intros nodes; [discriminate |].
  induction nodes as [|r nodes IHn]; intros depth out H.
  - rewrite flatten_tree_nil in H. inversion H. constructor.
  - rewrite flatten_tree_cons in H.
    destruct (heap !! r) as [node|]; [| discriminate].
    cbn [mbind option_bind] in H.
    destruct (flatten_tree fuel heap _ _) as [sub|] eqn:Hsub;
      [| discriminate].
    cbn [mbind option_bind] in H.
    destruct (flatten_tree (S fuel) heap nodes depth) as [rest|] eqn:Hrest;
      [| discriminate].
    cbn [mbind option_bind] in H. inversion H; subst out; clear H.
    constructor; [cbn; lia |]. apply Forall_app. split.
    + eapply List.Forall_impl; [| exact (IH _ _ _ Hsub)].
      intros e He. cbn in He. lia.
    + by apply IHn.
Qed.

(** A new leaf [sid] under [p], when everything after [p] in the flattened
    list is deeper than [p]: the new entry comes last. *)
Lemma flatten_tree_add_last heap heap' p sid s :
  heap !! sid = None ->
  heap' !! sid = Some (SymbolNode.mk s []) ->
  (forall k, k <> sid ->
     heap' !! k = with_last_child p sid k <$> heap !! k) ->
  (forall k n, heap !! k = Some n -> Symbol.id (SymbolNode.symbol n) = k) ->
  forall fuel nodes depth out l1 q dq l2,
    flatten_tree fuel heap nodes depth = Some out ->
    NoDup (ids_of out) ->
    out = l1 ++ (q, dq) :: l2 -> Symbol.id q = p ->
    Forall (fun e => (dq < snd e)%nat) l2 ->
    flatten_tree (S fuel) heap' nodes depth = Some (out ++ [(s, S dq)]).
Proof.
  intros Hsid Hsid' Hother Hkey.
  pose proof (flatten_tree_add_leaf heap heap' p sid s Hsid Hsid' Hother
                Hkey) as Hleaf.
  induction fuel as [|fuel IH]; intros nodes depth out l1 q dq l2;
    [discriminate |].
  revert out l1. induction nodes as [|r nodes IHn];
    intros out l1 H Hnd Hout Hq Hl2.
  { rewrite flatten_tree_nil in H. injection H as <-.
    destruct l1; discriminate Hout. }
  rewrite flatten_tree_cons in H.
  destruct (heap !! r) as [node|] eqn:Hr; [| discriminate].
  cbn [mbind option_bind] in H.
  destruct (flatten_tree fuel heap _ _) as [sub|] eqn:Hsub; [| discriminate].
  cbn [mbind option_bind] in H.
  destruct (flatten_tree (S fuel) heap nodes depth) as [rest|] eqn:Hrest;
    [| discriminate].
  cbn [mbind option_bind] in H. injection H as <-.
  assert (r <> sid) as Hrs by (intros ->; congruence).
  pose proof (Hkey _ _ Hr) as Hid.
  change (ids_of ((SymbolNode.symbol node, depth) :: sub ++ rest))
    with (Symbol.id (SymbolNode.symbol node) :: ids_of (sub ++ rest)) in Hnd.
  rewrite ids_of_app, Hid in Hnd.
  apply NoDup_cons in Hnd as [Hr_notin Hnd].
  apply NoDup_app in Hnd as (Hnd_sub & Hdisj & Hnd_rest).
  rewrite list_elem_of_In, in_app_iff in Hr_notin.
  setoid_rewrite list_elem_of_In in Hdisj.
  destruct (Hleaf _ _ _ _ Hsub Hnd_sub) as [_ Hsub_same].
  rewrite (flatten_tree_cons (S fuel)), (Hother r Hrs), Hr.
  cbn [fmap option_fmap option_map mbind option_bind].
  assert (forall k,
            rest = k ++ (q, dq) :: l2 ->
            (let node' := with_last_child p sid r node in
             sub' ← flatten_tree (S fuel) heap' (SymbolNode.children node')
                      (S depth);
             rest' ← flatten_tree (S (S fuel)) heap' nodes depth;
             Some ((SymbolNode.symbol node', depth) :: sub' ++ rest'))
            = Some (((SymbolNode.symbol node, depth) :: sub ++ rest)
                    ++ [(s, S dq)])) as Hin_rest.
  { intros k Hk.
    assert (In p (ids_of rest)) as Hp.
    { rewrite Hk, ids_of_app, in_app_iff. right. left. exact Hq. }
    assert (r <> p) as Hrp by (intros ->; tauto).
    assert (~ In p (ids_of sub)) as Hps
      by (intros Hp'; eapply Hdisj; eauto).
    cbn zeta. unfold with_last_child.
    rewrite bool_decide_eq_false_2 by exact Hrp.
    rewrite (Hsub_same Hps). cbn [mbind option_bind].
    rewrite (IHn rest k eq_refl Hnd_rest Hk Hq Hl2).
    cbn [mbind option_bind]. by rewrite <- app_comm_cons, <- app_assoc. }
  change ((SymbolNode.symbol node, depth) :: sub ++ rest)
    with (((SymbolNode.symbol node, depth) :: sub) ++ rest) in Hout.
  apply app_eq_inv in Hout as [(k & Hk1 & Hk2) | (k & Hk1 & Hk2)].
  2:{ (* the parent is in the flattened list of the later nodes *)
      by apply (Hin_rest k). }
  destruct k as [|e k].
  { apply (Hin_rest []). by rewrite Hk2. }
  (* the parent is the first node or below it: no node comes after *)
  cbn [app] in Hk2. injection Hk2 as <- ->.
  assert (depth <= dq)%nat as Hdq.
  { pose proof (flatten_tree_depth _ _ _ _ _ Hsub) as Hge.
    assert (In (q, dq) ((SymbolNode.symbol node, depth) :: sub)) as Hin.
    { rewrite Hk1. apply in_app_iff. right. by left. }
    destruct Hin as [E | Hin]; [inversion E; lia |].
    rewrite List.Forall_forall in Hge. apply Hge in Hin. cbn in Hin. lia. }
  destruct nodes as [|r' nodes].
  2:{ exfalso. rewrite flatten_tree_cons in Hrest.
      destruct (heap !! r') as [node'|]; [| discriminate].
      cbn [mbind option_bind] in Hrest.
      destruct (flatten_tree fuel heap _ _); [| discriminate].
      cbn [mbind option_bind] in Hrest.
      destruct (flatten_tree (S fuel) heap nodes depth); [| discriminate].
      cbn [mbind option_bind] in Hrest. inversion Hrest; subst rest.
      apply Forall_app in Hl2 as [_ Hl2]. inversion Hl2; subst.
      cbn in *. lia. }
  rewrite flatten_tree_nil in Hrest. inversion Hrest; subst rest.
  rewrite flatten_tree_nil. rewrite app_nil_r in *.
  destruct l1 as [|e l1]; cbn [app] in Hk1.
  + (* the first node is the parent *)
    injection Hk1 as Hnode -> ->.
    assert (r = p) as -> by (rewrite <- Hid, Hnode; exact Hq).
    unfold with_last_child. rewrite bool_decide_eq_true_2 by reflexivity.
    cbn [SymbolNode.symbol SymbolNode.children].
    assert (~ In p (ids_of k)) as Hps by tauto.
    assert (flatten_tree (S fuel) heap' (SymbolNode.children node ++ [sid])
              (S dq) = Some (k ++ [(s, S dq)])) as ->.
    { rewrite flatten_tree_app, (Hsub_same Hps).
      cbn [mbind option_bind].
      rewrite flatten_tree_cons, Hsid'. cbn [mbind option_bind].
      destruct fuel as [|fuel']; [discriminate Hsub |].
      rewrite !flatten_tree_nil. reflexivity. }
    cbn [mbind option_bind]. by rewrite app_nil_r.
  + (* the parent is below the first node *)
    injection Hk1 as <- ->.
    assert (In p (ids_of (l1 ++ (q, dq) :: k))) as Hp.
    { rewrite ids_of_app, in_app_iff. right. left. exact Hq. }
    assert (r <> p) as Hrp by (intros ->; tauto).
    unfold with_last_child. rewrite bool_decide_eq_false_2 by exact Hrp.
    rewrite (IH _ _ _ l1 q dq k Hsub Hnd_sub eq_refl Hq Hl2).
    cbn [mbind option_bind]. by rewrite app_nil_r.
Qed.

End FlattenLast.

Section NestedOutline.
Implicit Types (symbols : list Symbol.t) (out : list (Symbol.t * nat)).

Lemma ids_of_fst out : ids_of out = map Symbol.id (map fst out).
Proof. unfold ids_of. by rewrite map_map. Qed.

Lemma nested_parents_earlier out : nested out -> parents_earlier (map fst out).
Proof.
  induction 1 as [|out s _ IH Hpl|out l1 q dq l2 s _ IH Hout _ Hpar _].
  - intros i s p Hi. discriminate Hi.
  - rewrite map_app. apply parents_earlier_snoc; [exact IH |].
    intros p Hp. cbn in Hp. congruence.
  - rewrite map_app. apply parents_earlier_snoc; [exact IH |].
    intros p Hp. cbn in Hp. exists q. split; [| congruence].
    rewrite Hout, map_app. apply in_app_iff. right. by left.
Qed.

(** The store of a list and the store of the list with one more Symbol *)
Lemma build_snoc symbols s :
  NoDup (map Symbol.id (symbols ++ [s])) ->
  parents_earlier (symbols ++ [s]) ->
  exists heap heap',
    build_symbol_tree symbols
      = (heap, map Symbol.id (List.filter parentless symbols))
    /\ build_symbol_tree (symbols ++ [s])
       = (heap', map Symbol.id (List.filter parentless (symbols ++ [s])))
    /\ heap !! Symbol.id s = None
    /\ heap' !! Symbol.id s = Some (SymbolNode.mk s [])
    /\ (forall k n, heap !! k = Some n ->
          Symbol.id (SymbolNode.symbol n) = k)
    /\ (parentless s = true -> heap ⊆ heap')
    /\ (forall c p, Symbol.parent s = Some (c :: p) ->
        forall k, k <> Symbol.id s ->
          heap' !! k
          = with_last_child (c :: p) (Symbol.id s) k <$> heap !! k).
Proof.
  intros Hnd Hpe.
  pose proof Hnd as Hnd'. rewrite map_app in Hnd'.
  apply NoDup_app in Hnd' as (Hnd0 & Hfresh & _).
  pose proof (parents_earlier_prefix _ _ Hpe) as Hpe0.
  destruct (build_symbol_tree_spec _ Hnd0 Hpe0) as (heap & Hb & Hin & Hout).
  destruct (build_symbol_tree_spec _ Hnd Hpe) as (heap' & Hb' & Hin' & Hout').
  exists heap, heap'. split; [exact Hb |]. split; [exact Hb' |].
  assert (~ In (Symbol.id s) (map Symbol.id symbols)) as Hs_new.
  { intros H. apply list_elem_of_In in H. apply (Hfresh _ H).
    apply list_elem_of_In. by left. }
  assert (In s (symbols ++ [s])) as Hs_in.
  { apply in_app_iff. right. by left. }
  assert (forall x, In x symbols -> In x (symbols ++ [s])) as Hold
    by (intros; apply in_app_iff; by left).
  pose proof (fun x => last_is_no_parent symbols s x Hnd Hpe) as Hnp.
  split; [by apply Hout |]. split; [| split; [| split]].
  - rewrite (Hin' s Hs_in), children_of_none; [reflexivity |].
    intros x Hx. by apply Hnp.
  - intros k n Hk.
    destruct (In_ids_dec k symbols) as [Hk_in | Hk_out].
    + apply in_map_iff in Hk_in as (q & <- & Hq).
      rewrite (Hin q Hq) in Hk. by inversion Hk.
    + rewrite (Hout k Hk_out) in Hk. discriminate Hk.
  - intros Hpl.
    assert (forall k, children_of [s] k = []) as Hlast.
    { intros k. rewrite children_of_last. unfold parentless in Hpl.
      by destruct (Symbol.parent s) as [[|c p]|]. }
    apply map_subseteq_spec. intros k n Hk.
    destruct (In_ids_dec k symbols) as [Hk_in | Hk_out].
    + apply in_map_iff in Hk_in as (q & <- & Hq).
      rewrite (Hin q Hq) in Hk. rewrite (Hin' q (Hold q Hq)).
      by rewrite children_of_app, Hlast, app_nil_r.
    + rewrite (Hout k Hk_out) in Hk. discriminate Hk.
  - intros c p Hpar k Hk.
    destruct (In_ids_dec k symbols) as [Hk_in | Hk_out].
    + apply in_map_iff in Hk_in as (q & <- & Hq).
      rewrite (Hin q Hq), (Hin' q (Hold q Hq)).
      rewrite children_of_app, children_of_last, Hpar.
      unfold with_last_child. cbn [fmap option_fmap option_map].
      case_bool_decide; cbn [SymbolNode.symbol SymbolNode.children].
      * by rewrite map_app.
      * by rewrite app_nil_r.
    + rewrite (Hout k Hk_out). apply Hout'.
      rewrite map_app, in_app_iff. cbn. intros [H | [H | []]]; auto.
Qed.

(** The flattened tree of a list in outline order is the list itself. *)
Lemma nested_flatten out :
  nested out -> NoDup (ids_of out) ->
  flatten_tree (S (length out)) (build_symbol_tree (map fst out)).1
    (build_symbol_tree (map fst out)).2 0 = Some out.
Proof.
  intros Hn.
  induction Hn as [|out s Hn IH Hpar|out l1 q dq l2 s Hn IH Hout Hl2 Hpar Hne];
    intros Hnd.
  - reflexivity.
  - (* a new root *)
    pose proof (nested_parents_earlier _ (nested_root _ _ Hn Hpar)) as Hpe.
    rewrite ids_of_fst in Hnd. rewrite map_app in Hnd, Hpe.
    cbn [map fst] in Hnd, Hpe.
    destruct (build_snoc _ _ Hnd Hpe)
      as (heap & heap' & Hb & Hb' & _ & Hs' & _ & Hsub & _).
    assert (parentless s = true) as Hpl
      by (unfold parentless; by rewrite Hpar).
    assert (NoDup (ids_of out)) as Hnd0.
    { rewrite ids_of_fst. rewrite map_app in Hnd.
      by apply NoDup_app in Hnd as (Hnd & _). }
    specialize (IH Hnd0). rewrite Hb in IH. cbn [fst snd] in IH.
    rewrite map_app. cbn [map fst]. rewrite Hb'. cbn [fst snd].
    rewrite List.filter_app, map_app. cbn [List.filter]. rewrite Hpl.
    cbn [map]. rewrite length_app. cbn [length]. rewrite Nat.add_1_r.
    rewrite flatten_tree_app.
    destruct (flatten_tree_more _ _ _ _ _ _ (Hsub Hpl) IH) as [-> _].
    cbn [mbind option_bind].
    rewrite flatten_tree_cons, Hs'. cbn [mbind option_bind].
    rewrite !flatten_tree_nil. reflexivity.
  - (* a new leaf, after everything below its parent *)
    pose proof (nested_parents_earlier _
                  (nested_child _ _ _ _ _ _ Hn Hout Hl2 Hpar Hne)) as Hpe.
    rewrite ids_of_fst in Hnd. rewrite map_app in Hnd, Hpe.
    cbn [map fst] in Hnd, Hpe.
    destruct (build_snoc _ _ Hnd Hpe)
      as (heap & heap' & Hb & Hb' & Hs & Hs' & Hkey & _ & Hother).
    destruct (Symbol.id q) as [|c p] eqn:Hq; [by destruct Hne |].
    assert (parentless s = false) as Hpl
      by (unfold parentless; by rewrite Hpar).
    assert (NoDup (ids_of out)) as Hnd0.
    { rewrite ids_of_fst. rewrite map_app in Hnd.
      by apply NoDup_app in Hnd as (Hnd & _). }
    specialize (IH Hnd0). rewrite Hb in IH. cbn [fst snd] in IH.
    rewrite map_app. cbn [map fst]. rewrite Hb'. cbn [fst snd].
    rewrite List.filter_app, map_app. cbn [List.filter]. rewrite Hpl.
    cbn [map]. rewrite app_nil_r, length_app. cbn [length].
    rewrite Nat.add_1_r.
    exact (flatten_tree_add_last heap heap' (c :: p) (Symbol.id s) s Hs Hs'
             (Hother c p Hpar) Hkey _ _ _ _ l1 q dq l2 IH Hnd0 Hout Hq Hl2).
Qed.

End NestedOutline.

(** X20. Building the tree of a list that is in outline order and
    flattening it gives the list back, each Symbol at its depth: the
    Symbols come out in the order they went in.  This holds for pairwise
    distinct identifiers, and the recursion is no deeper than the list is
    long. *)
Theorem outline_of_nested out :
  nested out -> NoDup (ids_of out) ->
  forall fuel, (length out < fuel)%nat ->
    outline fuel (map fst out) = Some out.
Proof.
  intros Hn Hnd fuel Hfuel. unfold outline.
  pose proof (nested_flatten out Hn Hnd) as H.
  destruct (build_symbol_tree (map fst out)) as [heap roots].
  cbn [fst snd] in H. eapply flatten_tree_fuel; [| exact H]. lia.
Qed.

Lemma outline_of_nested_witness :
  nested MoreInputs.two_classes
  /\ NoDup (ids_of MoreInputs.two_classes)
  /\ forall fuel, (length MoreInputs.two_classes < fuel)%nat ->
       outline fuel (map fst MoreInputs.two_classes)
       = Some MoreInputs.two_classes.
Proof.
  assert (nested MoreInputs.two_classes) as Hn.
  { apply (nested_child [(MoreInputs.class_a, 0%nat)] [] MoreInputs.class_a
             0 [] MoreInputs.class_b).
    - apply (nested_root [] MoreInputs.class_a); [constructor | reflexivity].
    - reflexivity.
    - constructor.
    - reflexivity.
    - discriminate. }
  assert (NoDup (ids_of MoreInputs.two_classes)) as Hnd.
  { refine (bool_decide_unpack _ _). vm_compute. exact I. }
  split; [exact Hn |]. split; [exact Hnd |].
  exact (outline_of_nested MoreInputs.two_classes Hn Hnd).
Defined.

(** * The outline of a result of [parse_file] *)

Lemma make_symbol_id_nonempty file_path qualified_name :
  make_symbol_id file_path qualified_name <> [].
Proof.
  unfold make_symbol_id. intros H. apply (f_equal length) in H.
  rewrite !length_app in H. cbn in H. lia.
Qed.

Lemma on_spine_app out p d ext :
  on_spine out p d -> Forall (fun e => (d <= snd e)%nat) ext ->
  on_spine (out ++ ext) p d.
Proof.
  destruct p as [q|]; cbn; [| auto].
  intros (l1 & dq & l2 & -> & Hne & -> & Hl2) Hext.
  exists l1, dq, (l2 ++ ext). repeat split; auto.
  - by rewrite <- app_assoc.
  - apply Forall_app. split; [exact Hl2 |].
    eapply List.Forall_impl; [| exact Hext]. intros e He. cbn in He. lia.
Qed.

Section WalkOutline.
Variable ucd_case : codepoint -> Case.
Variable spec : LanguageSpec.
Variable source_bytes : bytes.
Variables filename language : str.

Lemma own_symbols_nested prevs n p own p' out d :
  own_symbols ucd_case spec source_bytes filename language prevs n p
    = Ok (own, p') ->
  nested out -> on_spine out p d ->
  exists ext d',
    map fst ext = own /\ nested (out ++ ext)
    /\ Forall (fun e => (d <= snd e)%nat) ext
    /\ on_spine (out ++ ext) p' d' /\ (d <= d')%nat.
Proof.
  unfold own_symbols. intros H Hn Hsp.
  apply bind_Ok in H as ([new q] & Hsym & H).
  apply bind_Ok in H as (new' & Hconst & H). inversion H; subst; clear H.
  assert (exists ext d',
            map fst ext = new /\ nested (out ++ ext)
            /\ Forall (fun e => (d <= snd e)%nat) ext
            /\ on_spine (out ++ ext) p' d' /\ (d <= d')%nat)
    as (ext & d' & Hext & Hn1 & Hd1 & Hsp1 & Hdd).
  { assert (exists ext d',
              map fst ext = [] /\ nested (out ++ ext)
              /\ Forall (fun e => (d <= snd e)%nat) ext
              /\ on_spine (out ++ ext) p d' /\ (d <= d')%nat) as Hsame.
    { exists [], d. rewrite app_nil_r. repeat split; auto. }
    unfold walk_symbol in Hsym. destruct (dict_mem _ _).
    2:{ inversion Hsym; subst. exact Hsame. }
    destruct (_extract_symbol _ _ _ _ _ _ _) as [[s|]|e] eqn:Hs;
      cbn in Hsym; inversion Hsym; subst; clear Hsym; [| exact Hsame].
    apply _extract_symbol_Some in Hs
      as (kind & name & _ & _ & _ & _ & _ & Hpar & _ & _ & Hid).
    exists [(s, d)], (S d).
    assert (on_spine (out ++ [(s, d)]) (Some s) (S d)) as Hsp'.
    { exists out, d, []. repeat split; [| constructor].
      rewrite Hid. apply make_symbol_id_nonempty. }
    split; [reflexivity |]. split.
    { destruct p as [q|]; cbn in Hsp, Hpar.
      - destruct Hsp as (l1 & dq & l2 & -> & Hne & Hout & Hl2).
        by eapply nested_child.
      - subst d. by apply nested_root. }
    split; [constructor; [cbn; lia | constructor] |].
    split; [exact Hsp' | lia]. }
  unfold walk_constant in Hconst.
  destruct p' as [q|].
  { inversion Hconst; subst. by exists ext, d'. }
  assert (exists ext' d'',
            map fst ext' = map fst ext /\ nested (out ++ ext')
            /\ Forall (fun e => (d <= snd e)%nat) ext'
            /\ on_spine (out ++ ext') None d'' /\ (d <= d'')%nat) as Hsame
    by (by exists ext, d').
  destruct (list_mem _ _); [| inversion Hconst; subst; exact Hsame].
  destruct (_extract_constant _ _ _ _ _ _) as [[c|]|e] eqn:Hc;
    cbn in Hconst; inversion Hconst; subst; [| exact Hsame].
  apply _extract_constant_Some in Hc as (_ & _ & Hpar & _).
  cbn in Hsp1. subst d'. assert (d = 0%nat) as -> by lia.
  exists (ext ++ [(c, 0%nat)]), 0%nat. rewrite map_app, app_assoc.
  repeat split; auto.
  - by apply nested_root.
  - apply Forall_app. split; [exact Hd1 |]. constructor; [cbn; lia |].
    constructor.
Qed.

Lemma _walk_tree_nested n :
  forall prevs p symbols symbols' out d,
    _walk_tree ucd_case prevs n spec source_bytes filename language symbols p
      = Ok symbols' ->
    nested out -> map fst out = symbols -> on_spine out p d ->
    exists ext,
      symbols' = symbols ++ map fst ext /\ nested (out ++ ext)
      /\ Forall (fun e => (d <= snd e)%nat) ext.
Proof.
  induction n as [ty nm he sb eb sr er fl cs IH] using Node.t_ind.
  intros prevs p symbols symbols' out d. rewrite _walk_tree_own.
  intros H Hn Hmap Hsp.
  apply bind_Ok in H as ([own p'] & Hown & H). cbn [Node.children] in H.
  destruct (own_symbols_nested _ _ _ _ _ _ _ Hown Hn Hsp)
    as (ext0 & d' & Hext0 & Hn0 & Hd0 & Hsp0 & Hdd).
  clear Hown.
  assert (exists ext,
            symbols' = (symbols ++ own) ++ map fst ext
            /\ nested ((out ++ ext0) ++ ext)
            /\ Forall (fun e => (d' <= snd e)%nat) ext)
    as (ext & -> & Hn1 & Hd1).
  { assert (map fst (out ++ ext0) = symbols ++ own) as Hmap0
      by (by rewrite map_app, Hmap, Hext0).
    revert H Hn0 Hsp0 Hmap0. generalize (symbols ++ own) as syms.
    generalize (out ++ ext0) as cur. generalize (@nil Node.t) as prevs'.
    clear Hn Hsp Hd0 Hext0.
    induction IH as [|c cs Hc _ IHcs]; intros prevs' cur syms H Hn0 Hsp0 Hmap0.
    - inversion H; subst. exists []. rewrite !app_nil_r.
      repeat split; auto.
    - cbn in H. apply bind_Ok in H as (syms1 & H1 & H).
      destruct (Hc _ _ _ _ _ _ H1 Hn0 Hmap0 Hsp0) as (e1 & -> & Hn1 & Hd1).
      destruct (IHcs _ (cur ++ e1) _ H Hn1) as (e2 & -> & Hn2 & Hd2).
      + by apply on_spine_app.
      + by rewrite map_app, Hmap0.
      + exists (e1 ++ e2). rewrite map_app, !app_assoc.
        repeat split; auto. apply Forall_app. by split. }
  exists (ext0 ++ ext). rewrite map_app, Hext0, !app_assoc.
  repeat split; auto. apply Forall_app. split; [exact Hd0 |].
  eapply List.Forall_impl; [| exact Hd1]. intros e He. cbn in He. lia.
Qed.

End WalkOutline.

(** X21. The outline of a parsed file lists the Symbols in the order in
    which [parse_file] returned them.  When the qualified names of a
    result of [parse_file] are pairwise distinct,
    [flatten_tree(build_symbol_tree(symbols))] returns the Symbols of the
    result in the same order, each with a depth; the list is in outline
    order: a Symbol without parent has depth 0, any other is one level
    deeper than its parent, which stands before it with only deeper
    Symbols in between. *)
Theorem parse_file_outline ucd_case root source_bytes filename language
    syms :
  parse_file ucd_case root source_bytes filename language = Ok syms ->
  NoDup (map Symbol.qualified_name syms) ->
  exists out,
    map fst out = syms /\ nested out
    /\ forall fuel, (length syms < fuel)%nat -> outline fuel syms = Some out.
Proof.
  intros Hparse Hnd.
  destruct (dict_get LANGUAGE_REGISTRY language) as [spec|] eqn:Hreg.
  2:{ unfold parse_file in Hparse. rewrite Hreg in Hparse.
      inversion Hparse; subst. exists []. repeat split; [constructor |].
      intros [|fuel] Hfuel; [cbn in Hfuel; lia | reflexivity]. }
  assert (NoDup (map Symbol.id syms)) as Hids.
  { assert (map Symbol.id syms
            = map (make_symbol_id filename) (map Symbol.qualified_name syms))
      as ->.
    { rewrite map_map. apply map_ext_in. intros s Hs.
      pose proof (parse_file_sound _ _ _ _ _ _ _ Hreg Hparse) as Hall.
      rewrite List.Forall_forall in Hall. destruct (Hall s Hs) as [n Hem].
      destruct Hem as [prevs p n s _ _ Hx | prevs n s _ _ Hc].
      - by apply _extract_symbol_Some in Hx
          as (kind & name' & _ & _ & _ & _ & _ & _ & _ & _ & Hid).
      - apply _extract_constant_Some in Hc as (_ & _ & _ & Hq & Hid).
        by rewrite Hq. }
    assert (Inj eq eq (make_symbol_id filename)) as Hinj.
    { intros q1 q2 H. by apply make_symbol_id_inj in H. }
    by apply (NoDup_fmap_2 (make_symbol_id filename)). }
  unfold parse_file in Hparse. rewrite Hreg in Hparse.
  destruct (_walk_tree_nested ucd_case spec source_bytes filename language
              root [] None [] syms [] 0%nat Hparse nested_nil eq_refl eq_refl)
    as (out & -> & Hn & _).
  cbn [app] in *. exists out. split; [reflexivity |]. split; [exact Hn |].
  intros fuel Hfuel. unfold outline.
  assert (NoDup (ids_of out)) as Hnd_out by (by rewrite ids_of_fst).
  pose proof (nested_flatten out Hn Hnd_out) as H.
  destruct (build_symbol_tree (map fst out)) as [heap roots].
  cbn [fst snd] in H. eapply flatten_tree_fuel; [| exact H].
  rewrite length_map in Hfuel. lia.
Qed.

Lemma parse_file_outline_witness :
  parse_file ascii_only Inputs.nested_tree Inputs.nested_src (py "a.py")
    (py "python") = Ok Inputs.nested_symbols
  /\ NoDup (map Symbol.qualified_name Inputs.nested_symbols)
  /\ exists out,
       map fst out = Inputs.nested_symbols /\ nested out
       /\ forall fuel, (length Inputs.nested_symbols < fuel)%nat ->
            outline fuel Inputs.nested_symbols = Some out.
Proof.
  assert (parse_file ascii_only Inputs.nested_tree Inputs.nested_src
            (py "a.py") (py "python") = Ok Inputs.nested_symbols) as Hparse
    by (vm_compute; reflexivity).
  assert (NoDup (map Symbol.qualified_name Inputs.nested_symbols)) as Hnd.
  { refine (bool_decide_unpack _ _). vm_compute. exact I. }
  split; [exact Hparse |]. split; [exact Hnd |].
  exact (parse_file_outline ascii_only Inputs.nested_tree Inputs.nested_src
           (py "a.py") (py "python") Inputs.nested_symbols Hparse Hnd).
Defined.

(** * The nested output of the outline tool *)

Lemma listing_children depth id kind name signature summary line cs :
  OutlineDict.listing depth
    (OutlineDict.mk id kind name signature summary line (Some cs))
  = ((id, kind, name, signature, summary, line), depth)
    :: concat (map (OutlineDict.listing (S depth)) cs).
Proof.
  cbn [OutlineDict.listing]. f_equal.
  induction cs as [|c cs IH]; [reflexivity |].
  cbn [map concat]. by rewrite <- IH.
Qed.

Lemma mapM_cons {A B} (f : A -> option B) x l :
  mapM f (x :: l) = (y ← f x; k ← mapM f l; Some (y :: k)).
Proof. reflexivity. Qed.

(** X22. The dicts that [_node_to_dict] makes of a list of nodes, read in
    the order in which they are written out, are the entries of
    [flatten_tree] for these nodes: the same Symbols in the same order at
    the same depths, each with its id, kind, name, signature, summary and
    line.  Where [flatten_tree] returns, [_node_to_dict] returns for every
    node. *)
Theorem _node_to_dict_listing heap fuel :
  forall nodes depth out,
    flatten_tree fuel heap nodes depth = Some out ->
    exists dicts,
      mapM (_node_to_dict fuel heap) nodes = Some dicts
      /\ concat (map (OutlineDict.listing depth) dicts)
         = map (fun e => (symbol_fields (fst e), snd e)) out.
Proof.
  induction fuel as [|fuel IH]; intros nodes; [discriminate |].
  induction nodes as [|r nodes IHn]; intros depth out H.
  - rewrite flatten_tree_nil in H. injection H as <-. by exists [].
  - rewrite flatten_tree_cons in H.
    destruct (heap !! r) as [node|] eqn:Hr; [| discriminate].
    cbn [mbind option_bind] in H.
    destruct (flatten_tree fuel heap _ _) as [sub|] eqn:Hsub;
      [| discriminate].
    cbn [mbind option_bind] in H.
    destruct (flatten_tree (S fuel) heap nodes depth) as [rest|] eqn:Hrest;
      [| discriminate].
    cbn [mbind option_bind] in H. injection H as <-.
    destruct (IHn _ _ Hrest) as (drest & Hdrest & Hlrest).
    destruct (IH _ _ _ Hsub) as (dsub & Hdsub & Hlsub).
    rewrite mapM_cons, Hdrest. cbn [_node_to_dict]. rewrite Hr.
    cbn [mbind option_bind].
    destruct (SymbolNode.children node) as [|c cs] eqn:Hcs.
    + cbn [mbind option_bind].
      eexists. split; [reflexivity |].
      destruct fuel as [|fuel']; [discriminate Hsub |].
      rewrite flatten_tree_nil in Hsub. injection Hsub as <-.
      cbn [map concat OutlineDict.listing app fst snd].
      by rewrite Hlrest.
    + rewrite Hdsub. cbn [mbind option_bind].
      eexists. split; [reflexivity |].
      cbn [map concat]. rewrite listing_children, Hlsub, Hlrest.
      rewrite map_app. reflexivity.
Qed.

Lemma _node_to_dict_listing_witness :
  flatten_tree 3 MoreInputs.two_heap MoreInputs.two_roots 0
    = Some MoreInputs.two_classes
  /\ exists dicts,
       mapM (_node_to_dict 3 MoreInputs.two_heap) MoreInputs.two_roots
         = Some dicts
       /\ concat (map (OutlineDict.listing 0) dicts)
          = map (fun e => (symbol_fields (fst e), snd e))
              MoreInputs.two_classes.
Proof.
  assert (flatten_tree 3 MoreInputs.two_heap MoreInputs.two_roots 0
          = Some MoreInputs.two_classes) as H by (vm_compute; reflexivity).
  split; [exact H |].
  exact (_node_to_dict_listing MoreInputs.two_heap 3 MoreInputs.two_roots 0
           MoreInputs.two_classes H).
Defined.

(** * Searching an index *)

Section Sorting.
Implicit Types (x : Z * Symbol.t) (l : list (Z * Symbol.t)).

Lemma insert_by_score_perm x l :
  Permutation (CodeIndex.insert_by_score x l) (x :: l).
Proof.
  induction l as [|y l IH]; cbn [CodeIndex.insert_by_score]; [done |].
  destruct (fst x <? fst y)%Z; [| done].
  rewrite IH. apply perm_swap.
Qed.

Lemma insert_by_score_sorted x l :
  StronglySorted (fun a b => (fst b <= fst a)%Z) l ->
  StronglySorted (fun a b => (fst b <= fst a)%Z)
    (CodeIndex.insert_by_score x l).
Proof.
  induction 1 as [|y l Hl IH Hy]; cbn [CodeIndex.insert_by_score].
  - repeat constructor.
  - destruct (Z.ltb_spec (fst x) (fst y)) as [Hlt | Hge].
    + constructor; [exact IH |].
      apply List.Forall_forall. intros z Hz.
      apply (Permutation_in _ (insert_by_score_perm x l)) in Hz.
      destruct Hz as [<- | Hz]; [lia |].
      rewrite List.Forall_forall in Hy. by apply Hy.
    + constructor; [by constructor |].
      constructor; [exact Hge |].
      eapply List.Forall_impl; [| exact Hy]. intros z Hz. cbn in Hz. lia.
Qed.

Lemma insert_by_score_filter x l v :
  List.filter (fun e => (fst e =? v)%Z) (CodeIndex.insert_by_score x l)
  = List.filter (fun e => (fst e =? v)%Z) (x :: l).
Proof.
  induction l as [|y l IH]; cbn [CodeIndex.insert_by_score]; [done |].
  destruct (Z.ltb_spec (fst x) (fst y)) as [Hlt | Hge]; [| done].
  cbn [List.filter] in *. rewrite IH.
  destruct (Z.eqb_spec (fst x) v), (Z.eqb_spec (fst y) v); try done. lia.
Qed.

Lemma sort_by_score_spec l :
  Permutation (CodeIndex.sort_by_score l) l
  /\ StronglySorted (fun a b => (fst b <= fst a)%Z)
       (CodeIndex.sort_by_score l)
  /\ forall v,
       List.filter (fun e => (fst e =? v)%Z) (CodeIndex.sort_by_score l)
       = List.filter (fun e => (fst e =? v)%Z) l.
Proof.
  induction l as [|x l (Hperm & Hsorted & Hfilter)];
    cbn [CodeIndex.sort_by_score foldr].
  - repeat split; constructor.
  - fold (CodeIndex.sort_by_score l). split; [| split].
    + rewrite insert_by_score_perm. by constructor.
    + by apply insert_by_score_sorted.
    + intros v. rewrite insert_by_score_filter. cbn [List.filter].
      by rewrite Hfilter.
Qed.

End Sorting.

Lemma filter_map_comm {A B} (f : A -> B) (P : B -> bool) (l : list A) :
  List.filter P (map f l) = map f (List.filter (fun a => P (f a)) l).
Proof.
  induction l as [|a l IH]; [reflexivity |].
  cbn [map List.filter]. destruct (P (f a)); cbn [map]; by rewrite IH.
Qed.

Lemma StronglySorted_map {A B} (f : A -> B) (R : B -> B -> Prop)
    (l : list A) :
  StronglySorted (fun a b => R (f a) (f b)) l -> StronglySorted R (map f l).
Proof.
  induction 1 as [|a l _ IH Ha]; cbn [map]; constructor; [exact IH |].
  apply List.Forall_forall. intros b Hb.
  apply in_map_iff in Hb as (x & <- & Hx).
  rewrite List.Forall_forall in Ha. by apply Ha.
Qed.

Lemma StronglySorted_impl_in {A} (R R' : A -> A -> Prop) (l : list A) :
  (forall a b, In a l -> In b l -> R a b -> R' a b) ->
  StronglySorted R l -> StronglySorted R' l.
Proof.
  intros Himpl H. induction H as [|a l _ IH Ha]; constructor.
  - apply IH. intros x y Hx Hy. apply Himpl; by right.
  - apply List.Forall_forall. intros b Hb.
    rewrite List.Forall_forall in Ha.
    apply Himpl; [by left | by right | by apply Ha].
Qed.

Lemma filter_true {A} (P : A -> bool) (l : list A) :
  (forall x, In x l -> P x = true) -> List.filter P l = l.
Proof.
  induction l as [|a l IH]; intros H; [reflexivity |].
  cbn [List.filter]. rewrite (H a) by (by left).
  f_equal. apply IH. intros x Hx. apply H. by right.
Qed.

Section SearchClaims.
Variable lower : str -> str.
Variable fnmatch : str -> str -> bool.

Lemma search_loop_eq query_lower query_words kind file_pattern symbols
    scored :
  CodeIndex.search_loop lower fnmatch query_lower query_words kind
    file_pattern symbols scored
  = scored
    ++ map (fun sym =>
              (CodeIndex._score_symbol lower sym query_lower query_words,
               sym))
         (List.filter
            (fun sym =>
               negb (CodeIndex.filtered_out fnmatch kind file_pattern sym)
               && (0 <? CodeIndex._score_symbol lower sym query_lower
                          query_words)%Z)
            symbols).
Proof.
  revert scored. induction symbols as [|sym symbols IH]; intros scored;
    cbn [CodeIndex.search_loop List.filter].
  - by rewrite app_nil_r.
  - destruct (CodeIndex.filtered_out fnmatch kind file_pattern sym);
      cbn [negb andb]; [apply IH |].
    destruct (0 <? _)%Z; [| apply IH].
    rewrite IH. cbn [map]. by rewrite <- app_assoc.
Qed.

(** Sorting the Symbols paired with their scores *)
Lemma sort_scored_spec (score : Symbol.t -> Z) (hits : list Symbol.t) :
  let sorted :=
    map snd (CodeIndex.sort_by_score
               (map (fun sym => (score sym, sym)) hits)) in
  Permutation sorted hits
  /\ StronglySorted (fun a b => (score b <= score a)%Z) sorted
  /\ forall v,
       List.filter (fun sym => (score sym =? v)%Z) sorted
       = List.filter (fun sym => (score sym =? v)%Z) hits.
Proof.
  cbn zeta. set (pairs := map (fun sym => (score sym, sym)) hits).
  destruct (sort_by_score_spec pairs) as (Hperm & Hsorted & Hfilter).
  assert (map snd pairs = hits) as Hsnd.
  { unfold pairs. rewrite map_map. cbn. apply map_id. }
  split; [| split].
  - apply (Permutation_map snd) in Hperm. by rewrite Hsnd in Hperm.
  - apply StronglySorted_map.
    eapply StronglySorted_impl_in; [| exact Hsorted].
    intros [za a] [zb b] Ha Hb Hle. cbn in *.
    apply (Permutation_in _ Hperm), in_map_iff in Ha as (x & Ex & _).
    apply (Permutation_in _ Hperm), in_map_iff in Hb as (y & Ey & _).
    injection Ex as <- <-. injection Ey as <- <-. exact Hle.
  - intros v. rewrite filter_map_comm.
    rewrite (List.filter_ext_in _ (fun e => (fst e =? v)%Z)).
    + rewrite (Hfilter v). unfold pairs. rewrite filter_map_comm.
      rewrite map_map. cbn [fst snd]. apply List.map_id.
    + intros [z sym] Hin. cbn [fst snd].
      apply (Permutation_in _ Hperm), in_map_iff in Hin as (x & E & _).
      by inversion E.
Qed.

(** [search], without its loop *)
Lemma search_eq self query kind file_pattern :
  CodeIndex.search lower fnmatch self query kind file_pattern
  = let score := fun sym =>
      CodeIndex._score_symbol lower sym (lower query)
        (remove_dups (CodeIndex.split_whitespace (lower query))) in
    map snd
      (CodeIndex.sort_by_score
         (map (fun sym => (score sym, sym))
            (List.filter
               (fun sym =>
                  negb (CodeIndex.filtered_out fnmatch kind file_pattern sym)
                  && (0 <? score sym)%Z)
               (CodeIndex.symbols self)))).
Proof. unfold CodeIndex.search. by rewrite search_loop_eq. Qed.

(** X23. [search] returns the Symbols of the index that pass the filters
    and have a positive score, each as often as the index holds it, and no
    other; they are in the order of their scores, the highest first, and
    Symbols with the same score are in the order of the index. *)
Theorem search_ranked self query kind file_pattern :
  let score := fun sym =>
    CodeIndex._score_symbol lower sym (lower query)
      (remove_dups (CodeIndex.split_whitespace (lower query))) in
  let hits :=
    List.filter
      (fun sym =>
         negb (CodeIndex.filtered_out fnmatch kind file_pattern sym)
         && (0 <? score sym)%Z)
      (CodeIndex.symbols self) in
  let result := CodeIndex.search lower fnmatch self query kind file_pattern in
  Permutation result hits
  /\ StronglySorted (fun a b => (score b <= score a)%Z) result
  /\ forall v,
       List.filter (fun sym => (score sym =? v)%Z) result
       = List.filter (fun sym => (score sym =? v)%Z) hits.
Proof.
  intros score hits result. subst result. rewrite search_eq. cbn zeta.
  fold score. fold hits. exact (sort_scored_spec score hits).
Qed.

Lemma contains_empty s : contains s [] = true.
Proof. by destruct s. Qed.

(** X24. The empty query finds everything.  When [lower] maps the empty
    string to itself, [search] with the empty query and without filters
    returns every Symbol of the index, each with a score of at least 23;
    when no Symbol has an empty name, they come in the order of the
    index. *)
Theorem search_empty_query self :
  lower [] = [] ->
  let result := CodeIndex.search lower fnmatch self [] None None in
  Permutation result (CodeIndex.symbols self)
  /\ Forall (fun sym => (23 <= CodeIndex._score_symbol lower sym [] [])%Z)
       (CodeIndex.symbols self)
  /\ (Forall (fun sym => lower (Symbol.name sym) <> [])
        (CodeIndex.symbols self) ->
      result = CodeIndex.symbols self).
Proof.
  intros Hlower result.
  assert (forall sym,
            CodeIndex._score_symbol lower sym [] []
            = (if str_eqb [] (lower (Symbol.name sym)) then 33 else 23)%Z)
    as Hscore.
  { intros sym. unfold CodeIndex._score_symbol.
    cbn [CodeIndex.add_word_hits foldl List.filter length].
    rewrite !contains_empty. by destruct (str_eqb _ _). }
  assert (forall sym, (23 <= CodeIndex._score_symbol lower sym [] [])%Z)
    as Hge.
  { intros sym. rewrite Hscore. destruct (str_eqb _ _); lia. }
  assert (result
          = map snd
              (CodeIndex.sort_by_score
                 (map (fun sym =>
                         (CodeIndex._score_symbol lower sym [] [], sym))
                    (List.filter
                       (fun sym =>
                          negb (CodeIndex.filtered_out fnmatch None None sym)
                          && (0 <? CodeIndex._score_symbol lower sym [] [])%Z)
                       (CodeIndex.symbols self))))) as Hresult.
  { subst result. rewrite search_eq. cbn zeta. by rewrite Hlower. }
  pose proof (sort_scored_spec
                (fun sym => CodeIndex._score_symbol lower sym [] [])
                (List.filter
                   (fun sym =>
                      negb (CodeIndex.filtered_out fnmatch None None sym)
                      && (0 <? CodeIndex._score_symbol lower sym [] [])%Z)
                   (CodeIndex.symbols self))) as H.
  cbv beta zeta in H. rewrite <- Hresult in H.
  destruct H as (Hperm & _ & Hstable).
  assert (List.filter
            (fun sym =>
               negb (CodeIndex.filtered_out fnmatch None None sym)
               && (0 <? CodeIndex._score_symbol lower sym [] [])%Z)
            (CodeIndex.symbols self) = CodeIndex.symbols self) as Hall.
  { apply filter_true. intros sym _.
    cbn [CodeIndex.filtered_out negb orb andb].
    apply Z.ltb_lt. specialize (Hge sym). lia. }
  rewrite Hall in Hperm, Hstable.
  split; [exact Hperm |]. split.
  { apply List.Forall_forall. intros sym _. apply Hge. }
  intros Hnames. specialize (Hstable 23%Z).
  assert (forall l : list Symbol.t,
            Forall (fun sym => lower (Symbol.name sym) <> []) l ->
            List.filter
              (fun sym => (CodeIndex._score_symbol lower sym [] [] =? 23)%Z) l
            = l) as Hsame.
  { intros l Hl. apply filter_true. intros sym Hin.
    rewrite List.Forall_forall in Hl. specialize (Hl sym Hin).
    rewrite Hscore. destruct (str_eqb [] (lower (Symbol.name sym))) eqn:E.
    - apply str_eqb_eq in E. by destruct Hl.
    - reflexivity. }
  rewrite (Hsame _ Hnames) in Hstable. rewrite <- Hstable.
  symmetry. apply Hsame.
  apply List.Forall_forall. intros sym Hin.
  apply (Permutation_in _ Hperm) in Hin.
  rewrite List.Forall_forall in Hnames. by apply Hnames.
Qed.

End SearchClaims.

Lemma search_empty_query_witness :
  MoreInputs.ascii_lower [] = []
  /\ Permutation
       (CodeIndex.search MoreInputs.ascii_lower MoreInputs.exact_match
          MoreInputs.nested_index [] None None)
       (CodeIndex.symbols MoreInputs.nested_index)
  /\ Forall
       (fun sym =>
          (23 <= CodeIndex._score_symbol MoreInputs.ascii_lower sym [] [])%Z)
       (CodeIndex.symbols MoreInputs.nested_index)
  /\ (Forall (fun sym => MoreInputs.ascii_lower (Symbol.name sym) <> [])
        (CodeIndex.symbols MoreInputs.nested_index) ->
      CodeIndex.search MoreInputs.ascii_lower MoreInputs.exact_match
        MoreInputs.nested_index [] None None
      = CodeIndex.symbols MoreInputs.nested_index).
Proof.
  split; [reflexivity |].
  exact (search_empty_query MoreInputs.ascii_lower MoreInputs.exact_match
           MoreInputs.nested_index eq_refl).
Defined.

Lemma StronglySorted_take {A} (R : A -> A -> Prop) n (l : list A) :
  StronglySorted R l -> StronglySorted R (take n l).
Proof.
  intros H. revert n. induction H as [|a l _ IH Ha]; intros [|n]; cbn;
    try constructor.
  - apply IH.
  - apply List.Forall_forall. intros b Hb.
    rewrite List.Forall_forall in Ha. apply Ha.
    rewrite <- (take_drop n l). apply in_app_iff. by left.
Qed.

(** X25. The results of the [search_symbols] tool are in the order of the
    scores they show, the highest first, and every score shown is
    positive: the score computed for the output is the score [search] has
    ranked by.  For a [max_results] that is not negative there are at most
    [max_results] results. *)
Theorem search_symbols_results_ranked lower fnmatch index query kind
    file_pattern max_results :
  let results :=
    search_symbols.search_symbols_results lower fnmatch index query kind
      file_pattern max_results in
  StronglySorted
    (fun a b => (search_symbols.score b <= search_symbols.score a)%Z) results
  /\ Forall (fun a => (0 < search_symbols.score a)%Z) results
  /\ ((0 <= max_results)%Z -> (Z.of_nat (length results) <= max_results)%Z).
Proof.
  cbn zeta. unfold search_symbols.search_symbols_results.
  pose proof (sort_scored_spec
                (fun sym =>
                   CodeIndex._score_symbol lower sym (lower query)
                     (remove_dups
                        (CodeIndex.split_whitespace (lower query))))
                (List.filter
                   (fun sym =>
                      negb (CodeIndex.filtered_out fnmatch kind file_pattern
                              sym)
                      && (0 <? CodeIndex._score_symbol lower sym
                                 (lower query)
                                 (remove_dups
                                    (CodeIndex.split_whitespace
                                       (lower query))))%Z)
                   (CodeIndex.symbols index))) as H.
  cbv beta zeta in H.
  pose proof (search_eq lower fnmatch index query kind file_pattern) as Heq.
  cbv beta zeta in Heq. rewrite <- Heq in H. clear Heq.
  destruct H as (Hperm & Hsorted & _).
  set (found := CodeIndex.search lower fnmatch index query kind file_pattern)
    in *.
  assert (exists n, search_symbols.slice_to_int max_results found
                    = take n found) as [n Hn].
  { unfold search_symbols.slice_to_int. destruct (_ <? _)%Z; eauto. }
  split; [| split].
  - apply StronglySorted_map. cbn [search_symbols.score].
    rewrite Hn. apply StronglySorted_take. exact Hsorted.
  - apply List.Forall_forall. intros a Ha.
    apply in_map_iff in Ha as (sym & <- & Hsym). cbn [search_symbols.score].
    rewrite Hn in Hsym.
    assert (In sym found) as Hin.
    { rewrite <- (take_drop n found). apply in_app_iff. by left. }
    apply (Permutation_in _ Hperm), filter_In in Hin as [_ Hpos].
    apply andb_true_iff in Hpos as [_ Hpos]. by apply Z.ltb_lt in Hpos.
  - intros Hmax. rewrite length_map. unfold search_symbols.slice_to_int.
    destruct (Z.ltb_spec max_results 0); [lia |].
    rewrite length_take. lia.
Qed.

(** * Repository names *)

Lemma split_on_no_sep sep s : ~ In sep s -> split_on sep s = [s].
Proof.
  induction s as [|c s IH]; intros H; [reflexivity |].
  cbn [split_on]. destruct (N.eqb_spec c sep) as [->|_].
  - exfalso. apply H. by left.
  - rewrite IH; [reflexivity |]. intros Hin. apply H. by right.
Qed.

Lemma split_on_app_sep sep a b :
  ~ In sep a -> split_on sep (a ++ sep :: b) = a :: split_on sep b.
Proof.
  induction a as [|c a IH]; intros H.
  - cbn [app split_on]. by rewrite N.eqb_refl.
  - cbn [app split_on]. destruct (N.eqb_spec c sep) as [->|_].
    + exfalso. apply H. by left.
    + rewrite IH; [reflexivity |]. intros Hin. apply H. by right.
Qed.

Lemma startswith_skip u c v p :
  startswith (u ++ c :: v) p = true -> ~ In c p -> startswith u p = true.
Proof.
  revert u. induction p as [|x p IH]; intros u H Hc; [by destruct u |].
  destruct u as [|y u]; cbn [app startswith] in *.
  - apply andb_true_iff in H as [H _]. apply N.eqb_eq in H.
    exfalso. apply Hc. by left.
  - apply andb_true_iff in H as [-> H]. cbn [andb].
    apply IH; [exact H |]. intros Hin. apply Hc. by right.
Qed.

Lemma endswith_skip a c b s :
  endswith (a ++ c :: b) s = true -> ~ In c s -> endswith b s = true.
Proof.
  unfold endswith. rewrite rev_app_distr. cbn [rev].
  rewrite <- app_assoc. cbn [app]. intros H Hc.
  eapply startswith_skip; [exact H |]. by rewrite <- in_rev.
Qed.

Lemma removesuffix_prefix s suffix : exists t, s = index_repo.removesuffix s suffix ++ t.
Proof.
  unfold index_repo.removesuffix. destruct suffix as [|c suffix].
  - exists []. by rewrite app_nil_r.
  - destruct (endswith s (c :: suffix)); [apply take_prefix |].
    exists []. by rewrite app_nil_r.
Qed.

Lemma take_all_but_suffix {A} (l k : list A) :
  take (length (l ++ k) - length k) (l ++ k) = l.
Proof. by rewrite length_app, Nat.add_sub, take_app_length. Qed.

Lemma removesuffix_after a c b suffix :
  ~ In c suffix ->
  index_repo.removesuffix (a ++ c :: b) suffix
  = a ++ c :: index_repo.removesuffix b suffix.
Proof.
  intros Hc. unfold index_repo.removesuffix.
  destruct suffix as [|x suffix]; [reflexivity |].
  destruct (endswith b (x :: suffix)) eqn:Hb.
  - apply endswith_suffix in Hb as [t ->].
    replace (a ++ c :: t ++ x :: suffix)
      with ((a ++ c :: t) ++ x :: suffix)
      by (by rewrite <- app_assoc).
    rewrite !endswith_app, !take_all_but_suffix. reflexivity.
  - destruct (endswith (a ++ c :: b) (x :: suffix)) eqn:Hab; [| reflexivity].
    apply endswith_skip in Hab; [congruence | exact Hc].
Qed.

Lemma filter_eqb_notin c l : ~ In c l -> List.filter (N.eqb c) l = [].
Proof.
  induction l as [|d l IH]; intros H; [reflexivity |].
  cbn [List.filter]. destruct (N.eqb_spec c d) as [->|_].
  - exfalso. apply H. by left.
  - apply IH. intros Hin. apply H. by right.
Qed.

Lemma one_slash_no_scheme owner repo :
  ~ In index_repo.slash owner -> ~ In index_repo.slash repo ->
  contains (owner ++ index_repo.slash :: repo) (py "://") = false.
Proof.
  intros Ho Hr. destruct (contains _ _) eqn:E; [| reflexivity].
  apply contains_spec in E as (pre & post & E).
  apply (f_equal (fun l => length (List.filter (N.eqb index_repo.slash) l)))
    in E.
  rewrite !List.filter_app in E. cbn [List.filter] in E.
  rewrite (filter_eqb_notin _ _ Ho), (filter_eqb_notin _ _ Hr) in E.
  change (py "://") with [58; index_repo.slash; index_repo.slash] in E.
  cbn [List.filter] in E. rewrite N.eqb_refl in E.
  replace (index_repo.slash =? 58) with false in E by reflexivity.
  rewrite !length_app in E. cbn [length app] in E. lia.
Qed.

Section UrlClaims.
Variable urlparse_path : str -> str.

(** X26. [parse_github_url] reads [owner/repo] as it is written: for an
    owner and a repository name without slash it returns the owner and
    the name, the name without a [.git] at its end.  For any other text,
    when the path that [urlparse] finds in it (after a [.git] at the end of
    the text has been removed) is [/owner/repo], with neither part empty,
    it returns the same pair. *)
Theorem parse_github_url_owner_repo owner repo :
  ~ In index_repo.slash owner -> ~ In index_repo.slash repo ->
  index_repo.parse_github_url urlparse_path (owner ++ py "/" ++ repo)
  = Returns (owner, index_repo.removesuffix repo (py ".git"))
  /\ (forall url,
        owner <> [] -> repo <> [] ->
        contains (index_repo.removesuffix url (py ".git")) (py "/")
        && negb (contains (index_repo.removesuffix url (py ".git"))
                   (py "://")) = false ->
        urlparse_path (index_repo.removesuffix url (py ".git"))
        = py "/" ++ owner ++ py "/" ++ repo ->
        index_repo.parse_github_url urlparse_path url
        = Returns (owner, repo)).
Proof.
  intros Ho Hr. split.
  - unfold index_repo.parse_github_url.
    change (owner ++ py "/" ++ repo) with (owner ++ index_repo.slash :: repo).
    rewrite removesuffix_after by (cbn; intros [H|[H|[H|[H|[]]]]]; discriminate H).
    set (repo' := index_repo.removesuffix repo (py ".git")).
    assert (~ In index_repo.slash repo') as Hr'.
    { destruct (removesuffix_prefix repo (py ".git")) as [t Ht].
      fold repo' in Ht. intros Hin. apply Hr. rewrite Ht.
      apply in_app_iff. by left. }
    assert (contains (owner ++ index_repo.slash :: repo') (py "/") = true)
      as ->.
    { apply contains_spec. by exists owner, repo'. }
    rewrite one_slash_no_scheme by assumption. cbn [negb andb].
    rewrite split_on_app_sep by exact Ho.
    by rewrite split_on_no_sep by exact Hr'.
  - intros url Hone Hrne Hbranch Hpath.
    unfold index_repo.parse_github_url. rewrite Hbranch, Hpath.
    assert (index_repo.strip_chars (py "/") (py "/" ++ owner ++ py "/" ++ repo)
            = owner ++ index_repo.slash :: repo) as ->.
    { unfold index_repo.strip_chars, rstrip_chars, lstrip_with.
      assert (forall c, c <> index_repo.slash -> mem_cp c (py "/") = false)
        as Hmem.
      { intros c Hc. cbn. rewrite orb_false_r. by apply N.eqb_neq. }
      assert (drop_while (fun c => mem_cp c (py "/"))
                (py "/" ++ owner ++ py "/" ++ repo)
              = owner ++ index_repo.slash :: repo) as ->.
      { change (py "/" ++ owner ++ py "/" ++ repo)
          with (index_repo.slash :: (owner ++ index_repo.slash :: repo)).
        cbn [drop_while].
        replace (mem_cp index_repo.slash (py "/")) with true by reflexivity.
        apply drop_while_fixed. intros c Hc. apply Hmem. intros ->.
        destruct owner as [|x owner]; [by destruct Hone |].
        cbn in Hc. injection Hc as ->. apply Ho. by left. }
      apply rstrip_with_fixed. intros c Hc. apply Hmem. intros ->.
      apply Hr. change (owner ++ index_repo.slash :: repo)
        with (owner ++ [index_repo.slash] ++ repo) in Hc.
      rewrite app_assoc in Hc.
      destruct repo as [|x repo] using rev_ind; [by destruct Hrne |].
      rewrite app_assoc, last_snoc in Hc. injection Hc as ->.
      apply in_app_iff. right. by left. }
    rewrite split_on_app_sep by exact Ho.
    by rewrite split_on_no_sep by exact Hr.
Qed.

End UrlClaims.

Lemma parse_github_url_owner_repo_witness :
  ~ In index_repo.slash (py "jgravelle")
  /\ ~ In index_repo.slash (py "jcodemunch-mcp")
  /\ index_repo.parse_github_url MoreInputs.github_path
       (py "jgravelle" ++ py "/" ++ py "jcodemunch-mcp")
     = Returns (py "jgravelle",
                index_repo.removesuffix (py "jcodemunch-mcp") (py ".git"))
  /\ index_repo.parse_github_url MoreInputs.github_path
       (py "https://github.com/jgravelle/jcodemunch-mcp.git")
     = Returns (py "jgravelle", py "jcodemunch-mcp").
Proof.
  assert (~ In index_repo.slash (py "jgravelle")) as Ho.
  { rewrite <- list_elem_of_In. refine (bool_decide_unpack _ _).
    vm_compute. exact I. }
  assert (~ In index_repo.slash (py "jcodemunch-mcp")) as Hr.
  { rewrite <- list_elem_of_In. refine (bool_decide_unpack _ _).
    vm_compute. exact I. }
  split; [exact Ho |]. split; [exact Hr |].
  destruct (parse_github_url_owner_repo MoreInputs.github_path
              (py "jgravelle") (py "jcodemunch-mcp") Ho Hr) as [H1 H2].
  split; [exact H1 |].
  apply H2; [discriminate | discriminate | vm_compute; reflexivity
            | vm_compute; reflexivity].
Defined.

(** * Line comments as docstrings *)

Section StripLemmas.
Context {A : Type}.
Implicit Types (p : A -> bool) (l w : list A).

Lemma drop_while_snoc p l x :
  p x = false -> drop_while p (l ++ [x]) = drop_while p l ++ [x].
Proof.
  intros Hx. induction l as [|y l IH]; cbn [app drop_while].
  - by rewrite Hx.
  - destruct (p y); [exact IH | reflexivity].
Qed.

Lemma drop_while_all p w : forallb p w = true -> drop_while p w = [].
Proof.
  induction w as [|y w IH]; [reflexivity |]. cbn [forallb drop_while].
  intros H. apply andb_true_iff in H as [-> H]. by apply IH.
Qed.

Lemma drop_while_app_all p w l :
  forallb p w = true -> drop_while p (w ++ l) = drop_while p l.
Proof.
  induction w as [|y w IH]; [reflexivity |]. cbn [forallb app drop_while].
  intros H. apply andb_true_iff in H as [-> H]. by apply IH.
Qed.

Lemma drop_while_app p l w :
  drop_while p (l ++ w)
  = match drop_while p l with
    | [] => drop_while p w
    | r => r ++ w
    end.
Proof.
  induction l as [|y l IH]; cbn [app drop_while].
  - by destruct (drop_while p w).
  - destruct (p y); [exact IH | reflexivity].
Qed.

End StripLemmas.

Lemma rstrip_with_cons p x s :
  p x = false -> rstrip_with p (x :: s) = x :: rstrip_with p s.
Proof.
  intros Hx. unfold rstrip_with. cbn [rev].
  rewrite drop_while_snoc by exact Hx. by rewrite rev_app_distr.
Qed.

Lemma rstrip_with_app_all p l w :
  forallb p w = true -> rstrip_with p (l ++ w) = rstrip_with p l.
Proof.
  intros Hw. unfold rstrip_with. rewrite rev_app_distr.
  rewrite drop_while_app_all; [reflexivity |].
  rewrite forallb_forall in *. intros x Hx. apply Hw. by apply in_rev.
Qed.

Lemma strip_cons x s :
  Py_UNICODE_ISSPACE x = false ->
  strip (x :: s) = x :: rstrip_with Py_UNICODE_ISSPACE s.
Proof.
  intros Hx. unfold strip, lstrip_with. cbn [drop_while]. rewrite Hx.
  by apply rstrip_with_cons.
Qed.

Lemma strip_rstrip s : strip (rstrip_with Py_UNICODE_ISSPACE s) = strip s.
Proof.
  destruct (rstrip_with_prefix Py_UNICODE_ISSPACE s) as (w & Hs & Hw).
  set (r := rstrip_with Py_UNICODE_ISSPACE s) in *.
  unfold strip, lstrip_with. rewrite Hs at 1. rewrite drop_while_app.
  destruct (drop_while Py_UNICODE_ISSPACE r) as [|c l] eqn:E.
  - by rewrite (drop_while_all _ _ Hw).
  - by rewrite rstrip_with_app_all.
Qed.

Lemma split_on_join sep ls :
  ls <> [] -> Forall (fun l => ~ In sep l) ls ->
  split_on sep (join [sep] ls) = ls.
Proof.
  intros Hne H. induction H as [|l ls Hl Hls IH]; [by destruct Hne |].
  destruct ls as [|l' ls].
  - cbn [join]. by apply split_on_no_sep.
  - change (join [sep] (l :: l' :: ls))
      with (l ++ sep :: join [sep] (l' :: ls)).
    rewrite split_on_app_sep by exact Hl. f_equal. by apply IH.
Qed.

Lemma clean_line_line_comment t :
  head t <> Some 47 -> ~ In 42 t -> clean_line (py "//" ++ t) = strip t.
Proof.
  intros Hhead Hstar. unfold clean_line.
  change (py "//" ++ t) with (47 :: 47 :: t).
  rewrite strip_cons by reflexivity.
  rewrite rstrip_with_cons by reflexivity.
  set (r := rstrip_with Py_UNICODE_ISSPACE t).
  assert (head r <> Some 47) as Hr.
  { intros H. apply rstrip_with_head in H. by apply Hhead. }
  assert (~ In 42 r) as Hr'.
  { intros H. apply Hstar.
    destruct (rstrip_with_prefix Py_UNICODE_ISSPACE t) as (w & Ht & _).
    rewrite Ht. apply in_app_iff. by left. }
  replace (startswith (47 :: 47 :: r) (py "/**")) with false by reflexivity.
  replace (startswith (47 :: 47 :: r) (py "/*")) with false by reflexivity.
  assert (startswith (47 :: 47 :: r) (py "///") = false) as ->.
  { destruct r as [|x r']; [reflexivity |].
    change (startswith (47 :: 47 :: x :: r') (py "///"))
      with ((47 =? x) && startswith r' []).
    destruct (N.eqb_spec 47 x) as [<-|_]; [by destruct Hr | reflexivity]. }
  assert (startswith (47 :: 47 :: r) (py "//") = true) as ->
    by (by destruct r).
  change (slice_from 2 (47 :: 47 :: r)) with r.
  assert (endswith r (py "*/") = false) as ->.
  { destruct (endswith r (py "*/")) eqn:E; [| reflexivity].
    apply endswith_suffix in E as [u Hu]. exfalso. apply Hr'.
    rewrite Hu. apply in_app_iff. right. by left. }
  apply strip_rstrip.
Qed.

(** X27. The docstring made of a run of [//] comments.  For lines that
    each begin with [//], where the text after the [//] has no newline and
    no [*] and does not begin with a further [/],
    [_clean_comment_markers] gives the texts after the [//], each without
    the white space at its ends, joined by newlines, the result being
    stripped once more.  A [!] after the [//] stays. *)
Theorem _clean_comment_markers_line_comments texts :
  texts <> [] ->
  Forall (fun t => ~ In newline t /\ head t <> Some 47 /\ ~ In 42 t) texts ->
  _clean_comment_markers (join [newline] (map (app (py "//")) texts))
  = strip (join [newline] (map strip texts)).
Proof.
  intros Hne Hall. unfold _clean_comment_markers.
  rewrite split_on_join.
  - rewrite map_map. f_equal. f_equal. apply map_ext_in. intros t Ht.
    rewrite List.Forall_forall in Hall.
    destruct (Hall t Ht) as (_ & Hhead & Hstar).
    by apply clean_line_line_comment.
  - by destruct texts.
  - apply List.Forall_forall. intros l Hl.
    apply in_map_iff in Hl as (t & <- & Ht).
    rewrite List.Forall_forall in Hall. destruct (Hall t Ht) as (Hnl & _).
    change (py "//" ++ t) with (47 :: 47 :: t).
    intros [H|[H|H]]; try discriminate H. by apply Hnl.
Qed.

Lemma _clean_comment_markers_line_comments_witness :
  [py " First line "; py "! second"] <> []
  /\ Forall (fun t => ~ In newline t /\ head t <> Some 47 /\ ~ In 42 t)
       [py " First line "; py "! second"]
  /\ _clean_comment_markers
       (join [newline] (map (app (py "//")) [py " First line "; py "! second"]))
     = strip (join [newline] (map strip [py " First line "; py "! second"])).
Proof.
  assert (Forall (fun t => ~ In newline t /\ head t <> Some 47 /\ ~ In 42 t)
            [py " First line "; py "! second"]) as Hall.
  { repeat constructor; try discriminate;
      rewrite <- list_elem_of_In; refine (bool_decide_unpack _ _);
      vm_compute; exact I. }
  split; [discriminate |]. split; [exact Hall |].
  apply (_clean_comment_markers_line_comments
           [py " First line "; py "! second"]); [discriminate | exact Hall].
Defined.

(** * Symbols come in the order of the source *)

Lemma laid_out_eq n :
  laid_out n
  = Nat.leb (Node.start_byte n) (Node.end_byte n)
    && children_laid_out (Node.end_byte n) (Node.start_byte n)
         (Node.children n).
Proof.
  destruct n as [ty nm he sb eb sr er fl cs].
  cbn [laid_out Node.start_byte Node.end_byte Node.children]. f_equal.
  generalize sb. induction cs as [|c cs IH]; intros lo; [reflexivity |].
  cbn [children_laid_out]. by rewrite <- IH.
Qed.

Lemma StronglySorted_app {A} (R : A -> A -> Prop) (l1 l2 : list A) :
  StronglySorted R l1 -> StronglySorted R l2 ->
  (forall a b, In a l1 -> In b l2 -> R a b) ->
  StronglySorted R (l1 ++ l2).
Proof.
  intros H1 H2 H. induction H1 as [|a l1 _ IH Ha]; [exact H2 |].
  cbn [app]. constructor.
  - apply IH. intros x y Hx Hy. apply H; [by right | exact Hy].
  - apply Forall_app. split; [exact Ha |].
    apply List.Forall_forall. intros b Hb. apply H; [by left | exact Hb].
Qed.

Lemma StronglySorted_all {A} (R : A -> A -> Prop) (l : list A) :
  (forall a b, In a l -> In b l -> R a b) -> StronglySorted R l.
Proof.
  induction l as [|a l IH]; intros H; constructor.
  - apply IH. intros x y Hx Hy. apply H; by right.
  - apply List.Forall_forall. intros b Hb. apply H; [by left | by right].
Qed.

Section SourceOrder.
Variable ucd_case : codepoint -> Case.
Variable spec : LanguageSpec.
Variable source_bytes : bytes.
Variables filename language : str.

Lemma own_symbols_offsets prevs n p own p' :
  own_symbols ucd_case spec source_bytes filename language prevs n p
    = Ok (own, p') ->
  Forall (fun s => Symbol.byte_offset s = Z.of_nat (Node.start_byte n)) own.
Proof.
  unfold own_symbols. intros H.
  apply bind_Ok in H as ([new q] & Hsym & H).
  apply bind_Ok in H as (new' & Hconst & H). inversion H; subst; clear H.
  assert (Forall (fun s => Symbol.byte_offset s
                           = Z.of_nat (Node.start_byte n)) new) as Hnew.
  { unfold walk_symbol in Hsym. destruct (dict_mem _ _).
    - destruct (_extract_symbol _ _ _ _ _ _ _) as [[s|]|e] eqn:Hs;
        cbn in Hsym; inversion Hsym; subst; clear Hsym; [| constructor].
      apply _extract_symbol_inv in Hs
        as (name & _ & _ & _ & _ & _ & _ & _ & _ & _ & _ & _ & _ & Ho & _).
      by repeat constructor.
    - inversion Hsym; subst. constructor. }
  unfold walk_constant in Hconst.
  destruct p' as [q|]; [inversion Hconst; by subst |].
  destruct (list_mem _ _); [| inversion Hconst; by subst].
  destruct (_extract_constant _ _ _ _ _ _) as [[c|]|e] eqn:Hc;
    cbn in Hconst; inversion Hconst; subst; [| exact Hnew].
  apply Forall_app. split; [exact Hnew |].
  apply _extract_constant_inv in Hc
    as (l & name & text & _ & _ & _ & _ & _ & _ & ->).
  by repeat constructor.
Qed.

Lemma _walk_tree_source_order n :
  forall prevs p symbols symbols',
    laid_out n = true ->
    _walk_tree ucd_case prevs n spec source_bytes filename language symbols p
      = Ok symbols' ->
    exists new,
      symbols' = symbols ++ new
      /\ Forall (fun s =>
                   (Z.of_nat (Node.start_byte n) <= Symbol.byte_offset s
                    <= Z.of_nat (Node.end_byte n))%Z) new
      /\ StronglySorted
           (fun a b => (Symbol.byte_offset a <= Symbol.byte_offset b)%Z) new.
Proof.
  induction n as [ty nm he sb eb sr er fl cs IH] using Node.t_ind.
  intros prevs p symbols symbols' Hlaid. rewrite _walk_tree_own.
  intros H. apply bind_Ok in H as ([own p'] & Hown & H).
  apply own_symbols_offsets in Hown.
  rewrite laid_out_eq in Hlaid.
  cbn [Node.start_byte Node.end_byte Node.children] in *.
  apply andb_true_iff in Hlaid as [Hle Hcs]. apply Nat.leb_le in Hle.
  assert (exists new,
            symbols' = (symbols ++ own) ++ new
            /\ Forall (fun s =>
                         (Z.of_nat sb <= Symbol.byte_offset s
                          <= Z.of_nat eb)%Z) new
            /\ StronglySorted
                 (fun a b => (Symbol.byte_offset a <= Symbol.byte_offset b)%Z)
                 new) as (new & -> & Hrange & Hsorted).
  { revert H Hcs. generalize (symbols ++ own) as syms.
    generalize (@nil Node.t) as prevs'. generalize sb as lo.
    clear Hown Hle.
    induction IH as [|c cs Hc _ IHcs]; intros lo prevs' syms H Hcs.
    - inversion H; subst. exists []. rewrite app_nil_r.
      repeat split; constructor.
    - cbn in H. apply bind_Ok in H as (syms1 & H1 & H).
      cbn [children_laid_out] in Hcs.
      apply andb_true_iff in Hcs as [Hcs Hrest].
      apply andb_true_iff in Hcs as [Hlo Hc_laid]. apply Nat.leb_le in Hlo.
      destruct (Hc _ _ _ _ Hc_laid H1) as (new1 & -> & Hr1 & Hs1).
      destruct (IHcs _ _ _ H Hrest) as (new2 & -> & Hr2 & Hs2).
      exists (new1 ++ new2). rewrite app_assoc.
      assert (Node.start_byte c <= Node.end_byte c)%nat as Hce.
      { rewrite laid_out_eq in Hc_laid.
        apply andb_true_iff in Hc_laid as [Hce _]. by apply Nat.leb_le. }
      split; [reflexivity |]. split.
      + apply Forall_app. split.
        * eapply List.Forall_impl; [| exact Hr1]. intros s Hs.
          cbn beta in Hs.
          assert (Node.end_byte c <= eb)%nat; [| lia].
          clear -Hrest. revert Hrest. generalize (Node.end_byte c) as lo'.
          induction cs as [|c' cs IHc]; intros lo' Hrest;
            cbn [children_laid_out] in Hrest.
          -- by apply Nat.leb_le.
          -- apply andb_true_iff in Hrest as [Hrest Hr].
             apply andb_true_iff in Hrest as [Hl Hc'].
             apply Nat.leb_le in Hl. apply IHc in Hr.
             rewrite laid_out_eq in Hc'.
             apply andb_true_iff in Hc' as [Hc' _].
             apply Nat.leb_le in Hc'. lia.
        * eapply List.Forall_impl; [| exact Hr2]. intros s Hs.
          cbn beta in Hs. lia.
      + apply StronglySorted_app; [exact Hs1 | exact Hs2 |].
        intros a b Ha Hb. rewrite List.Forall_forall in Hr1, Hr2.
        specialize (Hr1 a Ha). specialize (Hr2 b Hb). cbn beta in *. lia. }
  exists (own ++ new). rewrite app_assoc. split; [reflexivity |]. split.
  - apply Forall_app. split; [| exact Hrange].
    eapply List.Forall_impl; [| exact Hown]. intros s Hs. cbn beta in Hs. lia.
  - apply StronglySorted_app; [| exact Hsorted |].
    + apply StronglySorted_all. intros a b Ha Hb.
      rewrite List.Forall_forall in Hown.
      rewrite (Hown a Ha), (Hown b Hb). lia.
    + intros a b Ha Hb. rewrite List.Forall_forall in Hown, Hrange.
      specialize (Hown a Ha). specialize (Hrange b Hb). cbn beta in *. lia.
Qed.

End SourceOrder.

(** X28. The Symbols of a result come in the order of the source.  For a
    tree whose byte ranges are laid out as a parser lays them out (the
    children of a node inside its range, one after the other), the byte
    offsets of the result of [parse_file] never decrease along the list,
    and every Symbol starts inside the range of the root. *)
Theorem parse_file_source_order ucd_case root source_bytes filename language
    syms :
  laid_out root = true ->
  parse_file ucd_case root source_bytes filename language = Ok syms ->
  StronglySorted
    (fun a b => (Symbol.byte_offset a <= Symbol.byte_offset b)%Z) syms
  /\ Forall (fun s =>
               (Z.of_nat (Node.start_byte root) <= Symbol.byte_offset s
                <= Z.of_nat (Node.end_byte root))%Z) syms.
Proof.
  intros Hlaid Hparse. unfold parse_file in Hparse.
  destruct (dict_get LANGUAGE_REGISTRY language) as [spec|].
  - destruct (_walk_tree_source_order ucd_case spec source_bytes filename
                language root [] None [] syms Hlaid Hparse)
      as (new & -> & Hrange & Hsorted).
    by split.
  - inversion Hparse; subst. split; constructor.
Qed.

Lemma parse_file_source_order_witness :
  laid_out Inputs.nested_tree = true
  /\ parse_file ascii_only Inputs.nested_tree Inputs.nested_src (py "a.py")
       (py "python") = Ok Inputs.nested_symbols
  /\ StronglySorted
       (fun a b => (Symbol.byte_offset a <= Symbol.byte_offset b)%Z)
       Inputs.nested_symbols
  /\ Forall (fun s =>
               (Z.of_nat (Node.start_byte Inputs.nested_tree)
                <= Symbol.byte_offset s
                <= Z.of_nat (Node.end_byte Inputs.nested_tree))%Z)
       Inputs.nested_symbols.
Proof.
  assert (laid_out Inputs.nested_tree = true) as Hlaid
    by (vm_compute; reflexivity).
  assert (parse_file ascii_only Inputs.nested_tree Inputs.nested_src
            (py "a.py") (py "python") = Ok Inputs.nested_symbols) as Hparse
    by (vm_compute; reflexivity).
  split; [exact Hlaid |]. split; [exact Hparse |].
  exact (parse_file_source_order ascii_only Inputs.nested_tree
           Inputs.nested_src (py "a.py") (py "python") Inputs.nested_symbols
           Hlaid Hparse).
Defined.
